(** * Win detection and forced wins of the slot machine

    A shallow embedding of the class [GameCoreLogic] (the win-detection
    engine, [core/GameCoreLogic.ts]), of the two constants of
    [GameConstants] it reads, of the class [ForceWinHelper]
    ([slots/ForceWinHelper.ts]) that builds grids for the engine, and of the
    class [Reel] ([slots/Reel.ts]) with the calls of [SlotMachine]
    ([slots/SlotMachine.ts]) that write a grid to the reels, read it back
    and draw the wins, and of the module [Sound] ([utils/Sound.ts]),
    followed by the properties of the engine, of the helpers, of the reels
    and of the sounds.

    Conventions of the embedding.
    - A JavaScript number used as a row or column index is a [Z]; the
      arithmetic of the source ([c + r], [c - r], [coord.c + dc]) is written
      with the operations of [Z], so that [0 + (-1)] is [-1] as in the source.
    - A cell of type [string | undefined] is an [option string].  Arrays are
      dense lists.  The grid argument and each of its rows may be missing at
      run time (the source tests [!grid] and [!row]), hence the two further
      [option]s in [Grid].
    - The fields [r] and [c] of [GridCoord] are the projections [row] and
      [col]; the loop variables keep the names [r] and [c] of the source.
    - Code that reads the grid lives in the monad [Res]: a read whose object
      is missing throws ([TypeError], as in JavaScript), and a read whose
      index is outside the array is reported as [OutOfRange] (JavaScript
      would yield [undefined]); in range both agree with the source.
    - A [Set<string>] that is only asked [has] and told [add] is a
      [gset string] of the very strings the source builds; the [Set] that a
      [for ... of] runs over is the list of its elements in insertion order.
    - [console.error] is kept as the list of lines a call has logged,
      returned beside its result. *)

From Equations Require Import Equations.
From Equations.Prop Require Logic.
From Stdlib Require Import Ascii QArith Qround.
From stdpp Require Import gmap strings list pretty sorting.

Open Scope Z_scope.

#[local] Set Warnings "-clear-no-such-hyp".

(** ** Constants ([GameConstants]) *)

Definition REEL_COUNT : Z := 4.
Definition SYMBOLS_PER_REEL : Z := 6.

(** ** Data model *)

Record GridCoord := Coord { row : Z; col : Z }.

Abbreviation Path := (list GridCoord).

Record WinsResult := Wins {
  straight : list Path;
  diagonal : list Path;
  adjacency : list Path
}.

Abbreviation Cell := (option string).
Abbreviation Grid := (option (list (option (list Cell)))).

#[global] Instance GridCoord_eq_dec : EqDecision GridCoord.
Proof. solve_decision. Defined.

(** ** Reads and their faults *)

Inductive Fault := TypeError | OutOfRange.

Inductive Res (A : Type) :=
| Ok (a : A)
| Throw (e : Fault).
Arguments Ok {A} a.
Arguments Throw {A} e.

#[global] Instance Res_ret : MRet Res := @Ok.
#[global] Instance Res_bind : MBind Res := λ A B f m,
  match m with
  | Ok a => f a
  | Throw e => Throw e
  end.

#[global] Instance Fault_eq_dec : EqDecision Fault.
Proof. solve_decision. Defined.

#[global] Instance Res_eq_dec {A} `{EqDecision A} : EqDecision (Res A).
Proof. solve_decision. Defined.

(** [l[i]] for a JavaScript number [i]. *)
Definition nthZ {A} (l : list A) (i : Z) : option A :=
  if bool_decide (0 ≤ i) then l !! Z.to_nat i else None.

(** [grid[r]], used as an array. *)
Definition rowAt (grid : Grid) (r : Z) : Res (list Cell) :=
  match grid with
  | None => Throw TypeError
  | Some rows =>
      match nthZ rows r with
      | None => Throw OutOfRange
      | Some None => Throw TypeError
      | Some (Some cells) => Ok cells
      end
  end.

(** [grid[r][c]]. *)
Definition cellAt (grid : Grid) (r c : Z) : Res Cell :=
  cells ← rowAt grid r;
  match nthZ cells c with
  | None => Throw OutOfRange
  | Some cell => Ok cell
  end.

(** Truthiness of a cell: [undefined] and the empty string are falsy. *)
Definition truthy (cell : Cell) : bool :=
  match cell with
  | Some s => bool_decide (s ≠ "")
  | None => false
  end.

(** A [for] loop over the values [xs] of its variable, threading the
    variables the body assigns. *)
Fixpoint forEach {A S} (xs : list A) (body : A → S → Res S) (s : S) : Res S :=
  match xs with
  | [] => Ok s
  | x :: xs' => s' ← body x s; forEach xs' body s'
  end.

(** ** [isValidGrid] *)

Definition isValidGrid (grid : Grid) : bool :=
  match grid with
  | None => false
  | Some rows =>
      if bool_decide (Z.of_nat (length rows) ≠ REEL_COUNT) then false
      else
        forallb (λ r : option (list Cell),
                   match r with
                   | None => false
                   | Some cells =>
                       negb (bool_decide (Z.of_nat (length cells) ≠ SYMBOLS_PER_REEL))
                   end) rows
  end.

(** ** [findHorizontalWins] *)

Definition horizontalRow (grid : Grid) (r : Z) (wins : list Path) : Res (list Path) :=
  firstSymbol ← cellAt grid r 0;
  if truthy firstSymbol then
    cells ← rowAt grid r;
    if forallb (λ symbol, bool_decide (symbol = firstSymbol)) cells then
      Ok (wins ++ [(λ c, Coord r c) <$> seqZ 0 SYMBOLS_PER_REEL])
    else Ok wins
  else Ok wins.

Definition findHorizontalWins (grid : Grid) : Res (list Path) :=
  forEach (seqZ 0 REEL_COUNT) (horizontalRow grid) [].

(** ** [findVerticalWins] *)

(** The inner loop [for (r = 1; r < REEL_COUNT; r++)] with its [break]:
    the value of [allMatch] when the loop is left. *)
Fixpoint allMatchLoop (grid : Grid) (c : Z) (firstSymbol : Cell) (rs : list Z) : Res bool :=
  match rs with
  | [] => Ok true
  | r :: rs' =>
      cell ← cellAt grid r c;
      if bool_decide (cell ≠ firstSymbol) then Ok false
      else allMatchLoop grid c firstSymbol rs'
  end.

Definition verticalColumn (grid : Grid) (c : Z) (wins : list Path) : Res (list Path) :=
  firstSymbol ← cellAt grid 0 c;
  if truthy firstSymbol then
    allMatch ← allMatchLoop grid c firstSymbol (seqZ 1 (REEL_COUNT - 1));
    if allMatch : bool then
      Ok (wins ++ [(λ r, Coord r c) <$> seqZ 0 REEL_COUNT])
    else Ok wins
  else Ok wins.

Definition findVerticalWins (grid : Grid) : Res (list Path) :=
  forEach (seqZ 0 SYMBOLS_PER_REEL) (verticalColumn grid) [].

(** ** [findDiagonalWins] *)

(** The inner loop of either slope: [colAt c r] is the column read in row
    [r], [c + r] for slope +1 and [c - r] for slope -1; the loop extends
    [path] until a mismatch breaks it.  Returns [allMatch] and [path]. *)
Fixpoint diagonalLoop (grid : Grid) (colAt : Z → Z → Z) (c : Z) (firstSymbol : Cell)
    (rs : list Z) (path : Path) : Res (bool * Path) :=
  match rs with
  | [] => Ok (true, path)
  | r :: rs' =>
      cell ← cellAt grid r (colAt c r);
      if bool_decide (cell ≠ firstSymbol) then Ok (false, path)
      else diagonalLoop grid colAt c firstSymbol rs' (path ++ [Coord r (colAt c r)])
  end.

Definition diagonalFrom (grid : Grid) (colAt : Z → Z → Z) (c : Z) (wins : list Path) :
    Res (list Path) :=
  firstSymbol ← cellAt grid 0 c;
  if truthy firstSymbol then
    '(allMatch, path) ← diagonalLoop grid colAt c firstSymbol
                          (seqZ 1 (REEL_COUNT - 1)) [Coord 0 c];
    if allMatch : bool then Ok (wins ++ [path]) else Ok wins
  else Ok wins.

Definition findDiagonalWins (grid : Grid) : Res (list Path) :=
  wins ← forEach (seqZ 0 (SYMBOLS_PER_REEL - REEL_COUNT + 1))
           (diagonalFrom grid (λ c r, c + r)) [];
  forEach (reverse (seqZ (REEL_COUNT - 1) (SYMBOLS_PER_REEL - REEL_COUNT + 1)))
          (diagonalFrom grid (λ c r, c - r)) wins.

(** ** [findAdjacencyWins] *)

(** The key [`${r},${c}`] of the visited set. *)
Definition coordKey (r c : Z) : string := pretty r +:+ "," +:+ pretty c.

(** [grid.flat()]: the cells of all rows in order; a missing row is kept as
    one [undefined] element. *)
Definition flat (grid : Grid) : Res (list Cell) :=
  match grid with
  | None => Throw TypeError
  | Some rows =>
      Ok (mjoin ((λ r : option (list Cell),
                     match r with
                     | None => [None]
                     | Some cells => cells
                     end) <$> rows))
  end.

(** [.filter(Boolean) as string[]]. *)
Definition filterBoolean (cells : list Cell) : list string :=
  omap (λ cell : Cell, if truthy cell then cell else None) cells.

(** [new Set(xs)], as the list of its elements in iteration (insertion)
    order. *)
Definition newSet (xs : list string) : list string :=
  foldl (λ acc x, if bool_decide (x ∈ acc) then acc else acc ++ [x]) [] xs.

Abbreviation QueueItem := (GridCoord * Path)%type.

(** One round of [for (const dc of [-1, 0, 1])]: the visited set and the
    queue after the round. *)
Definition tryNeighbour (grid : Grid) (symbol : string) (coord : GridCoord)
    (path : Path) (dc : Z) (st : gset string * list QueueItem) :
    Res (gset string * list QueueItem) :=
  let nextR := row coord + 1 in
  let nextC := col coord + dc in
  let visitedKey := coordKey nextR nextC in
  if bool_decide (0 ≤ nextC) && bool_decide (nextC < SYMBOLS_PER_REEL)
     && bool_decide (visitedKey ∉ st.1) then
    cell ← cellAt grid nextR nextC;
    if bool_decide (cell = Some symbol) then
      Ok ({[visitedKey]} ∪ st.1,
          st.2 ++ [(Coord nextR nextC, path ++ [Coord nextR nextC])])
    else Ok st
  else Ok st.

Definition expand (grid : Grid) (symbol : string) (coord : GridCoord)
    (path : Path) (st : gset string * list QueueItem) :
    Res (gset string * list QueueItem) :=
  forEach [-1; 0; 1] (tryNeighbour grid symbol coord path) st.

(** The keys of the cells the grid has. *)
Definition gridKeys (grid : Grid) : list string :=
  match grid with
  | None => []
  | Some rows =>
      mjoin (imap (λ r (cells : option (list Cell)),
                      match cells with
                      | None => []
                      | Some cells =>
                          imap (λ c _, coordKey (Z.of_nat r) (Z.of_nat c)) cells
                      end) rows)
  end.

(** What bounds the [while] loop: the cells not yet visited, and the queue. *)
Definition unvisited (grid : Grid) (visited : gset string) : nat :=
  length (filter (λ k, k ∉ visited) (gridKeys grid)).

Definition bfsMeasure (grid : Grid) (st : gset string * list QueueItem) : nat :=
  (2 * unvisited grid st.1 + length st.2)%nat.

(** *** Termination of the search *)

Lemma bind_Ok {A B} (m : Res A) (f : A → Res B) (b : B) :
  m ≫= f = Ok b ↔ ∃ a, m = Ok a ∧ f a = Ok b.
Proof.
  destruct m as [a|e]; simpl.
  - split; [eauto|]. by intros (? & [= <-] & ?).
  - split; [done|]. by intros (? & ? & ?).
Qed.

Lemma nthZ_Some {A} (l : list A) (i : Z) (x : A) :
  nthZ l i = Some x ↔ 0 ≤ i ∧ l !! Z.to_nat i = Some x.
Proof. unfold nthZ. case_bool_decide; naive_solver. Qed.

Lemma rowAt_Ok grid (r : Z) cells :
  rowAt grid r = Ok cells ↔
  ∃ rows, grid = Some rows ∧ 0 ≤ r ∧ rows !! Z.to_nat r = Some (Some cells).
Proof.
  unfold rowAt. destruct grid as [rows|]; [|naive_solver].
  destruct (nthZ rows r) as [[cs|]|] eqn:Hn.
  - apply nthZ_Some in Hn. naive_solver.
  - apply nthZ_Some in Hn. naive_solver.
  - split; [done|]. intros (? & [= <-] & ? & Hl).
    assert (nthZ rows r = Some (Some cells)) by by apply nthZ_Some.
    congruence.
Qed.

Lemma cellAt_Ok grid (r c : Z) cell :
  cellAt grid r c = Ok cell ↔
  ∃ rows cells, grid = Some rows ∧ 0 ≤ r ∧ rows !! Z.to_nat r = Some (Some cells)
                ∧ 0 ≤ c ∧ cells !! Z.to_nat c = Some cell.
Proof.
  unfold cellAt. rewrite bind_Ok. split.
  - intros (cells & Hr & Hc). apply rowAt_Ok in Hr as (rows & -> & ? & ?).
    destruct (nthZ cells c) as [x|] eqn:Hn; [|done].
    apply nthZ_Some in Hn. naive_solver.
  - intros (rows & cells & -> & ? & ? & ? & Hc). exists cells. split.
    + apply rowAt_Ok. eauto.
    + assert (nthZ cells c = Some cell) as -> by by apply nthZ_Some. done.
Qed.

Lemma cellAt_gridKeys grid (r c : Z) cell :
  cellAt grid r c = Ok cell → coordKey r c ∈ gridKeys grid.
Proof.
  intros (rows & cells & -> & ? & Hr & ? & Hc)%cellAt_Ok. simpl.
  apply list_elem_of_join. eexists. split.
  2:{ apply list_elem_of_lookup. exists (Z.to_nat r).
      rewrite list_lookup_imap, Hr. reflexivity. }
  simpl. apply list_elem_of_lookup. exists (Z.to_nat c).
  rewrite list_lookup_imap, Hc. simpl. f_equal. f_equal; lia.
Qed.

Lemma unvisited_insert grid (visited : gset string) k :
  k ∈ gridKeys grid → k ∉ visited →
  (unvisited grid ({[k]} ∪ visited) < unvisited grid visited)%nat.
Proof.
  unfold unvisited. generalize (gridKeys grid) as ks.
  assert (Hle : ∀ ks : list string,
    (length (filter (λ k0, k0 ∉ {[k]} ∪ visited) ks)
     ≤ length (filter (λ k0, k0 ∉ visited) ks))%nat).
  { induction ks as [|x ks IH]; [done|].
    rewrite !filter_cons. repeat case_decide; simpl; try lia. set_solver. }
  induction ks as [|x ks IH]; intros Hin Hk.
  - by apply elem_of_nil in Hin.
  - rewrite !filter_cons. apply elem_of_cons in Hin as [->|Hin].
    + rewrite decide_False by set_solver. rewrite decide_True by done.
      simpl. specialize (Hle ks). lia.
    + specialize (IH Hin Hk). repeat case_decide; simpl; try lia. set_solver.
Qed.

Lemma tryNeighbour_measure grid symbol coord path dc st st' :
  tryNeighbour grid symbol coord path dc st = Ok st' →
  (bfsMeasure grid st' ≤ bfsMeasure grid st)%nat.
Proof.
  unfold tryNeighbour. destruct st as [visited queue]. simpl.
  destruct (_ && _) eqn:Hg; [|intros [= <-]; done].
  apply andb_prop in Hg as [_ Hv]. apply bool_decide_eq_true in Hv.
  destruct (cellAt _ _ _) as [cell|] eqn:Hc; simpl; [|done].
  case_bool_decide; intros [= <-]; [|done].
  unfold bfsMeasure. simpl. rewrite length_app. simpl.
  pose proof (unvisited_insert grid visited _ (cellAt_gridKeys _ _ _ _ Hc) Hv).
  lia.
Qed.

Lemma expand_measure grid symbol coord path st st' :
  expand grid symbol coord path st = Ok st' →
  (bfsMeasure grid st' ≤ bfsMeasure grid st)%nat.
Proof.
  unfold expand. generalize [-1; 0; 1] as dcs. intros dcs. revert st.
  induction dcs as [|dc dcs IH]; intros st; simpl.
  - by intros [= <-].
  - destruct (tryNeighbour _ _ _ _ _ _) as [st1|] eqn:H1; simpl; [|done].
    intros H2. apply IH in H2. apply tryNeighbour_measure in H1. lia.
Qed.

(** The [while (queue.length > 0)] loop of one search: [queue.shift()],
    then either the completed [path] is pushed on [allPaths] or the three
    neighbours are tried.  Returns [allPaths] when the queue is empty. *)
Equations? bfs (grid : Grid) (symbol : string) (queue : list QueueItem)
    (visited : gset string) (allPaths : list Path) : Res (list Path)
    by wf (bfsMeasure grid (visited, queue)) lt :=
  bfs grid symbol [] visited allPaths := Ok allPaths;
  bfs grid symbol ((coord, path) :: queue) visited allPaths
    with bool_decide (row coord = REEL_COUNT - 1) => {
    | true := bfs grid symbol queue visited (allPaths ++ [path]);
    | false with Logic.inspect (expand grid symbol coord path (visited, queue)) => {
      | exist _ (Ok (visited', queue')) Hexp :=
          bfs grid symbol queue' visited' allPaths;
      | exist _ (Throw e) _ := Throw e } }.
Proof.
  - unfold bfsMeasure. simpl. lia.
  - apply expand_measure in Hexp. unfold bfsMeasure in *. simpl in *. lia.
Qed.

(** The search started at [(0, c)] when [grid[0][c] === symbol]. *)
Definition searchFrom (grid : Grid) (symbol : string) (c : Z) (allPaths : list Path) :
    Res (list Path) :=
  cell ← cellAt grid 0 c;
  if bool_decide (cell = Some symbol) then
    bfs grid symbol [(Coord 0 c, [Coord 0 c])] {[coordKey 0 c]} allPaths
  else Ok allPaths.

Definition findAdjacencyWins (grid : Grid) : Res (list Path) :=
  cells ← flat grid;
  let uniqueSymbols := newSet (filterBoolean cells) in
  forEach uniqueSymbols
    (λ symbol, forEach (seqZ 0 SYMBOLS_PER_REEL) (searchFrom grid symbol)) [].

(** ** [isStraightOrDiagonalPath] *)

(** The loop [for (i = 2; i < path.length; i++)]: [prev] is [path[i - 1]]
    and [rest] is [path] from index [i] on. *)
Fixpoint constantSteps (deltaC : Z) (prev : GridCoord) (rest : Path) : bool :=
  match rest with
  | [] => true
  | p :: rest' =>
      let currentDeltaR := row p - row prev in
      let currentDeltaC := col p - col prev in
      if bool_decide (currentDeltaR ≠ 1) || bool_decide (currentDeltaC ≠ deltaC)
      then false
      else constantSteps deltaC p rest'
  end.

Definition isStraightOrDiagonalPath (path : Path) : bool :=
  match path with
  | p0 :: p1 :: rest => constantSteps (col p1 - col p0) p1 rest
  | _ => true
  end.

(** ** [dedupePaths] *)

(** The comparator [(a, b) => a.r - b.r || a.c - b.c]. *)
Definition compareCoord (a b : GridCoord) : Z :=
  if bool_decide (row a - row b ≠ 0) then row a - row b else col a - col b.

(** [a] may stand before [b] in the sorted array. *)
Definition coordLe (a b : GridCoord) : Prop := compareCoord a b ≤ 0.

#[global] Instance coordLe_dec a b : Decision (coordLe a b).
Proof. unfold coordLe. apply _. Defined.

(** [xs.join(sep)]. *)
Fixpoint joinWith (sep : string) (xs : list string) : string :=
  match xs with
  | [] => ""
  | x :: xs' =>
      match xs' with
      | [] => x
      | _ :: _ => x +:+ sep +:+ joinWith sep xs'
      end
  end.

Definition pathKey (path : Path) : string :=
  let sortedPath := merge_sort coordLe path in
  joinWith "-" ((λ p, coordKey (row p) (col p)) <$> sortedPath).

Definition dedupeStep (st : gset string * list Path) (path : Path) :
    gset string * list Path :=
  let key := pathKey path in
  if bool_decide (key ∉ st.1) then ({[key]} ∪ st.1, st.2 ++ [path]) else st.

Definition dedupePaths (paths : list Path) : list Path :=
  (foldl dedupeStep (∅, []) paths).2.

(** ** [computeWins] and [checkWin] *)

(** The result of a call together with the lines it wrote with
    [console.error]. *)
Abbreviation Logged A := (list string * A)%type.

Definition computeWins (grid : Grid) : Res (Logged WinsResult) :=
  if negb (isValidGrid grid) then
    Ok (["Invalid grid provided."%string], Wins [] [] [])
  else
    horizontalWins ← findHorizontalWins grid;
    verticalWins ← findVerticalWins grid;
    diagonalWins ← findDiagonalWins grid;
    adjacencyWins ← findAdjacencyWins grid;
    let straight := horizontalWins ++ verticalWins in
    let adjacencyFiltered :=
      filter (λ p, negb (isStraightOrDiagonalPath p)) adjacencyWins in
    Ok ([], Wins (dedupePaths straight) (dedupePaths diagonalWins)
                 (dedupePaths adjacencyFiltered)).

Record CheckWinResult := CheckWin {
  winningPaths : list Path;
  wins : WinsResult
}.

Definition checkWin (grid : Grid) : Res (Logged CheckWinResult) :=
  '(log, wins) ← computeWins grid;
  let allPaths := straight wins ++ diagonal wins ++ adjacency wins in
  Ok (log, CheckWin allPaths wins).

(** * Forced wins: [ForceWinHelper]

    The helpers draw from [Math.random], throw [Error]s of their own, write
    into the grid they build and call the engine through the callback
    [validate].
    - [Math.random] is a sequence [nat → Q] of numbers: its [k]-th call
      returns the [k]-th number, and the world counts the calls.  A number is
      taken as a rational and [Math.floor(u * n)] is computed exactly; the
      rounding of the floating-point product can move a result that is
      within rounding distance of an integer, never out of [0 .. n - 1], and
      every number drawn is used once.
    - [validate] is a function of the grid that returns what the engine
      returns: a result and the lines it logged, or a fault.  Its lines are
      appended to the console of the world.
    - An array read or write whose index is outside the array is reported as
      [OutOfRange], as for the reads of the engine; where the source tests
      the value it read ([wins.straight[0]]), the read is a lookup. *)

Record World := MkWorld {
  drawn : nat;
  console : list string
}.

Inductive Exn :=
| Error (msg : string)
| Native (e : Fault).

Inductive Out (A : Type) :=
| Done (a : A) (w : World)
| Raise (e : Exn).
Arguments Done {A} a w.
Arguments Raise {A} e.

Definition Gen (A : Type) : Type := (nat → Q) → World → Out A.

#[global] Instance Gen_ret : MRet Gen := λ A a _ w, Done a w.
#[global] Instance Gen_bind : MBind Gen := λ A B f m rnd w,
  match m rnd w with
  | Done a w' => f a rnd w'
  | Raise e => Raise e
  end.

Definition raise {A} (e : Exn) : Gen A := λ _ _, Raise e.

(** [Math.random()]. *)
Definition mathRandom : Gen Q := λ rnd w,
  Done (rnd (drawn w)) (MkWorld (S (drawn w)) (console w)).

(** [validate(grid)]. *)
Definition call {G} (validate : G → Res (Logged WinsResult)) (grid : G) : Gen WinsResult :=
  λ _ w,
    match validate grid with
    | Ok (log, wins) => Done wins (MkWorld (drawn w) (console w ++ log))
    | Throw e => Raise (Native e)
    end.

(** [xs[i]], used without a test. *)
Definition at_ {A} (xs : list A) (i : Z) : Gen A :=
  match nthZ xs i with
  | Some x => mret x
  | None => raise (Native OutOfRange)
  end.

(** [grid[r][c] = v]. *)
Definition setCell (grid : list (list string)) (r c : Z) (v : string) :
    Gen (list (list string)) :=
  cells ← at_ grid r;
  if bool_decide (0 ≤ c < Z.of_nat (length cells)) then
    mret (<[Z.to_nat r := <[Z.to_nat c := v]> cells]> grid)
  else raise (Native OutOfRange).

(** A [for] loop over the values [xs] of its variable. *)
Fixpoint forEachG {A S} (xs : list A) (body : A → S → Gen S) (s : S) : Gen S :=
  match xs with
  | [] => mret s
  | x :: xs' => s' ← body x s; forEachG xs' body s'
  end.

(** [Math.floor(u * n)]. *)
Definition floorMul (u : Q) (n : Z) : Z := Qfloor (u * inject_Z n).

(** ** [randomSymbolName] *)

Definition randomSymbolName (symbols : option (list string)) : Gen string :=
  match symbols with
  | None => raise (Error "randomSymbolName: empty symbol list")
  | Some symbols =>
      if bool_decide (length symbols = 0%nat) then
        raise (Error "randomSymbolName: empty symbol list")
      else
        u ← mathRandom;
        let i := floorMul u (Z.of_nat (length symbols)) in
        at_ symbols i
  end.

(** ** [makeRandomGrid] *)

Definition makeRandomGrid (rows cols : Z) (symbols : option (list string))
    (excludeSymbol : option string) : Gen (list (list string)) :=
  if bool_decide (rows ≤ 0) || bool_decide (cols ≤ 0) then
    raise (Error "makeRandomGrid: invalid dimensions")
  else
    match symbols with
    | None => raise (Native TypeError)
    | Some symbols =>
        let pool :=
          if truthy excludeSymbol
          then filter (λ n, Some n ≠ excludeSymbol) symbols
          else symbols in
        if bool_decide (length pool = 0%nat) then
          raise (Error "makeRandomGrid: empty pool")
        else
          let grid := replicate (Z.to_nat rows) (replicate (Z.to_nat cols) ""%string) in
          forEachG (seqZ 0 rows) (λ r grid,
            forEachG (seqZ 0 cols) (λ c grid,
              u ← mathRandom;
              v ← at_ pool (floorMul u (Z.of_nat (length pool)));
              setCell grid r c v) grid) grid
    end.

(** ** [slopeOfPath] *)


(** ** [getStraightWinGrid] *)






(** ** [generateRandomDiagonalWin] *)

Definition diagonalAttempt (rows cols : Z) (symbols : option (list string))
    (validate : list (list string) → Res (Logged WinsResult)) (sym : string) :
    Gen (option (list (list string))) :=
  u ← mathRandom;
  let k := if Qlt_le_dec u 0.5 then -1 else 1 in
  let '(minC0, maxC0) :=
    if bool_decide (0 ≤ k) then (0, cols - 1 - k * (rows - 1))
    else (- k * (rows - 1), cols - 1) in
  if bool_decide (maxC0 < minC0) then mret None
  else
    u ← mathRandom;
    let c0 := Qfloor (inject_Z minC0 + u * inject_Z (maxC0 - minC0 + 1)) in
    grid ← makeRandomGrid rows cols symbols (Some sym);
    grid ← forEachG (seqZ 0 rows) (λ r grid,
              let c := c0 + k * r in
              setCell grid r c sym) grid;
    wins ← call validate grid;
    let ok := bool_decide (length (straight wins) = 0%nat)
              && bool_decide (length (adjacency wins) = 0%nat)
              && bool_decide (length (diagonal wins) = 1%nat) in
    if ok then mret (Some grid) else mret None.

Fixpoint diagonalAttempts (n : nat) (rows cols : Z) (symbols : option (list string))
    (validate : list (list string) → Res (Logged WinsResult)) (sym : string) :
    Gen (option (list (list string))) :=
  match n with
  | O => mret None
  | S n' =>
      found ← diagonalAttempt rows cols symbols validate sym;
      match found with
      | Some grid => mret (Some grid)
      | None => diagonalAttempts n' rows cols symbols validate sym
      end
  end.

Definition generateRandomDiagonalWin (rows cols : Z) (symbols : option (list string))
    (validate : list (list string) → Res (Logged WinsResult)) :
    Gen (option (list (list string))) :=
  sym ← randomSymbolName symbols;
  let maxAttempts := 200%nat in
  diagonalAttempts maxAttempts rows cols symbols validate sym.

(** ** [generateRandomStraightConnectingLineWin] *)

(** One round of [for (r = 0; r < rows - 1; r++)]: the variables [steps],
    [c] and [colsPath] after the round. *)
Definition connectingStep (rows cols : Z) (r : Z)
    (st : list Z * Z * list Z) : Gen (list Z * Z * list Z) :=
  let '(steps, c, colsPath) := st in
  let choices := filter (λ dc, 0 ≤ c + dc ∧ c + dc < cols) [-1; 0; 1] in
  u ← mathRandom;
  dc ← at_ choices (floorMul u (Z.of_nat (length choices)));
  dc ←
    (if bool_decide (r = rows - 2) then
       let allEqual :=
         bool_decide (0 < length steps)%nat
         && match steps with
            | [] => true
            | s0 :: _ => forallb (λ s, bool_decide (s = s0)) steps
            end in
       if allEqual then
         let alt := filter (λ x, Some x ≠ steps !! 0%nat) choices in
         if bool_decide (0 < length alt)%nat then
           u ← mathRandom;
           at_ alt (floorMul u (Z.of_nat (length alt)))
         else mret dc
       else mret dc
     else mret dc);
  mret (steps ++ [dc], c + dc, colsPath ++ [c + dc]).

Definition connectingAttempt (rows cols : Z) (symbols : option (list string))
    (validate : list (list string) → Res (Logged WinsResult)) (sym : string) :
    Gen (option (list (list string))) :=
  grid ← makeRandomGrid rows cols symbols (Some sym);
  u ← mathRandom;
  let c := floorMul u cols in
  '(steps, _, colsPath) ←
    forEachG (seqZ 0 (rows - 1)) (connectingStep rows cols) ([], c, [c]);
  let allZero := forallb (λ s, bool_decide (s = 0)) steps in
  let allPos := forallb (λ s, bool_decide (s = 1)) steps in
  let allNeg := forallb (λ s, bool_decide (s = -1)) steps in
  if allZero || allPos || allNeg then mret None
  else
    grid ← forEachG (seqZ 0 rows) (λ r grid,
              cc ← at_ colsPath r;
              setCell grid r cc sym) grid;
    wins ← call validate grid;
    let ok := bool_decide (length (straight wins) = 0%nat)
              && bool_decide (length (diagonal wins) = 0%nat)
              && bool_decide (length (adjacency wins) = 1%nat) in
    if ok then mret (Some grid) else mret None.

Fixpoint connectingAttempts (n : nat) (rows cols : Z) (symbols : option (list string))
    (validate : list (list string) → Res (Logged WinsResult)) (sym : string) :
    Gen (option (list (list string))) :=
  match n with
  | O => mret None
  | S n' =>
      found ← connectingAttempt rows cols symbols validate sym;
      match found with
      | Some grid => mret (Some grid)
      | None => connectingAttempts n' rows cols symbols validate sym
      end
  end.

Definition generateRandomStraightConnectingLineWin (rows cols : Z)
    (symbols : option (list string))
    (validate : list (list string) → Res (Logged WinsResult)) :
    Gen (option (list (list string))) :=
  sym ← randomSymbolName symbols;
  let maxAttempts := 200%nat in
  connectingAttempts maxAttempts rows cols symbols validate sym.

(** ** [getDiagonalWinGrid] and [getConnectingOrRandomGrid] *)

(** The loops [while (true)]: the embedding runs at most [fuel] rounds, and
    [None] stands for a call that is still looping after them (the source
    returns no [null]).  [getDiagonalWinGrid] returns the object
    [{grid: diagonal}], here the grid itself. *)
Fixpoint getDiagonalWinGrid (fuel : nat) (rows cols : Z) (symbols : option (list string))
    (validate : list (list string) → Res (Logged WinsResult)) :
    Gen (option (list (list string))) :=
  match fuel with
  | O => mret None
  | S fuel' =>
      diagonal ← generateRandomDiagonalWin rows cols symbols validate;
      match diagonal with
      | Some grid => mret (Some grid)
      | None => getDiagonalWinGrid fuel' rows cols symbols validate
      end
  end.


(** ** The calls of [SlotMachine] *)

(** [SYMBOL_TEXTURES_LIST], the symbol names handed to the helpers. *)
Definition SYMBOL_TEXTURES_LIST : list string :=
  ["symbol1.png"; "symbol2.png"; "symbol3.png"; "symbol4.png"; "symbol5.png"]%string.

(** [(grid) => GameCoreLogic.computeWins(grid)], the callback handed to the
    helpers as [validate]; the grid of the helpers has all its rows and
    cells. *)
Definition engine (grid : list (list string)) : Res (Logged WinsResult) :=
  computeWins (Some ((λ cells : list string, Some (Some <$> cells)) <$> grid)).

(** * The reels: [Reel] and the grid calls of [SlotMachine]

    A reel owns the sprites it created and keeps them in the array
    [symbols]; [initialOrderSprites] holds the same sprite objects a second
    time.  The methods move and rename the sprites in place.
    - The sprites of a reel live in a store ([heap], in the order of their
      creation); the arrays hold sprite references, that is positions in the
      store, so that a write through one array is seen through the other.
    - A position [x], a speed and a frame time [delta] are rationals.  The
      products, sums and differences of [update], which JavaScript rounds,
      are functions [mulF], [addF] and [subF] of the host about which nothing
      is assumed; [i * symbolSize], a product of two integers, is exact.
      Numbers are taken to be finite.
    - [xs.sort((a, b) => a.x - b.x)] is the stable sort by [x].
    - [AssetLoader.getTexture(name)] is the entry [textureCache[name]] of the
      host, [None] when there is none; the key [undefined] is the key
      ["undefined"], as for every property read.  The field [texture] of a
      sprite is what the reel last handed to it.
    - [console.warn] appends one line to the console of the world, its
      arguments separated by spaces.
    - The fields and calls of PIXI that only show ([container], [width],
      [height], [y], [anchor], the overlay) are left out. *)

Module Reel.

Class Host := {
  Texture : Type;
  getTexture : string → option Texture;
  (** The static [Reel.SYMBOL_TEXTURES]. *)
  SYMBOL_TEXTURES : list string;
  mulF : Q → Q → Q;
  addF : Q → Q → Q;
  subF : Q → Q → Q
}.

(** [GameConstants.SPIN_SPEED] and [GameConstants.SLOWDOWN_RATE]. *)
Definition SPIN_SPEED : Q := 50.
Definition SLOWDOWN_RATE : Q := 65 # 100.

Section WithHost.
Context `{Host}.

Record Sprite := MkSprite {
  x : Q;
  name : option string;
  texture : option Texture
}.

Record t := Mk {
  heap : list Sprite;
  symbols : list nat;
  symbolSize : Z;
  symbolCount : Z;
  speed : Q;
  isSpinning : bool;
  manualLockTextures : bool;
  initialOrderSprites : option (list nat)
}.

(** [AssetLoader.getTexture(name)] for a name that may be [undefined]. *)
Definition textureOf (name : option string) : option Texture :=
  getTexture (default "undefined"%string name).

(** [console.warn(...args)]. *)
Definition consoleWarn (args : list string) : Gen unit := λ _ w,
  Done () (MkWorld (drawn w) (console w ++ [joinWith " " args])).

(** [sprite.x], [sprite.x = v], [sprite.name = n; sprite.texture = tex] for
    the sprite [id] of the store. *)
Definition xOf (heap : list Sprite) (id : nat) : Q :=
  from_option x 0%Q (heap !! id).

Definition nameOf (heap : list Sprite) (id : nat) : option string :=
  heap !! id ≫= name.

Definition setX (v : Q) (id : nat) (heap : list Sprite) : list Sprite :=
  alter (λ s, MkSprite v (name s) (texture s)) id heap.

Definition setTexture (tex : option Texture) (n : option string) (id : nat)
    (heap : list Sprite) : list Sprite :=
  alter (λ s, MkSprite (x s) n tex) id heap.

Definition withHeap (heap : list Sprite) (reel : t) : t :=
  Mk heap (symbols reel) (symbolSize reel) (symbolCount reel) (speed reel)
     (isSpinning reel) (manualLockTextures reel) (initialOrderSprites reel).

Definition withSymbols (symbols : list nat) (reel : t) : t :=
  Mk (heap reel) symbols (symbolSize reel) (symbolCount reel) (speed reel)
     (isSpinning reel) (manualLockTextures reel) (initialOrderSprites reel).

Definition withSpeed (speed : Q) (reel : t) : t :=
  Mk (heap reel) (symbols reel) (symbolSize reel) (symbolCount reel) speed
     (isSpinning reel) (manualLockTextures reel) (initialOrderSprites reel).

(** ** The stable sort by [x] *)

(** [a] stood before every element of [sorted]: it goes before the first
    element whose [x] is not smaller. *)
Fixpoint insertByX (heap : list Sprite) (a : nat) (sorted : list nat) : list nat :=
  match sorted with
  | [] => [a]
  | b :: rest =>
      if Qle_bool (xOf heap a) (xOf heap b) then a :: sorted
      else b :: insertByX heap a rest
  end.

(** [[...sprites].sort((a, b) => a.x - b.x)]. *)
Definition sortByX (heap : list Sprite) (sprites : list nat) : list nat :=
  foldr (insertByX heap) [] sprites.

(** ** [snapToGrid] *)

(** [for (i = 0; i < order.length; i++) order[i].x = i * symbolSize]. *)
Definition align (symbolSize : Z) (order : list nat) (heap : list Sprite) : list Sprite :=
  foldl (λ heap '(i, id), setX (inject_Z (Z.of_nat i * symbolSize)) id heap)
        heap (imap pair order).

Definition snapToGrid (reel : t) : t :=
  let byDefault :=
    let sorted := sortByX (heap reel) (symbols reel) in
    withHeap (align (symbolSize reel) sorted (heap reel)) (withSymbols sorted reel) in
  if manualLockTextures reel then
    match initialOrderSprites reel with
    | Some initial =>
        if bool_decide (length initial = length (symbols reel)) then
          withHeap (align (symbolSize reel) initial (heap reel)) reel
        else byDefault
    | None => byDefault
    end
  else byDefault.

(** ** The constructor, [createSymbols] and [createRandomSymbol] *)

(** [Reel.SYMBOL_TEXTURES[Math.floor(Math.random() * Reel.SYMBOL_TEXTURES.length)]]. *)
Definition randomTextureName : Gen (option string) :=
  u ← mathRandom;
  mret (nthZ SYMBOL_TEXTURES (floorMul u (Z.of_nat (length SYMBOL_TEXTURES)))).

(** The new sprite stands at [x = 0] until [createSymbols] places it. *)
Definition createRandomSymbol : Gen Sprite :=
  textureName ← randomTextureName;
  let texture := textureOf textureName in
  mret (MkSprite 0 textureName texture).

Definition createSymbols (reel : t) : Gen t :=
  reel ← forEachG (seqZ 0 (symbolCount reel)) (λ i reel,
    sprite ← createRandomSymbol;
    let id := length (heap reel) in
    let heap := setX (inject_Z (i * symbolSize reel)) id (heap reel ++ [sprite]) in
    mret (withHeap heap (withSymbols (symbols reel ++ [id]) reel)))
    (withSymbols [] reel);
  mret (snapToGrid reel).

(** [new Reel(symbolCount, symbolSize)]. *)
Definition new (symbolCount symbolSize : Z) : Gen t :=
  createSymbols (Mk [] [] symbolSize symbolCount 0 false false None).

(** ** [update] *)

(** [Math.max(...xs)]; of no numbers it is [-Infinity], which [update] then
    never reads: the default stands for it. *)
Definition mathMax (xs : list Q) : Q :=
  match xs with
  | [] => 0%Q
  | v :: xs' => foldl (λ m v, if Qle_bool m v then v else m) v xs'
  end.

(** The body of the recycling loop: [heap] and [rightmost] after the turn of
    [sprite]. *)
Definition recycle (reel : t) (sprite : nat) (st : list Sprite * Q) :
    Gen (list Sprite * Q) :=
  let '(heap, rightmost) := st in
  if Qle_bool (addF (xOf heap sprite) (inject_Z (symbolSize reel))) (-1) then
    heap ←
      (if negb (manualLockTextures reel) then
         newName ← randomTextureName;
         mret (setTexture (textureOf newName) newName sprite heap)
       else mret heap);
    let v := addF rightmost (inject_Z (symbolSize reel)) in
    mret (setX v sprite heap, v)
  else mret (heap, rightmost).

Definition update (delta : Q) (reel : t) : Gen t :=
  if negb (isSpinning reel) && Qeq_bool (speed reel) 0 then mret reel
  else
    let dx := mulF (speed reel) (if Qeq_bool delta 0 then 1 else delta) in
    let heap :=
      foldl (λ heap sprite, setX (subF (xOf heap sprite) dx) sprite heap)
            (heap reel) (symbols reel) in
    let rightmost := mathMax (xOf heap <$> symbols reel) in
    '(heap, _) ← forEachG (symbols reel) (recycle reel) (heap, rightmost);
    let reel := withHeap heap reel in
    if negb (isSpinning reel) && negb (Qle_bool (speed reel) 0) then
      let speed := mulF (speed reel) SLOWDOWN_RATE in
      if negb (Qle_bool (1 # 2) speed) then mret (snapToGrid (withSpeed 0 reel))
      else mret (withSpeed speed reel)
    else mret reel.

(** ** [getVisibleSymbols] *)

(** The sprites in the order of their [x], as references. *)
Definition getVisibleSymbols (reel : t) : list nat :=
  sortByX (heap reel) (symbols reel).

(** ** [setColumns] *)

(** The turn of the loop for [ordered[i]] and [names[i]]; past the end of
    [names] the name is [undefined]. *)
Definition setColumn (name : option string) (sprite : nat) (heap : list Sprite) :
    Gen (list Sprite) :=
  match textureOf name with
  | Some tex => mret (setTexture (Some tex) name sprite heap)
  | None =>
      _ ← consoleWarn ["Texture not found for"; default "undefined" name];
      mret heap
  end.

(** [names] is [None] for a value that is not an array. *)
Definition setColumns (names : option (list string)) (reel : t) : Gen t :=
  match names with
  | Some names' =>
      if bool_decide (Z.of_nat (length names') ≠ symbolCount reel) then
        _ ← consoleWarn ["setColumns: invalid names length"; pretty (Z.of_nat (length names'));
                         "expected"; pretty (symbolCount reel)];
        mret reel
      else
        let ordered := sortByX (heap reel) (symbols reel) in
        heap ← forEachG (imap pair ordered) (λ '(i, sprite) heap,
                  setColumn (names' !! i) sprite heap) (heap reel);
        mret (snapToGrid (withHeap heap reel))
  | None =>
      _ ← consoleWarn ["setColumns: invalid names length"; "undefined";
                       "expected"; pretty (symbolCount reel)];
      mret reel
  end.

(** ** [startSpin], [stopSpin], [enableManualLock] *)

Definition startSpin (reel : t) : t :=
  Mk (heap reel) (symbols reel) (symbolSize reel) (symbolCount reel) SPIN_SPEED
     true (manualLockTextures reel) (initialOrderSprites reel).

Definition stopSpin (reel : t) : t :=
  Mk (heap reel) (symbols reel) (symbolSize reel) (symbolCount reel) (speed reel)
     false (manualLockTextures reel) (initialOrderSprites reel).

Definition enableManualLock (lock : bool) (reel : t) : t :=
  Mk (heap reel) (symbols reel) (symbolSize reel) (symbolCount reel) (speed reel)
     (isSpinning reel) lock
     (if lock then Some (sortByX (heap reel) (symbols reel)) else None).

End WithHost.
End Reel.

(** ** [SlotMachine]: the grid read from the reels and written to them *)

Module SlotMachine.
Section WithHost.
Context `{Reel.Host}.

(** [GameConstants.SYMBOL_SIZE]. *)
Definition SYMBOL_SIZE : Z := 150.

(** [GameConstants.REEL_HEIGHT] and [GameConstants.REEL_SPACING]. *)
Definition REEL_HEIGHT : Z := SYMBOL_SIZE.
Definition REEL_SPACING : Z := 10.


(** The sprites [r.getVisibleSymbols()] returns, as they are when
    [buildGridFromReels] reads them. *)
Definition visibleSprites (reel : Reel.t) : list Reel.Sprite :=
  omap (λ sprite, Reel.heap reel !! sprite) (Reel.getVisibleSymbols reel).

Definition buildGridFromReels (reels : list Reel.t) : Res (list (list Cell)) :=
  let ordered := visibleSprites <$> reels in
  forEach (seqZ 0 REEL_COUNT) (λ r grid,
    row ← forEach (seqZ 0 SYMBOLS_PER_REEL) (λ c row,
             match nthZ ordered r with
             | Some sprites => Ok (row ++ [nthZ sprites c ≫= Reel.name])
             | None => Throw TypeError
             end) [];
    Ok (grid ++ [row])) [].

(** What [drawWinPaths] asks of the overlay, call by call.  The halves
    [SYMBOL_SIZE / 2] and [REEL_HEIGHT / 2] are whole numbers. *)
Inductive Draw :=
| LineStyle
| MoveTo (x y : Z)
| LineTo (x y : Z).

Definition drawWinPaths (paths : list Path) : list Draw :=
  LineStyle ::
  mjoin ((λ path : Path,
            match path with
            | [] => []
            | first :: rest =>
                let startX := col first * SYMBOL_SIZE + SYMBOL_SIZE / 2 in
                let startY := row first * (REEL_HEIGHT + REEL_SPACING) + REEL_HEIGHT / 2 in
                MoveTo startX startY ::
                ((λ pt, let x := col pt * SYMBOL_SIZE + SYMBOL_SIZE / 2 in
                        let y := row pt * (REEL_HEIGHT + REEL_SPACING) + REEL_HEIGHT / 2 in
                        LineTo x y) <$> rest)
            end) <$> paths).

(** [!row || row.length !== SYMBOLS_PER_REEL]. *)
Definition invalidColumns (row : option (option (list string))) : bool :=
  match row with
  | Some (Some row) => bool_decide (Z.of_nat (length row) ≠ SYMBOLS_PER_REEL)
  | _ => true
  end.

(** The first row that the loop of the safety checks rejects. *)
Definition invalidRow (grid : list (option (list string))) : option Z :=
  find (λ r, invalidColumns (nthZ grid r)) (seqZ 0 REEL_COUNT).

(** [row?.length] as [console.warn] prints it. *)
Definition lengthText (row : option (option (list string))) : string :=
  match row with
  | Some (Some row) => pretty (Z.of_nat (length row))
  | _ => "undefined"
  end.

(** A row of [grid] is [None] when it is missing.  A reel that is missing
    makes the call throw; the reels set before stay set, which the outcome
    [Raise] does not show. *)
Definition applyGrid (grid : list (option (list string))) (reels : list Reel.t) :
    Gen (list Reel.t) :=
  if bool_decide (Z.of_nat (length grid) ≠ REEL_COUNT) then
    _ ← Reel.consoleWarn ["applyGrid: invalid row count"; pretty (Z.of_nat (length grid))];
    mret reels
  else
    match invalidRow grid with
    | Some r =>
        _ ← Reel.consoleWarn ["applyGrid: invalid columns at row"; pretty r;
                              lengthText (nthZ grid r)];
        mret reels
    | None =>
        forEachG (seqZ 0 REEL_COUNT) (λ r reels,
          match nthZ reels r with
          | Some reel =>
              reel ← Reel.setColumns (mjoin (nthZ grid r)) reel;
              mret (<[Z.to_nat r := reel]> reels)
          | None => raise (Native TypeError)
          end) reels
    end.


(** The end of [stopSpin], in the callback of the last reel: the lock is
    taken off, the grid is read from the reels and checked. *)
Definition stopSpinCheck (manualSpinActive : bool) (reels : list Reel.t) :
    Res (list Reel.t * Logged CheckWinResult) :=
  let reels :=
    if manualSpinActive then Reel.enableManualLock false <$> reels else reels in
  grid ← buildGridFromReels reels;
  result ← checkWin (Some ((λ row, Some row) <$> grid));
  Ok (reels, result).

End WithHost.
End SlotMachine.

(** * The sounds: [Sound]

    The module keeps a [Map] from alias to [Howl] and hands every request to
    the library [howler].
    - A [Howl] is known by the number of its creation, counted from 0.
    - The state holds, beside the registry, the library calls made so far,
      each with the mark whether it threw, and the lines of the console.
    - Whether a library call throws is the host's to say: [throws made c]
      for the call [c] after the calls [made]; nothing is assumed about it.
    - A line written with [console.error] is its message; the error value
      that the console prints after it is left out. *)

Module Sound.

Inductive LibCall :=
| NewHowl (url : string)
| Unload (howl : nat)
| Play (howl : nat)
| Stop (howl : nat)
| Loop (howl : nat) (value : bool).

Record State := Mk {
  registry : gmap string nat;
  made : list (LibCall * bool);
  console : list string
}.

(** The module as it is loaded: [new Map()]. *)
Definition initial : State := Mk ∅ [] [].

(** The call has created a [Howl]. *)
Definition created (e : LibCall * bool) : bool :=
  match e with
  | (NewHowl _, false) => true
  | _ => false
  end.

(** The number of [Howl]s the calls have created. *)
Definition howls (made : list (LibCall * bool)) : nat :=
  length (List.filter created made).

Section WithHost.
Context (throws : list (LibCall * bool) → LibCall → bool).

(** A call of the library: whether it threw, and the state after it. *)
Definition lib (c : LibCall) (s : State) : bool * State :=
  let threw := throws (made s) c in
  (threw, Mk (registry s) (made s ++ [(c, threw)]) (console s)).

Definition log (line : string) (s : State) : State :=
  Mk (registry s) (made s) (console s ++ [line]).

(** [new Howl({src: [url]})] and [registry.set(alias, howl)], inside the
    [try] of [add]. *)
Definition construct (alias url : string) (s : State) : State :=
  let howl := howls (made s) in
  let '(threw, s) := lib (NewHowl url) s in
  if threw : bool then
    log ("Failed to add sound '" +:+ alias +:+ "' from " +:+ url +:+ ":") s
  else Mk (<[alias := howl]> (registry s)) (made s) (console s).

Definition add (alias url : string) (s : State) : State :=
  match registry s !! alias with
  | Some existing =>
      let '(threw, s) := lib (Unload existing) s in
      if threw : bool then
        log ("Failed to add sound '" +:+ alias +:+ "' from " +:+ url +:+ ":") s
      else construct alias url s
  | None => construct alias url s
  end.

Definition play (alias : string) (s : State) : State :=
  match registry s !! alias with
  | None => log ("Sound alias not found: " +:+ alias) s
  | Some howl =>
      let '(threw, s) := lib (Play howl) s in
      if threw : bool then log ("Failed to play sound '" +:+ alias +:+ "':") s else s
  end.

Definition stop (alias : string) (s : State) : State :=
  match registry s !! alias with
  | None => s
  | Some howl =>
      let '(threw, s) := lib (Stop howl) s in
      if threw : bool then log ("Failed to stop sound '" +:+ alias +:+ "':") s else s
  end.

Definition loop (alias : string) (value : bool) (s : State) : State :=
  match registry s !! alias with
  | None => s
  | Some howl =>
      let '(threw, s) := lib (Loop howl value) s in
      if threw : bool then log ("Failed to set loop on sound '" +:+ alias +:+ "':") s else s
  end.

End WithHost.
End Sound.

(** * Vocabulary of the specification *)

(** The grid is malformed: it is missing, its row count is not
    [REEL_COUNT], or one of its rows is missing or has a length other than
    [SYMBOLS_PER_REEL]. *)
Definition malformed (grid : Grid) : Prop :=
  match grid with
  | None => True
  | Some rows =>
      Z.of_nat (length rows) ≠ REEL_COUNT
      ∨ ∃ r, r ∈ rows ∧
             match r with
             | None => True
             | Some cells => Z.of_nat (length cells) ≠ SYMBOLS_PER_REEL
             end
  end.

(** The cell at [p] holds the symbol [s]. *)
Definition holds (grid : Grid) (s : string) (p : GridCoord) : Prop :=
  cellAt grid (row p) (col p) = Ok (Some s).

#[global] Instance holds_dec grid s p : Decision (holds grid s p).
Proof. unfold holds. apply _. Defined.

(** All cells of [path] hold one shared non-empty symbol. *)
Definition sharedSymbol (grid : Grid) (path : Path) : Prop :=
  ∃ s : string, s ≠ "" ∧ ∀ p, p ∈ path → holds grid s p.

(** The cells of row [r], left to right. *)
Definition rowPath (r : Z) : Path :=
  [Coord r 0; Coord r 1; Coord r 2; Coord r 3; Coord r 4; Coord r 5].

(** The cells of column [c], top to bottom. *)
Definition colPath (c : Z) : Path :=
  [Coord 0 c; Coord 1 c; Coord 2 c; Coord 3 c].

(** The full-height run of slope +1 that starts in column [c0]. *)
Definition diagRight (c0 : Z) : Path :=
  [Coord 0 c0; Coord 1 (c0 + 1); Coord 2 (c0 + 2); Coord 3 (c0 + 3)].

(** The full-height run of slope -1 that starts in column [c0]. *)
Definition diagLeft (c0 : Z) : Path :=
  [Coord 0 c0; Coord 1 (c0 - 1); Coord 2 (c0 - 2); Coord 3 (c0 - 3)].

(** The key of a coordinate in the visited set. *)
Definition keyOf (p : GridCoord) : string := coordKey (row p) (col p).

(** The neighbour of [x] in direction [dc]. *)
Definition below (x : GridCoord) (dc : Z) : GridCoord := Coord (row x + 1) (col x + dc).

(** One step of a connecting path: one row down, the column changes by
    -1, 0 or +1. *)
Definition stepDown (a b : GridCoord) : Prop :=
  row b = row a + 1
  ∧ (col b - col a = -1 ∨ col b - col a = 0 ∨ col b - col a = 1).

(** Each step of [p] goes one row down and changes the column by -1, 0
    or +1. *)
Fixpoint stepsDown (p : Path) : Prop :=
  match p with
  | a :: (b :: _) as rest => stepDown a b ∧ stepsDown rest
  | _ => True
  end.

(** [p] starts in row 0, ends in the bottom row, steps down, stays inside
    the columns [0 .. SYMBOLS_PER_REEL - 1], and its cells hold one shared
    non-empty symbol. *)
Definition connectingPath (grid : Grid) (p : Path) : Prop :=
  ∃ a b, head p = Some a ∧ last p = Some b
    ∧ row a = 0 ∧ row b = REEL_COUNT - 1
    ∧ stepsDown p
    ∧ (∀ q, q ∈ p → 0 ≤ col q ≤ SYMBOLS_PER_REEL - 1)
    ∧ sharedSymbol grid p.

(** Every consecutive pair of [p] changes the column by [d]. *)
Fixpoint stepsBy (d : Z) (p : Path) : Prop :=
  match p with
  | a :: (b :: _) as rest => col b - col a = d ∧ stepsBy d rest
  | _ => True
  end.

(** The column delta is one constant over all consecutive pairs. *)
Definition constantDelta (p : Path) : Prop := ∃ d, stepsBy d p.

(** No coordinate of the path is negative. *)
Definition nonneg (path : Path) : Prop := Forall (λ p, 0 ≤ row p ∧ 0 ≤ col p) path.

(** Two paths visit the same set of coordinates. *)
Definition sameCoords (p q : Path) : Prop := ∀ x, x ∈ p ↔ x ∈ q.

#[global] Instance sameCoords_dec p q : Decision (sameCoords p q).
Proof.
  refine (cast_if (decide (p ⊆ q ∧ q ⊆ p))); abstract (unfold sameCoords; set_solver).
Defined.

(** No path of [l1] has the coordinate set of a path of [l2]. *)
Definition disjointByCoords (l1 l2 : list Path) : Prop :=
  ∀ p q, p ∈ l1 → q ∈ l2 → ¬ sameCoords p q.

(** No two entries of [l] have the same coordinate set. *)
Definition distinctByCoords (l : list Path) : Prop :=
  ∀ i j p q, l !! i = Some p → l !! j = Some q → sameCoords p q → i = j.

(** [dedupe] keeps a path exactly when no earlier path of the list has its
    coordinate set, and keeps the order. *)
Definition keepsFirstOccurrence (dedupe : list Path → list Path) : Prop :=
  dedupe [] = []
  ∧ ∀ paths p,
      (∀ q, q ∈ paths ++ [p] → nonneg q ∧ NoDup q) →
      dedupe (paths ++ [p])
      = if decide (Exists (sameCoords p) paths) then dedupe paths
        else dedupe paths ++ [p].

(** ** Example grids *)

(** A grid whose rows are all present and whose cells all hold a symbol. *)
Definition gridOf (rows : list (list string)) : Grid :=
  Some ((λ cells : list string, Some (Some <$> cells)) <$> rows).

Open Scope string_scope.

Definition rowWinGrid : Grid := gridOf
  [["A"; "A"; "A"; "A"; "A"; "A"];
   ["B"; "C"; "D"; "E"; "A"; "B"];
   ["B"; "C"; "D"; "E"; "B"; "C"];
   ["B"; "C"; "D"; "E"; "A"; "B"]].

Definition columnWinGrid : Grid := gridOf
  [["X"; "A"; "B"; "C"; "C"; "B"];
   ["X"; "C"; "D"; "A"; "E"; "F"];
   ["X"; "E"; "F"; "D"; "F"; "E"];
   ["X"; "G"; "H"; "E"; "A"; "A"]].

Definition diagonalWinGrid : Grid := gridOf
  [["Q"; "W"; "E"; "R"; "A"; "B"];
   ["A"; "Q"; "S"; "D"; "E"; "F"];
   ["Z"; "X"; "Q"; "V"; "C"; "D"];
   ["Z"; "X"; "F"; "Q"; "C"; "D"]].

Definition zigzagGrid : Grid := gridOf
  [["A"; "Z"; "A"; "A"; "E"; "G"];
   ["B"; "A"; "Z"; "B"; "F"; "F"];
   ["C"; "Z"; "A"; "D"; "C"; "E"];
   ["A"; "A"; "Z"; "E"; "B"; "D"]].

Definition twoRowsGrid : Grid := gridOf
  [["A"; "A"; "A"; "A"; "A"; "A"];
   ["B"; "B"; "B"; "B"; "B"; "B"];
   ["C"; "D"; "E"; "A"; "C"; "G"];
   ["A"; "B"; "F"; "E"; "C"; "G"]].

(** The second grid of the adjacency test: column 1 holds "Z" throughout. *)
Definition straightZGrid : Grid := gridOf
  [["A"; "Z"; "A"; "A"; "E"; "G"];
   ["B"; "Z"; "E"; "B"; "F"; "F"];
   ["C"; "Z"; "A"; "D"; "C"; "E"];
   ["A"; "Z"; "F"; "E"; "B"; "D"]].

(** Three rows only: two short ones and a missing one between them. *)
Definition raggedGrid : Grid :=
  Some [Some [Some "A"; None]; None; Some [Some "B"]].

(** Two ways from [(0,0)] to [(3,0)], one straight down and one through
    [(1,1)]. *)
Definition forkGrid : Grid := gridOf
  [["A"; "B"; "B"; "B"; "B"; "B"];
   ["A"; "A"; "C"; "C"; "C"; "C"];
   ["A"; "C"; "C"; "C"; "C"; "C"];
   ["A"; "C"; "C"; "C"; "C"; "C"]].

Close Scope string_scope.

(** ** Vocabulary of the forced wins *)

(** A sequence that repeats the numbers of [l]. *)
Definition cycle (l : list Q) : nat → Q := λ k, nth (k mod length l) l 0%Q.

(** Every number of the sequence lies in [0, 1), as [Math.random] promises. *)
Definition unitInterval (rnd : nat → Q) : Prop := ∀ k, (0 <= rnd k < 1)%Q.

(** The grid has [rows] rows of [cols] cells. *)
Definition rect (rows cols : Z) (g : list (list string)) : Prop :=
  Z.of_nat (length g) = rows ∧ Forall (λ cells, Z.of_nat (length cells) = cols) g.

(** The cell in row [r] and column [c], if the grid has one. *)
Definition cellOf (g : list (list string)) (r c : Z) : option string :=
  cells ← nthZ g r; nthZ cells c.

(** The symbols [makeRandomGrid] draws from. *)
Definition poolOf (symbols : list string) (excludeSymbol : option string) : list string :=
  if truthy excludeSymbol then filter (λ n, Some n ≠ excludeSymbol) symbols else symbols.

(** The world after [n] more calls of [Math.random]. *)
Definition after (n : nat) (w : World) : World := MkWorld (drawn w + n) (console w).


(** [validate] returns on every [rows] x [cols] grid. *)
Definition returns (rows cols : Z)
    (validate : list (list string) → Res (Logged WinsResult)) : Prop :=
  ∀ g, rect rows cols g → ∃ log wins, validate g = Ok (log, wins).

(** [validate] logs nothing on a [rows] x [cols] grid. *)
Definition quiet (rows cols : Z)
    (validate : list (list string) → Res (Logged WinsResult)) : Prop :=
  ∀ g log wins, rect rows cols g → validate g = Ok (log, wins) → log = [].

(** [g] is a [rows] x [cols] grid of symbols of the list in which the cells
    of [path] hold [sym] and, if [sym] is not the empty string, no other
    cell does. *)
Definition forcedPath (rows cols : Z) (symbols : list string) (sym : string)
    (path : Path) (g : list (list string)) : Prop :=
  rect rows cols g
  ∧ (∀ r c s, cellOf g r c = Some s → s ∈ symbols)
  ∧ ∀ r c, 0 ≤ r < rows → 0 ≤ c < cols →
      (Coord r c ∈ path → cellOf g r c = Some sym)
      ∧ (sym ≠ "" → cellOf g r c = Some sym → Coord r c ∈ path).

(** The path that visits column [C r] in row [r]. *)
Definition pathOf (rows : Z) (C : Z → Z) : Path := (λ r, Coord r (C r)) <$> seqZ 0 rows.

(** The columns of a path that starts in column [c] and takes [steps]. *)
Fixpoint colsFrom (c : Z) (steps : list Z) : list Z :=
  c :: match steps with
       | [] => []
       | dc :: steps' => colsFrom (c + dc) steps'
       end.

(** The column of the painted path in row [r]. *)
Definition columnAt (colsPath : list Z) (r : Z) : Z := default 0 (nthZ colsPath r).

(** The steps are not all 0, not all +1 and not all -1. *)
Definition bends (steps : list Z) : Prop :=
  forallb (λ s, bool_decide (s = 0)) steps
  || forallb (λ s, bool_decide (s = 1)) steps
  || forallb (λ s, bool_decide (s = -1)) steps = false.

(** ** Example inputs of the helpers *)

Definition numbersA : nat → Q :=
  cycle [1#3; 7#10; 1#10; 9#10; 1#2; 3#10; 4#5; 1#7; 5#7; 2#3; 0; 99#100; 3#7]%Q.


Definition world0 : World := MkWorld 0 [].

(** ** Renamed grids *)

(** The cells in which every symbol [s] is replaced by [f s]. *)
Definition relabelCells (f : string → string) (cells : list Cell) : list Cell :=
  (λ cell : Cell, f <$> cell) <$> cells.

(** The grid in which every symbol [s] is replaced by [f s]. *)
Definition relabel (f : string → string) (grid : Grid) : Grid :=
  (λ rows : list (option (list Cell)),
     (λ r : option (list Cell), relabelCells f <$> r) <$> rows) <$> grid.

(** An example renaming: every non-empty name gets the prefix [w]. *)
Definition prefixed (s : string) : string :=
  match s with
  | EmptyString => EmptyString
  | String a s' => String "w" (String a s')
  end.

(** ** Vocabulary of the reels *)

Section ReelVocabulary.
Context `{Reel.Host}.

(** The reel is as the constructor leaves it and as every method keeps it:
    [symbols] holds [symbolCount] different sprites of the store. *)
Definition wellFormed (reel : Reel.t) : Prop :=
  NoDup (Reel.symbols reel)
  ∧ Forall (λ id, (id < length (Reel.heap reel))%nat) (Reel.symbols reel)
  ∧ Z.of_nat (length (Reel.symbols reel)) = Reel.symbolCount reel.

(** The names of the sprites from left to right. *)
Definition visibleNames (reel : Reel.t) : list (option string) :=
  Reel.nameOf (Reel.heap reel) <$> Reel.getVisibleSymbols reel.

(** The sprites stand on the grid: the [i]-th from the left at
    [i * symbolSize]. *)
Definition aligned (reel : Reel.t) : Prop :=
  ∀ (i : nat) id, Reel.getVisibleSymbols reel !! i = Some id →
    Reel.xOf (Reel.heap reel) id = inject_Z (Z.of_nat i * Reel.symbolSize reel).

(** [a] stands at or left of [b]. *)
Definition leX (heap : list Reel.Sprite) (a b : nat) : Prop :=
  (Reel.xOf heap a <= Reel.xOf heap b)%Q.

(** The name a sprite shows after [setColumns] has offered it [n]: the old
    one if [n] has no texture. *)
Definition offered (old : option string) (n : string) : option string :=
  match Reel.getTexture n with
  | Some _ => Some n
  | None => old
  end.

(** The lines [setColumns] logs for the names that have no texture. *)
Definition textureWarnings (names : list string) : list string :=
  omap (λ n, match Reel.getTexture n with
             | Some _ => None
             | None => Some ("Texture not found for " +:+ n)
             end) names.

(** The name [createRandomSymbol] gives a sprite when [Math.random]
    returns [u]. *)
Definition drawnName (u : Q) : option string :=
  nthZ Reel.SYMBOL_TEXTURES (floorMul u (Z.of_nat (length Reel.SYMBOL_TEXTURES))).


(** [reel'] is [reel] after [setColumns(names)] went through: the sprites
    stand on the grid and show from left to right the names offered, and
    nothing else of the reel has changed. *)
Definition columnsSet (reel : Reel.t) (names : list string) (reel' : Reel.t) : Prop :=
  wellFormed reel' ∧ aligned reel'
  ∧ visibleNames reel' = zip_with offered (visibleNames reel) names
  ∧ Reel.symbolSize reel' = Reel.symbolSize reel
  ∧ Reel.symbolCount reel' = Reel.symbolCount reel
  ∧ Reel.speed reel' = Reel.speed reel
  ∧ Reel.isSpinning reel' = Reel.isSpinning reel
  ∧ Reel.manualLockTextures reel' = Reel.manualLockTextures reel
  ∧ Reel.initialOrderSprites reel' = Reel.initialOrderSprites reel.

(** The row [buildGridFromReels] reads from a reel. *)
Definition readRow (reel : Reel.t) : list Cell :=
  (λ c, nthZ (SlotMachine.visibleSprites reel) c ≫= Reel.name) <$> seqZ 0 SYMBOLS_PER_REEL.

(** The grid has [REEL_COUNT] rows of [SYMBOLS_PER_REEL] names, none
    missing. *)
Definition gridFits (grid : list (option (list string))) : Prop :=
  ∃ rows, grid = Some <$> rows ∧ rect REEL_COUNT SYMBOLS_PER_REEL rows.

(** A reel of the machine between two spins. *)
Definition ready (reel : Reel.t) : Prop :=
  wellFormed reel
  ∧ Reel.symbolCount reel = SYMBOLS_PER_REEL
  ∧ 0 < Reel.symbolSize reel
  ∧ Reel.manualLockTextures reel = false
  ∧ (Reel.isSpinning reel = true → ¬ (Reel.speed reel == 0)%Q).

(** Every name of the list has a texture. *)
Definition textured (names : list string) : Prop :=
  Forall (λ n, is_Some (Reel.getTexture n)) names.

(** The rows of names as [buildGridFromReels] returns them. *)
Definition cellsOf (rows : list (list string)) : list (list Cell) :=
  (λ ns : list string, Some <$> ns) <$> rows.


(** What [SlotMachine] does with a reel between two grids: the three calls
    in any order and number, with any frame times. *)
Inductive Action :=
| StartSpin
| StopSpin
| Update (delta : Q).

Definition act (a : Action) (reel : Reel.t) : Gen Reel.t :=
  match a with
  | StartSpin => mret (Reel.startSpin reel)
  | StopSpin => mret (Reel.stopSpin reel)
  | Update delta => Reel.update delta reel
  end.


(** The state every call of the class keeps: the reel is well formed with a
    positive size, a locked reel holds an order of its own sprites, a
    spinning reel has a speed, and a reel of speed 0 stands on the grid. *)
Definition coherent (reel : Reel.t) : Prop :=
  wellFormed reel
  ∧ 0 < Reel.symbolSize reel
  ∧ (Reel.manualLockTextures reel = true →
     ∃ initial, Reel.initialOrderSprites reel = Some initial
                ∧ initial ≡ₚ Reel.symbols reel)
  ∧ (Reel.isSpinning reel = true → ¬ (Reel.speed reel == 0)%Q)
  ∧ ((Reel.speed reel == 0)%Q → aligned reel).

(** The calls of the public methods that change a reel. *)
Inductive Call :=
| Spinning (a : Action)
| Lock (lock : bool)
| Columns (names : option (list string)).

Definition invoke (c : Call) (reel : Reel.t) : Gen Reel.t :=
  match c with
  | Spinning a => act a reel
  | Lock lock => mret (Reel.enableManualLock lock reel)
  | Columns names => Reel.setColumns names reel
  end.

Definition invokes (calls : list Call) (reel : Reel.t) : Gen Reel.t :=
  forEachG calls invoke reel.




End ReelVocabulary.

(** The pixel at the centre of the cell in row [r] and column [c]. *)
Definition centre (r c : Z) : Z * Z := (c * 150 + 75, r * 160 + 75).

(** The point a drawing call goes to. *)
Definition target (d : SlotMachine.Draw) : option (Z * Z) :=
  match d with
  | SlotMachine.LineStyle => None
  | SlotMachine.MoveTo x y => Some (x, y)
  | SlotMachine.LineTo x y => Some (x, y)
  end.

Definition isMoveTo (d : SlotMachine.Draw) : bool :=
  match d with
  | SlotMachine.MoveTo _ _ => true
  | _ => false
  end.

(** The calls [drawWinPaths] makes for one path. *)
Definition polyline (path : Path) : list SlotMachine.Draw :=
  match path with
  | [] => []
  | first :: rest =>
      SlotMachine.MoveTo (col first * 150 + 75) (row first * 160 + 75) ::
      ((λ pt, SlotMachine.LineTo (col pt * 150 + 75) (row pt * 160 + 75)) <$> rest)
  end.

(** ** Example host of the reels *)

(** The images [AssetLoader] loads. *)
Definition IMAGES : list string :=
  ["symbol1.png"; "symbol2.png"; "symbol3.png"; "symbol4.png"; "symbol5.png";
   "background.png"; "button_spin.png"; "button_spin_disabled.png"]%string.

(** A host that has the textures of [IMAGES] and computes exactly. *)
Definition exactHost : Reel.Host := {|
  Reel.Texture := string;
  Reel.getTexture := λ n, if bool_decide (n ∈ IMAGES) then Some n else None;
  Reel.SYMBOL_TEXTURES := SYMBOL_TEXTURES_LIST;
  Reel.mulF := Qmult;
  Reel.addF := Qplus;
  Reel.subF := Qminus
|}.

(** A reel of the machine at rest that shows [symbol1.png] six times. *)
Definition plainReel : @Reel.t exactHost :=
  @Reel.Mk exactHost
    ((λ i, @Reel.MkSprite exactHost (inject_Z (i * 150)) (Some "symbol1.png"%string)
             (Some "symbol1.png"%string)) <$> seqZ 0 6)
    (seq 0 6) 150 6 0 false false None.

Definition exampleRow : list string :=
  ["symbol2.png"; "symbol3.png"; "symbol2.png"; "symbol5.png"; "symbol4.png";
   "symbol1.png"]%string.

(** A grid whose second row is a win. *)
Definition exampleRows : list (list string) :=
  [exampleRow; replicate 6 "symbol4.png"%string; exampleRow; exampleRow].


(** Calls of every kind, also with names that [setColumns] refuses. *)
Definition exampleCalls : list Call :=
  [Spinning StartSpin; Spinning (Update 1); Columns (Some exampleRow); Lock true;
   Spinning (Update (7 # 3)); Columns None; Spinning StopSpin; Spinning (Update 1);
   Columns (Some ["symbol1.png"%string]); Lock false; Spinning (Update 0)].

(** ** Vocabulary of the sounds *)

(** A request to the module. *)
Inductive SoundOp :=
| DoAdd (alias url : string)
| DoPlay (alias : string)
| DoStop (alias : string)
| DoLoop (alias : string) (value : bool).

Definition perform (throws : list (Sound.LibCall * bool) → Sound.LibCall → bool)
    (op : SoundOp) (s : Sound.State) : Sound.State :=
  match op with
  | DoAdd alias url => Sound.add throws alias url s
  | DoPlay alias => Sound.play throws alias s
  | DoStop alias => Sound.stop throws alias s
  | DoLoop alias value => Sound.loop throws alias value s
  end.

(** The state after the requests [ops], in their order. *)
Definition performAll (throws : list (Sound.LibCall * bool) → Sound.LibCall → bool)
    (ops : list SoundOp) (s : Sound.State) : Sound.State :=
  foldl (λ s op, perform throws op s) s ops.

(** The [Howl] a library call is made on. *)
Definition howlOf (c : Sound.LibCall) : option nat :=
  match c with
  | Sound.NewHowl _ => None
  | Sound.Unload h | Sound.Play h | Sound.Stop h | Sound.Loop h _ => Some h
  end.

(** Some alias stands for the [Howl]. *)
Definition registered (s : Sound.State) (h : nat) : Prop :=
  ∃ alias, Sound.registry s !! alias = Some h.

(** The [Howl] has been unloaded: an [unload] on it has returned. *)
Definition unloaded (made : list (Sound.LibCall * bool)) (h : nat) : Prop :=
  (Sound.Unload h, false) ∈ made.

(** A call of the constructor has thrown. *)
Definition constructorThrew (made : list (Sound.LibCall * bool)) : Prop :=
  ∃ url, (Sound.NewHowl url, true) ∈ made.

(** A [Howl] was called after it had been unloaded. *)
Definition usedAfterUnload (made : list (Sound.LibCall * bool)) : Prop :=
  ∃ (i j : nat) h c threw,
    (i < j)%nat ∧ made !! i = Some (Sound.Unload h, false)
    ∧ made !! j = Some (c, threw) ∧ howlOf c = Some h.

(** The facts about the registry and the calls that every request keeps. *)
Definition tracked (registry : gmap string nat) (made : list (Sound.LibCall * bool)) : Prop :=
  (∀ alias h, registry !! alias = Some h → (h < Sound.howls made)%nat)
  ∧ (∀ a a' h, registry !! a = Some h → registry !! a' = Some h → a = a')
  ∧ (∀ h, (h < Sound.howls made)%nat → (∃ alias, registry !! alias = Some h) ∨ unloaded made h)
  ∧ (∀ c threw h, (c, threw) ∈ made → howlOf c = Some h → (h < Sound.howls made)%nat)
  ∧ (¬ constructorThrew made →
     (∀ alias h, registry !! alias = Some h → ¬ unloaded made h)
     ∧ ¬ usedAfterUnload made).

(** A successful [unload] of the [Howl] of [alias]: what is left to keep
    until the constructor has run. *)
Definition unloading (alias : string) (registry : gmap string nat)
    (made : list (Sound.LibCall * bool)) : Prop :=
  (∀ a h, registry !! a = Some h → (h < Sound.howls made)%nat)
  ∧ (∀ a a' h, registry !! a = Some h → registry !! a' = Some h → a = a')
  ∧ (∀ h, (h < Sound.howls made)%nat → (∃ a, registry !! a = Some h) ∨ unloaded made h)
  ∧ (∀ c threw h, (c, threw) ∈ made → howlOf c = Some h → (h < Sound.howls made)%nat)
  ∧ (∀ h, registry !! alias = Some h → unloaded made h)
  ∧ (¬ constructorThrew made →
     (∀ a h, a ≠ alias → registry !! a = Some h → ¬ unloaded made h)
     ∧ ¬ usedAfterUnload made).

(** A library call of [add(alias, url)] in the state [s] throws. *)
Definition addThrows (throws : list (Sound.LibCall * bool) → Sound.LibCall → bool)
    (alias url : string) (s : Sound.State) : bool :=
  match Sound.registry s !! alias with
  | Some existing =>
      throws (Sound.made s) (Sound.Unload existing)
      || throws (Sound.made s ++ [(Sound.Unload existing, false)]) (Sound.NewHowl url)
  | None => throws (Sound.made s) (Sound.NewHowl url)
  end.

(** ** Example host of the sounds *)

(** The library throws in every constructor call but the first. *)
Definition secondConstructorThrows (made : list (Sound.LibCall * bool))
    (c : Sound.LibCall) : bool :=
  match c with
  | Sound.NewHowl _ => bool_decide (made ≠ [])
  | _ => false
  end.

(** A library that never throws. *)
Definition neverThrows (made : list (Sound.LibCall * bool)) (c : Sound.LibCall) : bool :=
  false.

(** * Lemmas *)

(** [each_elem H tac]: [H : x ∈ [a; b; ...]] is split into its cases, each
    closed by [tac]. *)
Ltac each_elem H tac :=
  repeat (apply elem_of_cons in H as [->|H]; [tac|]);
  by apply elem_of_nil in H.

(** ** Shape of the grid *)

Lemma isValidGrid_true grid :
  isValidGrid grid = true ↔
  ∃ rows, grid = Some rows ∧ Z.of_nat (length rows) = REEL_COUNT ∧
    ∀ r, r ∈ rows → ∃ cells, r = Some cells ∧ Z.of_nat (length cells) = SYMBOLS_PER_REEL.
Proof.
  unfold isValidGrid. destruct grid as [rows|]; [|naive_solver].
  case_bool_decide as Hlen.
  - split; [done|]. intros (? & [= <-] & ? & _). done.
  - rewrite forallb_forall. split.
    + intros Hall. exists rows. split_and!; [done..|].
      intros r Hr%list_elem_of_In. specialize (Hall r Hr).
      destruct r as [cells|]; [|done]. exists cells. split; [done|].
      apply negb_true_iff, bool_decide_eq_false in Hall. by apply dec_stable.
    + intros (? & [= <-] & _ & Hall) r Hr%list_elem_of_In.
      destruct (Hall r Hr) as (cells & -> & Hc).
      apply negb_true_iff, bool_decide_eq_false. lia.
Qed.

Lemma forallb_false {A} (f : A → bool) (l : list A) :
  forallb f l = false ↔ ∃ x, x ∈ l ∧ f x = false.
Proof.
  induction l as [|a l IH]; simpl.
  - split; [done|]. intros (x & Hx & _). by apply elem_of_nil in Hx.
  - rewrite andb_false_iff, IH. split.
    + intros [Ha|(x & Hx & Hf)]; [exists a|exists x]; split; try done; by constructor.
    + intros (x & [->|Hx]%elem_of_cons & Hf); [by left|right; eauto].
Qed.

Lemma isValidGrid_false grid : isValidGrid grid = false ↔ malformed grid.
Proof.
  unfold isValidGrid, malformed. destruct grid as [rows|]; [|done].
  case_bool_decide as Hlen; [naive_solver|].
  rewrite forallb_false. split.
  - intros (r & Hr & Hf). right. exists r. split; [done|].
    destruct r as [cells|]; [|done].
    by apply negb_false_iff, bool_decide_eq_true in Hf.
  - intros [?|(r & Hr & Hf)]; [done|]. exists r. split; [done|].
    destruct r as [cells|]; [|done].
    by apply negb_false_iff, bool_decide_eq_true.
Qed.

Lemma valid_cellAt grid (r c : Z) :
  isValidGrid grid = true → 0 ≤ r < REEL_COUNT → 0 ≤ c < SYMBOLS_PER_REEL →
  ∃ cell, cellAt grid r c = Ok cell.
Proof.
  intros (rows & -> & Hlen & Hall)%isValidGrid_true Hr Hc.
  destruct (lookup_lt_is_Some_2 rows (Z.to_nat r)) as [x Hx]; [lia|].
  destruct (Hall x) as (cells & -> & Hclen); [by eapply list_elem_of_lookup_2|].
  destruct (lookup_lt_is_Some_2 cells (Z.to_nat c)) as [cell Hcell]; [lia|].
  exists cell. apply cellAt_Ok. exists rows, cells. split_and!; [done|lia|done|lia|done].
Qed.

Lemma valid_rowAt grid (r : Z) :
  isValidGrid grid = true → 0 ≤ r < REEL_COUNT →
  ∃ cells, rowAt grid r = Ok cells ∧ Z.of_nat (length cells) = SYMBOLS_PER_REEL.
Proof.
  intros (rows & -> & Hlen & Hall)%isValidGrid_true Hr.
  destruct (lookup_lt_is_Some_2 rows (Z.to_nat r)) as [x Hx]; [lia|].
  destruct (Hall x) as (cells & -> & Hclen); [by eapply list_elem_of_lookup_2|].
  exists cells. split; [|done]. apply rowAt_Ok. exists rows. split_and!; [done|lia|done].
Qed.

Lemma rowAt_cellAt grid (r c : Z) cells :
  rowAt grid r = Ok cells → 0 ≤ c →
  cellAt grid r c = match cells !! Z.to_nat c with
                    | Some cell => Ok cell
                    | None => Throw OutOfRange
                    end.
Proof.
  intros Hr Hc. unfold cellAt. rewrite Hr. simpl. unfold nthZ.
  by rewrite bool_decide_eq_true_2.
Qed.

(** ** Lines of the grid and shared symbols *)

Definition sharedSymbolb (grid : Grid) (path : Path) : bool :=
  match path with
  | [] => true
  | p0 :: rest =>
      match cellAt grid (row p0) (col p0) with
      | Ok first =>
          truthy first
          && forallb (λ q, bool_decide (cellAt grid (row q) (col q) = Ok first)) rest
      | Throw _ => false
      end
  end.

Lemma truthy_true cell : truthy cell = true ↔ ∃ s : string, cell = Some s ∧ s ≠ "".
Proof.
  destruct cell as [s|]; simpl; [|naive_solver].
  rewrite bool_decide_eq_true. naive_solver.
Qed.

Lemma sharedSymbol_cons grid p0 rest first :
  cellAt grid (row p0) (col p0) = Ok first →
  sharedSymbol grid (p0 :: rest) ↔
  truthy first = true ∧ ∀ q, q ∈ rest → cellAt grid (row q) (col q) = Ok first.
Proof.
  intros H0. unfold sharedSymbol, holds. rewrite truthy_true. split.
  - intros (s & Hs & Hall).
    assert (first = Some s) as ->.
    { specialize (Hall p0 ltac:(by left)). congruence. }
    split; [eauto|]. intros q Hq. apply Hall. by right.
  - intros [(s & -> & Hs) Hall]. exists s. split; [done|].
    intros p [->|Hp]%elem_of_cons; eauto.
Qed.

Lemma sharedSymbolb_spec grid path :
  sharedSymbolb grid path = true ↔ sharedSymbol grid path.
Proof.
  destruct path as [|p0 rest]; simpl.
  - split; [|done]. intros _. exists "x"%string. split; [done|].
    intros p Hp. by apply elem_of_nil in Hp.
  - destruct (cellAt grid (row p0) (col p0)) as [first|e] eqn:H0.
    + rewrite (sharedSymbol_cons _ _ _ _ H0), andb_true_iff, forallb_forall.
      apply and_iff_compat_l. split.
      * intros Hall q Hq%list_elem_of_In.
        by apply (bool_decide_eq_true_1 _), Hall.
      * intros Hall q Hq%list_elem_of_In.
        by apply bool_decide_eq_true_2, Hall.
    + split; [done|]. intros (s & _ & Hall).
      specialize (Hall p0 ltac:(by left)). unfold holds in Hall. congruence.
Qed.

#[global] Instance sharedSymbol_dec grid path : Decision (sharedSymbol grid path).
Proof.
  refine (cast_if (decide (sharedSymbolb grid path = true)));
    abstract (by rewrite <- sharedSymbolb_spec).
Defined.

(** ** Loops that collect wins *)

Lemma forEach_collect {A} (P : Path → Prop) `{∀ p, Decision (P p)}
    (g : A → Path) (xs : list A) (body : A → list Path → Res (list Path)) wins :
  (∀ x w, x ∈ xs → body x w = Ok (w ++ filter P [g x])) →
  forEach xs body wins = Ok (wins ++ filter P (g <$> xs)).
Proof.
  revert wins. induction xs as [|x xs IH]; intros wins Hbody; simpl.
  - by rewrite app_nil_r.
  - rewrite Hbody by by left. simpl. rewrite IH.
    + rewrite <- app_assoc. do 2 f_equal.
      rewrite !filter_cons, filter_nil. by case_decide.
    + intros y w Hy. apply Hbody. by right.
Qed.

(** ** The horizontal scan *)

Lemma horizontalRow_spec grid (r : Z) wins :
  isValidGrid grid = true → 0 ≤ r < REEL_COUNT →
  horizontalRow grid r wins = Ok (wins ++ filter (sharedSymbol grid) [rowPath r]).
Proof.
  intros Hv Hr. destruct (valid_rowAt grid r Hv Hr) as (cells & Hrow & Hlen).
  unfold SYMBOLS_PER_REEL in Hlen.
  destruct cells as [|a0 [|a1 [|a2 [|a3 [|a4 [|a5 [|? ?]]]]]]];
    simpl in Hlen; try lia. clear Hlen.
  assert (Hcell : ∀ i : nat, cellAt grid r (Z.of_nat i)
      = match [a0; a1; a2; a3; a4; a5] !! i with
        | Some cell => Ok cell
        | None => Throw OutOfRange
        end).
  { intros i. rewrite (rowAt_cellAt _ _ _ _ Hrow) by lia. by rewrite Nat2Z.id. }
  pose proof (Hcell 0%nat) as H0. pose proof (Hcell 1%nat) as H1.
  pose proof (Hcell 2%nat) as H2. pose proof (Hcell 3%nat) as H3.
  pose proof (Hcell 4%nat) as H4. pose proof (Hcell 5%nat) as H5.
  change (cellAt grid r 0 = Ok a0) in H0. change (cellAt grid r 1 = Ok a1) in H1.
  change (cellAt grid r 2 = Ok a2) in H2. change (cellAt grid r 3 = Ok a3) in H3.
  change (cellAt grid r 4 = Ok a4) in H4. change (cellAt grid r 5 = Ok a5) in H5.
  clear Hcell. unfold horizontalRow.
  change ((λ c, Coord r c) <$> seqZ 0 SYMBOLS_PER_REEL) with (rowPath r).
  rewrite H0. cbn [mbind Res_bind]. rewrite Hrow. cbn [mbind Res_bind].
  rewrite filter_cons, filter_nil.
  destruct (decide (sharedSymbol grid (rowPath r))) as [Hs|Hs].
  - apply (sharedSymbol_cons grid (Coord r 0) _ a0 H0) in Hs as [Ht Hall]. rewrite Ht.
    assert (a1 = a0 ∧ a2 = a0 ∧ a3 = a0 ∧ a4 = a0 ∧ a5 = a0) as (-> & -> & -> & -> & ->).
    { split_and!.
      - specialize (Hall (Coord r 1) ltac:(set_solver)). simpl in Hall. congruence.
      - specialize (Hall (Coord r 2) ltac:(set_solver)). simpl in Hall. congruence.
      - specialize (Hall (Coord r 3) ltac:(set_solver)). simpl in Hall. congruence.
      - specialize (Hall (Coord r 4) ltac:(set_solver)). simpl in Hall. congruence.
      - specialize (Hall (Coord r 5) ltac:(set_solver)). simpl in Hall. congruence. }
    simpl. by rewrite !bool_decide_eq_true_2 by done.
  - rewrite app_nil_r. destruct (truthy a0) eqn:Ht; [|done].
    destruct (forallb _ _) eqn:Hf; [|done].
    exfalso. apply Hs, (sharedSymbol_cons grid (Coord r 0) _ a0 H0). split; [done|].
    simpl in Hf. rewrite !andb_true_iff, !bool_decide_eq_true in Hf.
    destruct Hf as (_ & -> & -> & -> & -> & -> & _).
    intros q Hq. each_elem Hq ltac:(done).
Qed.

Lemma findHorizontalWins_spec grid :
  isValidGrid grid = true →
  findHorizontalWins grid
  = Ok (filter (sharedSymbol grid) (rowPath <$> [0; 1; 2; 3])).
Proof.
  intros Hv. unfold findHorizontalWins.
  change (seqZ 0 REEL_COUNT) with [0; 1; 2; 3].
  rewrite (forEach_collect (sharedSymbol grid) rowPath); [done|].
  intros r w Hr. apply horizontalRow_spec; [done|].
  unfold REEL_COUNT. set_solver by lia.
Qed.

(** ** The vertical scan *)

Lemma allMatchLoop_spec grid (c : Z) first rs :
  (∀ r, r ∈ rs → ∃ cell, cellAt grid r c = Ok cell) →
  ∃ b, allMatchLoop grid c first rs = Ok b
       ∧ (b = true ↔ ∀ r, r ∈ rs → cellAt grid r c = Ok first).
Proof.
  induction rs as [|r rs IH]; intros Hread; simpl.
  - exists true. split; [done|]. split; [|done]. intros _ r Hr. by apply elem_of_nil in Hr.
  - destruct (Hread r) as [cell Hcell]; [by left|]. rewrite Hcell. cbn [mbind Res_bind].
    case_bool_decide as Hne.
    + exists false. split; [done|]. split; [done|]. intros Hall.
      specialize (Hall r ltac:(by left)). congruence.
    + subst cell.
      destruct IH as (b & -> & Hb); [intros; apply Hread; by right|].
      exists b. split; [done|]. rewrite Hb. split.
      * intros Hall r' [->|Hr']%elem_of_cons; eauto.
      * intros Hall r' Hr'. apply Hall. by right.
Qed.

Lemma verticalColumn_spec grid (c : Z) wins :
  isValidGrid grid = true → 0 ≤ c < SYMBOLS_PER_REEL →
  verticalColumn grid c wins = Ok (wins ++ filter (sharedSymbol grid) [colPath c]).
Proof.
  intros Hv Hc. unfold verticalColumn.
  change ((λ r, Coord r c) <$> seqZ 0 REEL_COUNT) with (colPath c).
  change (seqZ 1 (REEL_COUNT - 1)) with [1; 2; 3].
  destruct (valid_cellAt grid 0 c Hv) as [first H0]; [done..|].
  rewrite H0. cbn [mbind Res_bind].
  destruct (allMatchLoop_spec grid c first [1; 2; 3]) as (b & Hloop & Hb).
  { intros r Hr. apply valid_cellAt; [done| |done]. unfold REEL_COUNT. set_solver by lia. }
  rewrite filter_cons, filter_nil.
  pose proof (sharedSymbol_cons grid (Coord 0 c) [Coord 1 c; Coord 2 c; Coord 3 c] first H0)
    as Hshared.
  assert (Hb' : b = true ↔
    ∀ q, q ∈ [Coord 1 c; Coord 2 c; Coord 3 c] → cellAt grid (row q) (col q) = Ok first).
  { rewrite Hb. split.
    - intros Hall q Hq. each_elem Hq ltac:(apply Hall; set_solver).
    - intros Hall r Hr. each_elem Hr ltac:(apply (Hall (Coord _ c)); set_solver). }
  destruct (truthy first) eqn:Ht.
  - rewrite Hloop. cbn [mbind Res_bind]. destruct b.
    + rewrite decide_True; [done|]. apply Hshared. split; [done|]. by apply Hb'.
    + rewrite decide_False; [by rewrite app_nil_r|].
      intros [_ Hall]%Hshared. apply Hb' in Hall. done.
  - rewrite decide_False; [by rewrite app_nil_r|].
    intros [? _]%Hshared. done.
Qed.

Lemma findVerticalWins_spec grid :
  isValidGrid grid = true →
  findVerticalWins grid
  = Ok (filter (sharedSymbol grid) (colPath <$> [0; 1; 2; 3; 4; 5])).
Proof.
  intros Hv. unfold findVerticalWins.
  change (seqZ 0 SYMBOLS_PER_REEL) with [0; 1; 2; 3; 4; 5].
  rewrite (forEach_collect (sharedSymbol grid) colPath); [done|].
  intros c w Hc. apply verticalColumn_spec; [done|].
  unfold SYMBOLS_PER_REEL. set_solver by lia.
Qed.

(** ** The diagonal scan *)

Lemma diagonalLoop_spec grid colAt (c : Z) first rs path :
  (∀ r, r ∈ rs → ∃ cell, cellAt grid r (colAt c r) = Ok cell) →
  ∃ b path', diagonalLoop grid colAt c first rs path = Ok (b, path')
       ∧ (b = true ↔ ∀ r, r ∈ rs → cellAt grid r (colAt c r) = Ok first)
       ∧ (b = true → path' = path ++ ((λ r, Coord r (colAt c r)) <$> rs)).
Proof.
  revert path. induction rs as [|r rs IH]; intros path Hread; simpl.
  - exists true, path. split_and!; [done| |by rewrite app_nil_r].
    split; [|done]. intros _ r Hr. by apply elem_of_nil in Hr.
  - destruct (Hread r) as [cell Hcell]; [by left|]. rewrite Hcell. cbn [mbind Res_bind].
    case_bool_decide as Hne.
    + exists false, path. split_and!; [done| |done]. split; [done|]. intros Hall.
      specialize (Hall r ltac:(by left)). congruence.
    + subst cell.
      destruct (IH (path ++ [Coord r (colAt c r)])) as (b & path' & -> & Hb & Hp);
        [intros; apply Hread; by right|].
      exists b, path'. split_and!; [done| |].
      * rewrite Hb. split.
        -- intros Hall r' [->|Hr']%elem_of_cons; eauto.
        -- intros Hall r' Hr'. apply Hall. by right.
      * intros ->. rewrite Hp by done. by rewrite <- app_assoc.
Qed.

Lemma diagonalFrom_spec grid colAt (c : Z) wins :
  isValidGrid grid = true → 0 ≤ c < SYMBOLS_PER_REEL →
  (∀ r, r ∈ [1; 2; 3] → 0 ≤ colAt c r < SYMBOLS_PER_REEL) →
  diagonalFrom grid colAt c wins
  = Ok (wins ++ filter (sharedSymbol grid)
                  [[Coord 0 c; Coord 1 (colAt c 1); Coord 2 (colAt c 2); Coord 3 (colAt c 3)]]).
Proof.
  intros Hv Hc Hcols. unfold diagonalFrom.
  change (seqZ 1 (REEL_COUNT - 1)) with [1; 2; 3].
  destruct (valid_cellAt grid 0 c Hv) as [first H0]; [done..|].
  rewrite H0. cbn [mbind Res_bind].
  destruct (diagonalLoop_spec grid colAt c first [1; 2; 3] [Coord 0 c])
    as (b & path' & Hloop & Hb & Hpath).
  { intros r Hr. apply valid_cellAt; [done| |by apply Hcols].
    unfold REEL_COUNT. set_solver by lia. }
  rewrite filter_cons, filter_nil.
  pose proof (sharedSymbol_cons grid (Coord 0 c)
    [Coord 1 (colAt c 1); Coord 2 (colAt c 2); Coord 3 (colAt c 3)] first H0) as Hshared.
  assert (Hb' : b = true ↔
    ∀ q, q ∈ [Coord 1 (colAt c 1); Coord 2 (colAt c 2); Coord 3 (colAt c 3)]
         → cellAt grid (row q) (col q) = Ok first).
  { rewrite Hb. split.
    - intros Hall q Hq. each_elem Hq ltac:(apply Hall; set_solver).
    - intros Hall r Hr. each_elem Hr ltac:(apply (Hall (Coord _ (colAt c _))); set_solver). }
  destruct (truthy first) eqn:Ht.
  - rewrite Hloop. cbn [mbind Res_bind]. destruct b.
    + rewrite Hpath by done. rewrite decide_True; [done|].
      apply Hshared. split; [done|]. by apply Hb'.
    + rewrite decide_False; [by rewrite app_nil_r|].
      intros [_ Hall]%Hshared. apply Hb' in Hall. done.
  - rewrite decide_False; [by rewrite app_nil_r|].
    intros [? _]%Hshared. done.
Qed.

Lemma findDiagonalWins_spec grid :
  isValidGrid grid = true →
  findDiagonalWins grid
  = Ok (filter (sharedSymbol grid)
          ((diagRight <$> [0; 1; 2]) ++ (diagLeft <$> [5; 4; 3]))).
Proof.
  intros Hv. unfold findDiagonalWins.
  change (seqZ 0 (SYMBOLS_PER_REEL - REEL_COUNT + 1)) with [0; 1; 2].
  change (reverse (seqZ (REEL_COUNT - 1) (SYMBOLS_PER_REEL - REEL_COUNT + 1)))
    with [5; 4; 3].
  rewrite (forEach_collect (sharedSymbol grid) diagRight).
  2:{ intros c w Hc. rewrite diagonalFrom_spec; [done|done|..];
        unfold SYMBOLS_PER_REEL; set_solver by lia. }
  cbn [mbind Res_bind app].
  rewrite (forEach_collect (sharedSymbol grid) diagLeft).
  2:{ intros c w Hc. rewrite diagonalFrom_spec; [done|done|..];
        unfold SYMBOLS_PER_REEL; set_solver by lia. }
  by rewrite filter_app.
Qed.

(** ** The keys are faithful

    The visited set and the set of seen paths hold strings; these lemmas
    show that the strings identify coordinates, and sorted coordinate lists,
    uniquely. *)

Fixpoint allChars (P : Ascii.ascii → Prop) (s : string) : Prop :=
  match s with
  | EmptyString => True
  | String a s' => P a ∧ allChars P s'
  end.

Lemma allChars_app P s t : allChars P (s +:+ t) ↔ allChars P s ∧ allChars P t.
Proof. induction s as [|a s IH]; simpl; [tauto|]. rewrite IH. tauto. Qed.

Lemma allChars_impl (P Q : Ascii.ascii → Prop) s :
  (∀ a, P a → Q a) → allChars P s → allChars Q s.
Proof. intros HPQ. induction s as [|a s IH]; simpl; [done|]. naive_solver. Qed.

(** Two strings cut at the first occurrence of [x] agree part by part. *)
Lemma append_sep_inj (x : Ascii.ascii) s1 s2 t1 t2 :
  allChars (λ a, a ≠ x) s1 → allChars (λ a, a ≠ x) s2 →
  s1 +:+ String x t1 = s2 +:+ String x t2 → s1 = s2 ∧ t1 = t2.
Proof.
  revert s2. induction s1 as [|a s1 IH]; intros [|b s2]; simpl.
  - by intros _ _ [= ->].
  - intros _ [Hb _] [= <- _]. done.
  - intros [Ha _] _ [= -> _]. done.
  - intros [_ H1] [_ H2] [= -> Heq]. destruct (IH _ H1 H2 Heq) as [-> ->]. done.
Qed.

Definition digitLike (a : Ascii.ascii) : Prop := a ≠ ","%char ∧ a ≠ "-"%char.

Lemma pretty_N_go_chars (x : N) s :
  allChars digitLike s → allChars digitLike (pretty_N_go x s).
Proof.
  revert s. induction (N.lt_wf_0 x) as [x _ IH]; intros s Hs.
  assert (x = 0 ∨ 0 < x)%N as [->|Hpos] by lia.
  - by rewrite pretty_N_go_0.
  - rewrite pretty_N_go_step by done. apply IH.
    + by apply N.div_lt.
    + simpl. split; [|done]. unfold pretty_N_char, digitLike.
      by repeat case_match.
Qed.

Lemma pretty_N_chars (x : N) : allChars digitLike (pretty x).
Proof.
  unfold pretty, pretty_N. case_decide.
  - simpl. by repeat split.
  - by apply pretty_N_go_chars.
Qed.

Lemma pretty_Z_chars_nonneg (z : Z) : 0 ≤ z → allChars digitLike (pretty z).
Proof.
  intros Hz. destruct z as [|p|p]; [| |lia].
  - simpl. by repeat split.
  - apply (pretty_N_chars (N.pos p)).
Qed.

Lemma pretty_Z_chars_comma (z : Z) : allChars (λ a, a ≠ ","%char) (pretty z).
Proof.
  destruct z as [|p|p].
  - simpl. by repeat split.
  - eapply allChars_impl, (pretty_N_chars (N.pos p)). by intros a [? _].
  - change (pretty (Z.neg p)) with ("-" +:+ pretty (N.pos p)).
    apply allChars_app. split; [by repeat split|].
    eapply allChars_impl, (pretty_N_chars (N.pos p)). by intros a [? _].
Qed.

Lemma coordKey_inj (r c r' c' : Z) :
  coordKey r c = coordKey r' c' → r = r' ∧ c = c'.
Proof.
  unfold coordKey. intros Heq.
  apply (append_sep_inj ","%char) in Heq as [Hr Hc]; [|apply pretty_Z_chars_comma..].
  split; by apply (inj pretty).
Qed.

#[global] Instance keyOf_inj : Inj (=) (=) keyOf.
Proof.
  intros [r c] [r' c'] Heq. apply coordKey_inj in Heq as [Hr Hc].
  simpl in Hr, Hc. by subst.
Qed.

Lemma keyOf_chars (p : GridCoord) :
  0 ≤ row p → 0 ≤ col p → allChars (λ a, a ≠ "-"%char) (keyOf p) ∧ keyOf p ≠ "".
Proof.
  intros Hr Hc. unfold keyOf, coordKey. split.
  - rewrite !allChars_app. split_and!.
    + eapply allChars_impl, pretty_Z_chars_nonneg; [|done]. by intros a [_ ?].
    + by repeat split.
    + eapply allChars_impl, pretty_Z_chars_nonneg; [|done]. by intros a [_ ?].
  - destruct (pretty (row p)); done.
Qed.

Lemma joinWith_cons sep k k' ks :
  joinWith sep (k :: k' :: ks) = k +:+ sep +:+ joinWith sep (k' :: ks).
Proof. done. Qed.

Lemma joinWith_dash_inj (ks ks' : list string) :
  Forall (λ k, allChars (λ a, a ≠ "-"%char) k ∧ k ≠ "") ks →
  Forall (λ k, allChars (λ a, a ≠ "-"%char) k ∧ k ≠ "") ks' →
  joinWith "-" ks = joinWith "-" ks' → ks = ks'.
Proof.
  intros Hks. revert ks'. induction Hks as [|k ks [Hk Hne] Hks IH]; intros ks' Hks'.
  - destruct Hks' as [|k' ks' [Hk' Hne'] Hks']; [done|].
    destruct ks' as [|k'' ks']; simpl; [congruence|].
    destruct k'; done.
  - destruct Hks' as [|k' ks' [Hk' Hne'] Hks'].
    { destruct ks as [|k'' ks]; simpl; [congruence|]. destruct k; done. }
    destruct ks as [|k2 ks], ks' as [|k2' ks'].
    + simpl. by intros ->.
    + rewrite joinWith_cons. intros Heq. exfalso.
      change (k = k' +:+ String "-"%char (joinWith "-" (k2' :: ks'))) in Heq.
      rewrite Heq in Hk. apply allChars_app in Hk as [_ [Hk _]]. done.
    + rewrite joinWith_cons. intros Heq. exfalso.
      change (k +:+ String "-"%char (joinWith "-" (k2 :: ks)) = k') in Heq.
      rewrite <- Heq in Hk'. apply allChars_app in Hk' as [_ [Hk' _]]. done.
    + rewrite !joinWith_cons. intros Heq.
      change (k +:+ String "-"%char (joinWith "-" (k2 :: ks))
              = k' +:+ String "-"%char (joinWith "-" (k2' :: ks'))) in Heq.
      apply append_sep_inj in Heq as [-> Heq]; [|done..].
      f_equal. by apply IH.
Qed.

(** ** Sorting and [pathKey] *)

Lemma coordLe_lex a b :
  coordLe a b ↔ row a < row b ∨ (row a = row b ∧ col a ≤ col b).
Proof. unfold coordLe, compareCoord. case_bool_decide; lia. Qed.

#[global] Instance coordLe_total : Total coordLe.
Proof. intros a b. rewrite !coordLe_lex. lia. Qed.

#[global] Instance coordLe_trans : Transitive coordLe.
Proof. intros a b c'. rewrite !coordLe_lex. lia. Qed.

#[global] Instance coordLe_antisymm : AntiSymm (=) coordLe.
Proof.
  intros [r1 c1] [r2 c2]. rewrite !coordLe_lex. simpl. intros ? ?.
  f_equal; lia.
Qed.

Lemma sort_Permutation_eq (p q : Path) :
  merge_sort coordLe p = merge_sort coordLe q ↔ p ≡ₚ q.
Proof.
  split.
  - intros Heq. rewrite <- (merge_sort_Permutation coordLe p), Heq.
    apply merge_sort_Permutation.
  - intros Hperm. apply (Sorted_unique coordLe).
    + apply Sorted_merge_sort, _.
    + apply Sorted_merge_sort, _.
    + by rewrite !merge_sort_Permutation.
Qed.

Lemma pathKey_Permutation (p q : Path) :
  nonneg p → nonneg q → pathKey p = pathKey q ↔ p ≡ₚ q.
Proof.
  intros Hp Hq. rewrite <- sort_Permutation_eq. unfold pathKey. split.
  - intros Heq. apply joinWith_dash_inj in Heq.
    + by apply (inj (fmap keyOf)) in Heq.
    + apply Forall_fmap. rewrite merge_sort_Permutation.
      eapply Forall_impl; [exact Hp|]. intros x [? ?]. by apply keyOf_chars.
    + apply Forall_fmap. rewrite merge_sort_Permutation.
      eapply Forall_impl; [exact Hq|]. intros x [? ?]. by apply keyOf_chars.
  - by intros ->.
Qed.

Lemma pathKey_sameCoords (p q : Path) :
  nonneg p → nonneg q → NoDup p → NoDup q →
  pathKey p = pathKey q ↔ sameCoords p q.
Proof.
  intros Hp Hq Hdp Hdq. rewrite pathKey_Permutation by done. split.
  - intros Hperm x. by rewrite Hperm.
  - intros Hsame. by apply NoDup_Permutation.
Qed.

(** ** [dedupePaths] keeps the first path of every key *)

Lemma dedupe_seen (paths : list Path) (k : string) :
  k ∈ (foldl dedupeStep (∅, []) paths).1 ↔ ∃ q, q ∈ paths ∧ pathKey q = k.
Proof.
  induction paths as [|p paths IH] using rev_ind.
  - simpl. split; [set_solver|]. intros (q & Hq & _). by apply elem_of_nil in Hq.
  - rewrite foldl_snoc. unfold dedupeStep at 1. case_bool_decide as Hnew; simpl.
    + rewrite elem_of_union, elem_of_singleton, IH. split.
      * intros [->|(q & Hq & Hk)]; [exists p|exists q]; set_solver.
      * intros (q & [Hq|Hq]%elem_of_app & Hk); [right; eauto|].
        apply list_elem_of_singleton in Hq as ->. by left.
    + rewrite IH. split.
      * intros (q & Hq & Hk). exists q. set_solver.
      * intros (q & [Hq|Hq]%elem_of_app & Hk); [eauto|].
        apply list_elem_of_singleton in Hq as ->.
        subst k. by apply IH.
Qed.

Lemma dedupePaths_nil : dedupePaths [] = [].
Proof. done. Qed.

Lemma dedupePaths_snoc (paths : list Path) (p : Path) :
  dedupePaths (paths ++ [p])
  = if decide (pathKey p ∈ pathKey <$> paths)
    then dedupePaths paths
    else dedupePaths paths ++ [p].
Proof.
  unfold dedupePaths. rewrite foldl_snoc. unfold dedupeStep at 1.
  case_bool_decide as Hnew; case_decide as Hex; simpl; try done.
  - exfalso. apply Hnew, dedupe_seen.
    apply list_elem_of_fmap in Hex as (q & ? & ?). eauto.
  - exfalso. apply Hex. apply dedupe_seen in Hnew as (q & ? & <-).
    by apply list_elem_of_fmap_2.
Qed.

Lemma dedupePaths_subset (paths : list Path) (p : Path) :
  p ∈ dedupePaths paths → p ∈ paths.
Proof.
  induction paths as [|q paths IH] using rev_ind; [done|].
  rewrite dedupePaths_snoc. case_decide; set_solver.
Qed.

Lemma dedupePaths_keys (paths : list Path) (k : string) :
  k ∈ pathKey <$> dedupePaths paths ↔ k ∈ pathKey <$> paths.
Proof.
  induction paths as [|q paths IH] using rev_ind; [done|].
  rewrite dedupePaths_snoc. case_decide as Hq; rewrite !fmap_app; set_solver.
Qed.

Lemma dedupePaths_NoDup (paths : list Path) : NoDup (pathKey <$> dedupePaths paths).
Proof.
  induction paths as [|q paths IH] using rev_ind; [constructor|].
  rewrite dedupePaths_snoc. case_decide as Hq; [done|].
  rewrite fmap_app. apply NoDup_app. split_and!; [done| |apply NoDup_singleton].
  intros k Hk Hk'. simpl in Hk'. apply list_elem_of_singleton in Hk' as ->.
  by apply Hq, dedupePaths_keys.
Qed.

Lemma dedupePaths_id (paths : list Path) :
  NoDup (pathKey <$> paths) → dedupePaths paths = paths.
Proof.
  induction paths as [|q paths IH] using rev_ind; [done|].
  rewrite fmap_app. intros (Hnd & Hq & _)%NoDup_app.
  rewrite dedupePaths_snoc, decide_False, IH; [done..|].
  intros Hin. apply (Hq _ Hin). set_solver.
Qed.

(** ** The search loop, one iteration at a time *)

Lemma bfs_nil grid symbol visited allPaths :
  bfs grid symbol [] visited allPaths = Ok allPaths.
Proof. by simp bfs. Qed.

Lemma bfs_bottom grid symbol coord path queue visited allPaths :
  row coord = REEL_COUNT - 1 →
  bfs grid symbol ((coord, path) :: queue) visited allPaths
  = bfs grid symbol queue visited (allPaths ++ [path]).
Proof.
  intros Hr. simp bfs. rewrite bool_decide_eq_true_2 by done. by simp bfs.
Qed.

Lemma bfs_expand grid symbol coord path queue visited allPaths :
  row coord ≠ REEL_COUNT - 1 →
  bfs grid symbol ((coord, path) :: queue) visited allPaths
  = '(visited', queue') ← expand grid symbol coord path (visited, queue);
    bfs grid symbol queue' visited' allPaths.
Proof.
  intros Hr. simp bfs. rewrite bool_decide_eq_false_2 by done. simp bfs.
  generalize (Logic.inspect (expand grid symbol coord path (visited, queue))).
  intros [[[v' q']|e] Hexp]; simp bfs; by rewrite Hexp.
Qed.

Lemma bfs_invariant grid symbol (Inv : list QueueItem → gset string → list Path → Prop) :
  (∀ coord path queue visited allPaths,
     Inv ((coord, path) :: queue) visited allPaths →
     row coord = REEL_COUNT - 1 →
     Inv queue visited (allPaths ++ [path])) →
  (∀ coord path queue visited allPaths,
     Inv ((coord, path) :: queue) visited allPaths →
     row coord ≠ REEL_COUNT - 1 →
     ∃ visited' queue',
       expand grid symbol coord path (visited, queue) = Ok (visited', queue')
       ∧ Inv queue' visited' allPaths) →
  ∀ queue visited allPaths,
    Inv queue visited allPaths →
    ∃ visited' allPaths',
      bfs grid symbol queue visited allPaths = Ok allPaths'
      ∧ Inv [] visited' allPaths'.
Proof.
  intros Hbottom Hexpand queue visited.
  remember (bfsMeasure grid (visited, queue)) as n eqn:Hn.
  revert queue visited Hn.
  induction n as [n IH] using lt_wf_ind. intros queue visited -> allPaths HInv.
  destruct queue as [|[coord path] queue].
  - rewrite bfs_nil. eauto.
  - destruct (decide (row coord = REEL_COUNT - 1)) as [Hr|Hr].
    + rewrite bfs_bottom by done.
      eapply IH; [|reflexivity|by eapply Hbottom].
      unfold bfsMeasure. simpl. lia.
    + destruct (Hexpand _ _ _ _ _ HInv Hr) as (visited' & queue' & Hexp & HInv').
      rewrite bfs_expand, Hexp by done. cbn [mbind Res_bind].
      eapply IH; [|reflexivity|done].
      apply expand_measure in Hexp. unfold bfsMeasure in *. simpl in *. lia.
Qed.

(** [allPaths] is only appended to. *)
Lemma bfs_acc grid symbol queue visited acc allPaths :
  bfs grid symbol queue visited (acc ++ allPaths)
  = found ← bfs grid symbol queue visited allPaths; Ok (acc ++ found).
Proof.
  remember (bfsMeasure grid (visited, queue)) as n eqn:Hn.
  revert queue visited allPaths Hn.
  induction n as [n IH] using lt_wf_ind. intros queue visited allPaths ->.
  destruct queue as [|[coord path] queue].
  - by rewrite !bfs_nil.
  - destruct (decide (row coord = REEL_COUNT - 1)) as [Hr|Hr].
    + rewrite !bfs_bottom by done. rewrite <- app_assoc.
      eapply IH; [|reflexivity]. unfold bfsMeasure. simpl. lia.
    + rewrite !bfs_expand by done.
      destruct (expand grid symbol coord path (visited, queue)) as [[v' q']|e] eqn:Hexp;
        [|done].
      cbn [mbind Res_bind]. eapply IH; [|reflexivity].
      apply expand_measure in Hexp. unfold bfsMeasure in *. simpl in *. lia.
Qed.

(** ** Trails of a search *)

(** [trail grid symbol start coord path]: [path] leads from [start] to
    [coord] by steps down, and every cell after [start] is inside the column
    bounds and holds [symbol]. *)
Inductive trail (grid : Grid) (symbol : string) (start : GridCoord) :
    GridCoord → Path → Prop :=
| trail_here : trail grid symbol start start [start]
| trail_step x path y :
    trail grid symbol start x path →
    stepDown x y →
    0 ≤ col y < SYMBOLS_PER_REEL →
    holds grid symbol y →
    trail grid symbol start y (path ++ [y]).

Lemma trail_last grid symbol start x path :
  trail grid symbol start x path → last path = Some x.
Proof. intros [|]; [done|]. by rewrite last_snoc. Qed.

Lemma trail_head grid symbol start x path :
  trail grid symbol start x path → head path = Some start.
Proof.
  induction 1 as [|x path y Ht IH]; [done|].
  destruct path; [done|]. done.
Qed.

Lemma trail_row grid symbol start x path :
  trail grid symbol start x path →
  row x = row start + Z.of_nat (length path) - 1.
Proof.
  induction 1 as [|x path y Ht IH Hstep]; simpl; [lia|].
  rewrite length_app. simpl. destruct Hstep as [-> _]. lia.
Qed.

Lemma trail_row_ge grid symbol start x path :
  trail grid symbol start x path → row start ≤ row x.
Proof.
  induction 1 as [|x path y Ht IH Hstep]; [done|].
  destruct Hstep as [-> _]. lia.
Qed.

(** ** Expanding one cell *)

Lemma tryNeighbour_spec grid symbol x px dc visited queue :
  (0 ≤ col x + dc < SYMBOLS_PER_REEL →
   ∃ cell, cellAt grid (row x + 1) (col x + dc) = Ok cell) →
  tryNeighbour grid symbol x px dc (visited, queue)
  = Ok (if decide (0 ≤ col (below x dc) < SYMBOLS_PER_REEL
                   ∧ (keyOf (below x dc) ∉ visited)
                   ∧ holds grid symbol (below x dc))
        then ({[keyOf (below x dc)]} ∪ visited,
              queue ++ [(below x dc, px ++ [below x dc])])
        else (visited, queue)).
Proof.
  intros Hread. unfold tryNeighbour. cbn [fst snd].
  destruct (decide _) as [(Hc & Hk & Hh)|Hno].
  - unfold holds, keyOf, below in *. cbn [row col] in *.
    rewrite !bool_decide_eq_true_2 by (done || lia). cbn [andb].
    rewrite Hh. cbn [mbind Res_bind]. by rewrite bool_decide_eq_true_2.
  - unfold holds, keyOf, below in *. cbn [row col] in *.
    destruct (bool_decide (0 ≤ col x + dc)) eqn:H1; [|done].
    destruct (bool_decide (col x + dc < SYMBOLS_PER_REEL)) eqn:H2; [|done].
    destruct (bool_decide (coordKey (row x + 1) (col x + dc) ∉ visited)) eqn:H3; [|done].
    cbn [andb]. apply bool_decide_eq_true in H1, H2, H3.
    destruct Hread as [cell Hcell]; [done|]. rewrite Hcell. cbn [mbind Res_bind].
    case_bool_decide as H4; [|done]. subst cell. by destruct Hno.
Qed.

(** What a round of expansions does to the visited set and to the queue. *)
Lemma expand_rounds grid symbol x px dcs visited queue :
  (∀ dc, dc ∈ dcs → 0 ≤ col x + dc < SYMBOLS_PER_REEL →
         ∃ cell, cellAt grid (row x + 1) (col x + dc) = Ok cell) →
  ∃ visited' news,
    forEach dcs (tryNeighbour grid symbol x px) (visited, queue)
      = Ok (visited', queue ++ news)
    ∧ (∀ n pn, (n, pn) ∈ news →
         (∃ dc, dc ∈ dcs ∧ n = below x dc)
         ∧ 0 ≤ col n < SYMBOLS_PER_REEL ∧ holds grid symbol n
         ∧ (keyOf n ∉ visited) ∧ pn = px ++ [n])
    ∧ NoDup (news.*1)
    ∧ (∀ k, k ∈ visited' ↔ k ∈ visited ∨ k ∈ keyOf <$> news.*1)
    ∧ (∀ dc, dc ∈ dcs → 0 ≤ col (below x dc) < SYMBOLS_PER_REEL →
             holds grid symbol (below x dc) → keyOf (below x dc) ∈ visited').
Proof.
  revert visited queue. induction dcs as [|dc dcs IH]; intros visited queue Hread.
  - exists visited, []. simpl. rewrite app_nil_r. split_and!; [done| | | |].
    + intros n pn Hn. by apply elem_of_nil in Hn.
    + constructor.
    + intros k. set_solver.
    + intros dc Hdc. by apply elem_of_nil in Hdc.
  - simpl. rewrite tryNeighbour_spec by (apply Hread; by left).
    cbn [mbind Res_bind]. case_decide as Hnew.
    + destruct Hnew as (Hcol & Hfresh & Hholds).
      destruct (IH ({[keyOf (below x dc)]} ∪ visited)
                   (queue ++ [(below x dc, px ++ [below x dc])]))
        as (visited' & news & Heq & Hnews & Hnd & Hvis & Hdone).
      { intros dc' Hdc'. apply Hread. by right. }
      exists visited', ((below x dc, px ++ [below x dc]) :: news).
      split_and!.
      * rewrite Heq. by rewrite <- app_assoc.
      * intros n pn [[= -> ->]|Hn]%elem_of_cons.
        -- split; [exists dc; split; [by left|done]|done].
        -- destruct (Hnews n pn Hn) as ((dc' & Hdc' & ->) & ? & ? & Hk & ?).
           split; [exists dc'; split; [by right|done]|].
           split; [done|]. split; [done|]. split; [set_solver|done].
      * simpl. constructor; [|done]. intros Hin.
        apply list_elem_of_fmap in Hin as ([n pn] & Hn & Hin). simpl in Hn. subst n.
        destruct (Hnews _ _ Hin) as (_ & _ & _ & Hk & _). set_solver.
      * intros k. rewrite Hvis. simpl. set_solver.
      * intros dc' [->|Hdc']%elem_of_cons Hcol' Hholds'.
        -- apply Hvis. left. set_solver.
        -- by apply Hdone.
    + destruct (IH visited queue) as (visited' & news & Heq & Hnews & Hnd & Hvis & Hdone).
      { intros dc' Hdc'. apply Hread. by right. }
      exists visited', news. split_and!; [done| |done|done|].
      * intros n pn Hn.
        destruct (Hnews n pn Hn) as ((dc' & Hdc' & ->) & ? & ? & Hk & ?).
        split; [exists dc'; split; [by right|done]|done].
      * intros dc' [->|Hdc']%elem_of_cons Hcol' Hholds'; [|by apply Hdone].
        apply Hvis. left. apply dec_stable. intros Hfresh. apply Hnew. done.
Qed.

(** ** The invariant of one search *)

Lemma stepDown_below x y :
  stepDown x y ↔ ∃ dc, dc ∈ [-1; 0; 1] ∧ y = below x dc.
Proof.
  unfold stepDown, below. destruct x as [rx cx], y as [ry cy]. simpl. split.
  - intros [-> Hc]. exists (cy - cx). split; [set_solver by lia|]. f_equal. lia.
  - intros (dc & Hdc & [= -> ->]). split; [done|]. set_solver by lia.
Qed.

(** The coordinates at which the paths of [paths] end. *)
Definition ends (paths : list Path) : list GridCoord := omap last paths.

Section Search.
Context (grid : Grid) (symbol : string) (c0 : Z).
Hypothesis Hvalid : isValidGrid grid = true.
Hypothesis Hc0 : 0 ≤ c0 < SYMBOLS_PER_REEL.

(** Every neighbour of [x] that could be enqueued has been visited. *)
Definition closed (x : GridCoord) (visited : gset string) : Prop :=
  ∀ y, stepDown x y → 0 ≤ col y < SYMBOLS_PER_REEL → holds grid symbol y →
       keyOf y ∈ visited.

Record searchInv (queue : list QueueItem) (visited : gset string)
    (allPaths : list Path) : Prop := {
  inv_queue : ∀ coord path, (coord, path) ∈ queue →
    trail grid symbol (Coord 0 c0) coord path;
  inv_paths : ∀ path, path ∈ allPaths →
    ∃ coord, trail grid symbol (Coord 0 c0) coord path ∧ row coord = REEL_COUNT - 1;
  inv_rows : ∀ x, x ∈ queue.*1 → row x ≤ REEL_COUNT - 1;
  inv_nodup : NoDup (queue.*1 ++ ends allPaths);
  inv_visited : ∀ x, x ∈ queue.*1 ++ ends allPaths → keyOf x ∈ visited;
  inv_start : keyOf (Coord 0 c0) ∈ visited;
  inv_closed : ∀ x, keyOf x ∈ visited →
    x ∈ queue.*1 ∨ x ∈ ends allPaths
    ∨ (row x < REEL_COUNT - 1 ∧ closed x visited)
}.

Lemma searchInv_init :
  searchInv [(Coord 0 c0, [Coord 0 c0])] {[coordKey 0 c0]} [].
Proof.
  split; simpl.
  - intros coord path [= -> ->]%list_elem_of_singleton. constructor.
  - intros path Hp. by apply elem_of_nil in Hp.
  - intros x ->%list_elem_of_singleton. simpl. unfold REEL_COUNT. lia.
  - apply NoDup_singleton.
  - intros x ->%list_elem_of_singleton. set_solver.
  - set_solver.
  - intros x Hx%elem_of_singleton. left.
    change (coordKey 0 c0) with (keyOf (Coord 0 c0)) in Hx.
    apply (inj keyOf) in Hx as ->. set_solver.
Qed.

Lemma ends_snoc allPaths path x :
  last path = Some x → ends (allPaths ++ [path]) = ends allPaths ++ [x].
Proof. intros Hl. unfold ends. rewrite omap_app. simpl. by rewrite Hl. Qed.

Lemma searchInv_bottom coord path queue visited allPaths :
  searchInv ((coord, path) :: queue) visited allPaths →
  row coord = REEL_COUNT - 1 →
  searchInv queue visited (allPaths ++ [path]).
Proof.
  intros [Hq Hp Hr Hnd Hvis Hst Hcl] Hrow.
  assert (Htrail : trail grid symbol (Coord 0 c0) coord path) by (apply Hq; by left).
  pose proof (ends_snoc allPaths path coord (trail_last _ _ _ _ _ Htrail)) as Hends.
  rewrite fmap_cons in Hr, Hnd, Hvis, Hcl. cbn [fst] in Hr, Hnd, Hvis, Hcl.
  apply NoDup_cons in Hnd as [Hnotin Hnd].
  split.
  - intros x px Hx. apply Hq. by right.
  - intros p [Hin|Hin]%elem_of_app; [by apply Hp|].
    apply list_elem_of_singleton in Hin as ->. eauto.
  - intros x Hx. apply Hr. by right.
  - rewrite Hends, app_assoc. apply NoDup_app. split_and!; [done| |apply NoDup_singleton].
    intros x Hx ->%list_elem_of_singleton. done.
  - rewrite Hends. intros x Hx. apply Hvis. set_solver.
  - done.
  - rewrite Hends. intros x Hx.
    destruct (Hcl x Hx) as [[->|Hin]%elem_of_cons|[Hin|Hin]].
    + right. left. set_solver.
    + by left.
    + right. left. set_solver.
    + by right; right.
Qed.

Lemma trail_col coord path :
  trail grid symbol (Coord 0 c0) coord path → 0 ≤ col coord < SYMBOLS_PER_REEL.
Proof. by intros [|]. Qed.

Lemma searchInv_expand coord path queue visited allPaths :
  searchInv ((coord, path) :: queue) visited allPaths →
  row coord ≠ REEL_COUNT - 1 →
  ∃ visited' queue',
    expand grid symbol coord path (visited, queue) = Ok (visited', queue')
    ∧ searchInv queue' visited' allPaths.
Proof.
  intros [Hq Hp Hr Hnd Hvis Hst Hcl] Hrow.
  assert (Htrail : trail grid symbol (Coord 0 c0) coord path) by (apply Hq; by left).
  assert (Hrow' : 0 ≤ row coord < REEL_COUNT - 1).
  { pose proof (trail_row_ge _ _ _ _ _ Htrail) as Hge. simpl in Hge.
    specialize (Hr coord ltac:(by left)). lia. }
  destruct (expand_rounds grid symbol coord path [-1; 0; 1] visited queue)
    as (visited' & news & Heq & Hnews & Hndn & Hv' & Hdone).
  { intros dc _ Hcol. apply valid_cellAt; [done| |done]. unfold REEL_COUNT in *. lia. }
  exists visited', (queue ++ news). split; [done|].
  rewrite fmap_cons in Hr, Hnd, Hvis, Hcl. cbn [fst] in Hr, Hnd, Hvis, Hcl.
  apply NoDup_cons in Hnd as [Hnotin Hnd]. split.
  - intros x px [Hin|Hin]%elem_of_app; [apply Hq; by right|].
    destruct (Hnews x px Hin) as ((dc & Hdc & ->) & Hcol & Hh & _ & ->).
    apply (trail_step _ _ _ coord); [done| |done|done].
    apply stepDown_below. eauto.
  - done.
  - rewrite fmap_app. intros x [Hin|Hin]%elem_of_app; [apply Hr; by right|].
    apply list_elem_of_fmap in Hin as ([n pn] & -> & Hin).
    destruct (Hnews n pn Hin) as ((dc & Hdc & ->) & _). simpl. lia.
  - rewrite fmap_app, <- app_assoc. apply NoDup_app. split_and!.
    + by apply NoDup_app in Hnd as [? _].
    + intros x Hx [Hin|Hin]%elem_of_app.
      * apply list_elem_of_fmap in Hin as ([n pn] & -> & Hin).
        destruct (Hnews n pn Hin) as (_ & _ & _ & Hk & _).
        apply Hk, Hvis. simpl. set_solver.
      * apply NoDup_app in Hnd as (_ & Hdisj & _). by apply (Hdisj x).
    + apply NoDup_app. split_and!; [done| |by apply NoDup_app in Hnd as (_ & _ & ?)].
      intros x Hin Hx.
      apply list_elem_of_fmap in Hin as ([n pn] & -> & Hin).
      destruct (Hnews n pn Hin) as (_ & _ & _ & Hk & _).
      apply Hk, Hvis. simpl. set_solver.
  - rewrite fmap_app. intros x Hx. apply Hv'.
    rewrite <- app_assoc in Hx. apply elem_of_app in Hx as [Hx|[Hx|Hx]%elem_of_app].
    + left. apply Hvis. set_solver.
    + right. by apply list_elem_of_fmap_2.
    + left. apply Hvis. set_solver.
  - apply Hv'. by left.
  - rewrite fmap_app. intros x Hx. apply Hv' in Hx as [Hx|Hx].
    + destruct (Hcl x Hx) as [[->|Hin]%elem_of_cons|[Hin|[Hlt Hclosed]]].
      * right; right. split; [lia|]. intros y (dc & Hdc & ->)%stepDown_below.
        by apply Hdone.
      * left. set_solver.
      * right; left. done.
      * right; right. split; [done|]. intros y Hs Hc Hh. apply Hv'. left.
        by apply Hclosed.
    + apply list_elem_of_fmap in Hx as (n & Hk & Hn).
      apply (inj keyOf) in Hk as ->. left. set_solver.
Qed.
End Search.

(** ** What one search returns *)

Lemma search_run grid symbol (c0 : Z) :
  isValidGrid grid = true → 0 ≤ c0 < SYMBOLS_PER_REEL →
  ∃ visited found,
    bfs grid symbol [(Coord 0 c0, [Coord 0 c0])] {[coordKey 0 c0]} [] = Ok found
    ∧ searchInv grid symbol c0 [] visited found.
Proof.
  intros Hv Hc0.
  apply (bfs_invariant grid symbol (searchInv grid symbol c0)).
  - intros. by eapply searchInv_bottom.
  - intros. by eapply searchInv_expand.
  - by apply searchInv_init.
Qed.

(** When the queue is empty, every cell a trail reaches has been visited. *)
Lemma search_reaches grid symbol (c0 : Z) visited found coord path :
  searchInv grid symbol c0 [] visited found →
  trail grid symbol (Coord 0 c0) coord path →
  row coord ≤ REEL_COUNT - 1 →
  keyOf coord ∈ visited.
Proof.
  intros [_ Hp _ _ _ Hst Hcl] Htrail.
  induction Htrail as [|x px y Htrail IH Hstep Hcol Hholds]; intros Hrow; [done|].
  assert (Hx : keyOf x ∈ visited) by (apply IH; destruct Hstep; lia).
  destruct (Hcl x Hx) as [Hin|[Hin|[_ Hclosed]]].
  - by apply elem_of_nil in Hin.
  - apply list_elem_of_omap in Hin as (p & Hpin & Hlast).
    destruct (Hp p Hpin) as (z & Hz & Hzrow).
    rewrite (trail_last _ _ _ _ _ Hz) in Hlast. injection Hlast as ->.
    destruct Hstep. lia.
  - by apply Hclosed.
Qed.

Lemma search_complete grid symbol (c0 : Z) visited found coord path :
  searchInv grid symbol c0 [] visited found →
  trail grid symbol (Coord 0 c0) coord path →
  row coord = REEL_COUNT - 1 →
  ∃ q, q ∈ found ∧ last q = Some coord.
Proof.
  intros HInv Htrail Hrow.
  assert (Hk : keyOf coord ∈ visited) by (eapply search_reaches; [done..|lia]).
  destruct (inv_closed _ _ _ _ _ _ HInv coord Hk) as [Hin|[Hin|[Hlt _]]].
  - by apply elem_of_nil in Hin.
  - apply list_elem_of_omap in Hin as (q & Hq & Hlast). eauto.
  - lia.
Qed.

Lemma ends_length grid symbol (c0 : Z) visited found :
  searchInv grid symbol c0 [] visited found → length (ends found) = length found.
Proof.
  intros [_ Hp _ _ _ _ _]. unfold ends.
  induction found as [|p found IH]; [done|]. simpl.
  destruct (Hp p) as (x & Hx & _); [by left|].
  rewrite (trail_last _ _ _ _ _ Hx). simpl. f_equal. apply IH.
  intros q Hq. apply Hp. by right.
Qed.

Lemma search_bound grid symbol (c0 : Z) visited found :
  searchInv grid symbol c0 [] visited found → (length found ≤ 6)%nat.
Proof.
  intros HInv. rewrite <- (ends_length _ _ _ _ _ HInv).
  destruct HInv as [_ Hp _ Hnd _ _ _]. simpl in Hnd.
  change 6%nat with (length ((λ c, Coord 3 c) <$> [0; 1; 2; 3; 4; 5])).
  apply submseteq_length, NoDup_submseteq; [done|].
  intros x (p & Hpin & Hlast)%list_elem_of_omap.
  destruct (Hp p Hpin) as (z & Hz & Hzrow).
  rewrite (trail_last _ _ _ _ _ Hz) in Hlast. injection Hlast as ->.
  assert (Hcol : 0 ≤ col x < SYMBOLS_PER_REEL).
  { inversion Hz; subst; [|done]. simpl in Hzrow. unfold REEL_COUNT in Hzrow. lia. }
  destruct x as [rx cx]. simpl in *. unfold REEL_COUNT in Hzrow.
  unfold SYMBOLS_PER_REEL in Hcol. replace rx with 3 by lia.
  assert (cx = 0 ∨ cx = 1 ∨ cx = 2 ∨ cx = 3 ∨ cx = 4 ∨ cx = 5) by lia.
  set_solver.
Qed.

(** ** The searches of [findAdjacencyWins] *)

Lemma forEach_append {A B} (f : A → list B) (xs : list A)
    (body : A → list B → Res (list B)) acc :
  (∀ x a, x ∈ xs → body x a = Ok (a ++ f x)) →
  forEach xs body acc = Ok (acc ++ mjoin (f <$> xs)).
Proof.
  revert acc. induction xs as [|x xs IH]; intros acc Hbody; simpl.
  - by rewrite app_nil_r.
  - rewrite Hbody by by left. cbn [mbind Res_bind]. rewrite IH.
    + by rewrite <- app_assoc.
    + intros y a Hy. apply Hbody. by right.
Qed.

Lemma newSet_elem (xs : list string) (x : string) : x ∈ newSet xs ↔ x ∈ xs.
Proof.
  unfold newSet. induction xs as [|y xs IH] using rev_ind; [done|].
  rewrite foldl_snoc. case_bool_decide as Hy.
  - rewrite IH. set_solver.
  - rewrite !elem_of_app, IH. done.
Qed.

Lemma newSet_NoDup (xs : list string) : NoDup (newSet xs).
Proof.
  unfold newSet. induction xs as [|y xs IH] using rev_ind; [constructor|].
  rewrite foldl_snoc. case_bool_decide as Hy; [done|].
  apply NoDup_app. split_and!; [done| |apply NoDup_singleton].
  intros x Hx ->%list_elem_of_singleton. done.
Qed.

Lemma filterBoolean_elem (cells : list Cell) (s : string) :
  s ∈ filterBoolean cells ↔ Some s ∈ cells ∧ s ≠ "".
Proof.
  unfold filterBoolean. rewrite list_elem_of_omap. split.
  - intros (cell & Hin & Hcell). destruct (truthy cell) eqn:Ht; [|done].
    subst cell. apply truthy_true in Ht as (s' & [= <-] & Hs). done.
  - intros [Hin Hs]. exists (Some s). split; [done|].
    simpl. by rewrite bool_decide_eq_true_2.
Qed.

Lemma flat_elem grid (r c : Z) cell :
  cellAt grid r c = Ok cell → ∃ cells, flat grid = Ok cells ∧ cell ∈ cells.
Proof.
  intros (rows & cells & -> & ? & Hr & ? & Hc)%cellAt_Ok. simpl.
  eexists. split; [done|]. apply list_elem_of_join. exists cells. split.
  - by eapply list_elem_of_lookup_2.
  - apply list_elem_of_fmap. exists (Some cells). split; [done|].
    by eapply list_elem_of_lookup_2.
Qed.

(** The paths the search from [(0, c)] for [symbol] records. *)
Definition searchResult (grid : Grid) (symbol : string) (c : Z) : list Path :=
  match bfs grid symbol [(Coord 0 c, [Coord 0 c])] {[coordKey 0 c]} [] with
  | Ok found => found
  | Throw _ => []
  end.

Lemma searchFrom_spec grid symbol (c : Z) allPaths :
  isValidGrid grid = true → 0 ≤ c < SYMBOLS_PER_REEL →
  searchFrom grid symbol c allPaths
  = Ok (allPaths ++ if decide (holds grid symbol (Coord 0 c))
                    then searchResult grid symbol c else []).
Proof.
  intros Hv Hc. unfold searchFrom, searchResult.
  destruct (valid_cellAt grid 0 c Hv) as [cell Hcell]; [done..|].
  rewrite Hcell. cbn [mbind Res_bind].
  destruct (search_run grid symbol c Hv Hc) as (visited & found & Hrun & _).
  case_bool_decide as Hs.
  - subst cell. rewrite decide_True by done.
    rewrite <- (app_nil_r allPaths) at 1. rewrite bfs_acc, Hrun. done.
  - rewrite decide_False; [by rewrite app_nil_r|].
    unfold holds. simpl. congruence.
Qed.

Lemma findAdjacencyWins_spec grid :
  isValidGrid grid = true →
  ∃ raw, findAdjacencyWins grid = Ok raw ∧
    ∀ p, p ∈ raw ↔
      ∃ symbol c, symbol ≠ "" ∧ 0 ≤ c < SYMBOLS_PER_REEL
        ∧ holds grid symbol (Coord 0 c) ∧ p ∈ searchResult grid symbol c.
Proof.
  intros Hv. unfold findAdjacencyWins.
  destruct (valid_cellAt grid 0 0 Hv) as [cell0 Hcell0]; [done..|].
  destruct (flat_elem _ _ _ _ Hcell0) as (cells & Hflat & _).
  rewrite Hflat. cbn [mbind Res_bind].
  change (seqZ 0 SYMBOLS_PER_REEL) with [0; 1; 2; 3; 4; 5].
  rewrite (forEach_append
    (λ symbol, mjoin ((λ c, if decide (holds grid symbol (Coord 0 c))
                            then searchResult grid symbol c else [])
                      <$> [0; 1; 2; 3; 4; 5]))).
  2:{ intros symbol a _.
      apply (forEach_append (λ c, if decide (holds grid symbol (Coord 0 c))
                                  then searchResult grid symbol c else [])).
      intros c a' Hc. apply searchFrom_spec; [done|].
      unfold SYMBOLS_PER_REEL. set_solver by lia. }
  eexists. split; [done|]. intros p. rewrite app_nil_l. split.
  - intros (ps & Hp & (symbol & -> & Hsym)%list_elem_of_fmap)%list_elem_of_join.
    apply list_elem_of_join in Hp as (ps' & Hp & (c & -> & Hc)%list_elem_of_fmap).
    case_decide as Hh; [|by apply elem_of_nil in Hp].
    exists symbol, c. split_and!; try done.
    + apply newSet_elem, filterBoolean_elem in Hsym. tauto.
    + unfold SYMBOLS_PER_REEL. set_solver by lia.
    + unfold SYMBOLS_PER_REEL. set_solver by lia.
  - intros (symbol & c & Hs & Hc & Hh & Hp).
    apply list_elem_of_join. eexists. split; [|apply list_elem_of_fmap_2].
    + apply list_elem_of_join. eexists. split; [|apply (list_elem_of_fmap_2 _ _ c)].
      * cbv beta. by rewrite decide_True.
      * unfold SYMBOLS_PER_REEL in Hc.
        assert (c = 0 ∨ c = 1 ∨ c = 2 ∨ c = 3 ∨ c = 4 ∨ c = 5) by lia. set_solver.
    + apply newSet_elem, filterBoolean_elem. split; [|done].
      destruct (flat_elem _ _ _ _ Hh) as (cells' & Hflat' & Hin). simpl in *. congruence.
Qed.

(** ** Trails are the connecting paths *)

Lemma stepsDown_snoc p x y :
  stepsDown p → last p = Some x → stepDown x y → stepsDown (p ++ [y]).
Proof.
  induction p as [|a [|b p] IH]; simpl.
  - done.
  - intros _ [= ->] Hs. done.
  - intros [Hab Hp] Hl Hs. split; [done|]. by apply IH.
Qed.

Lemma trail_cons grid symbol a b x path :
  trail grid symbol b x path →
  stepDown a b → 0 ≤ col b < SYMBOLS_PER_REEL → holds grid symbol b →
  trail grid symbol a x (a :: path).
Proof.
  intros Ht Hs Hc Hh. induction Ht as [|x path y Ht IH Hxy Hcy Hhy].
  - apply (trail_step _ _ _ a [a] b); [constructor|done..].
  - apply (trail_step _ _ _ x (a :: path) y); done.
Qed.

Lemma stepsDown_trail grid symbol a rest :
  stepsDown (a :: rest) →
  (∀ q, q ∈ rest → 0 ≤ col q < SYMBOLS_PER_REEL ∧ holds grid symbol q) →
  ∃ x, trail grid symbol a x (a :: rest).
Proof.
  revert a. induction rest as [|b rest IH]; intros a Hs Hall.
  - exists a. constructor.
  - destruct Hs as [Hab Hs]. destruct (IH b Hs) as [x Hx].
    { intros q Hq. apply Hall. by right. }
    exists x. destruct (Hall b) as [Hc Hh]; [by left|].
    by eapply trail_cons.
Qed.

Lemma trail_steps grid symbol start x path :
  trail grid symbol start x path →
  stepsDown path
  ∧ ∀ q, q ∈ path → q = start ∨ (0 ≤ col q < SYMBOLS_PER_REEL ∧ holds grid symbol q).
Proof.
  induction 1 as [|x path y Ht [IHs IHq] Hstep Hcol Hholds].
  - split; [done|]. intros q ->%list_elem_of_singleton. by left.
  - split.
    + eapply stepsDown_snoc; [done| |done]. by eapply trail_last.
    + intros q [Hq|Hq]%elem_of_app; [by apply IHq|].
      apply list_elem_of_singleton in Hq as ->. by right.
Qed.

Lemma trail_connecting grid symbol (c0 : Z) x path :
  trail grid symbol (Coord 0 c0) x path →
  row x = REEL_COUNT - 1 → 0 ≤ c0 < SYMBOLS_PER_REEL →
  holds grid symbol (Coord 0 c0) → symbol ≠ "" →
  connectingPath grid path.
Proof.
  intros Ht Hrow Hc0 Hh0 Hsym. destruct (trail_steps _ _ _ _ _ Ht) as [Hs Hq].
  exists (Coord 0 c0), x. split_and!; try done.
  - by eapply trail_head.
  - by eapply trail_last.
  - intros q Hin.
    destruct (Hq q Hin) as [->|[? _]]; simpl; unfold SYMBOLS_PER_REEL in *; lia.
  - exists symbol. split; [done|]. intros q Hin. by destruct (Hq q Hin) as [->|[_ ?]].
Qed.

Lemma connecting_trail grid path :
  connectingPath grid path →
  ∃ symbol c0 x,
    symbol ≠ "" ∧ 0 ≤ c0 < SYMBOLS_PER_REEL ∧ holds grid symbol (Coord 0 c0)
    ∧ trail grid symbol (Coord 0 c0) x path ∧ row x = REEL_COUNT - 1.
Proof.
  intros (a & b & Hhead & Hlast & Ha & Hb & Hs & Hcols & (symbol & Hsym & Hall)).
  destruct path as [|a' rest]; [done|]. injection Hhead as ->.
  destruct (stepsDown_trail grid symbol a rest Hs) as [x Hx].
  { intros q Hq. split; [|apply Hall; by right].
    specialize (Hcols q ltac:(by right)). lia. }
  rewrite (trail_last _ _ _ _ _ Hx) in Hlast. injection Hlast as ->.
  destruct a as [ra ca]. simpl in Ha. subst ra.
  exists symbol, ca, b. split_and!; try done.
  - specialize (Hcols (Coord 0 ca) ltac:(by left)). simpl in Hcols. lia.
  - specialize (Hcols (Coord 0 ca) ltac:(by left)). simpl in Hcols. lia.
  - apply Hall. by left.
Qed.

(** ** Shape of a connecting path *)

Lemma stepsDown_rows p a :
  head p = Some a → stepsDown p →
  ∀ i q, p !! i = Some q → row q = row a + Z.of_nat i.
Proof.
  revert a. induction p as [|a' p IH]; intros a Hhead Hs i q Hi; [done|].
  injection Hhead as ->. destruct i as [|i]; simpl in Hi.
  - injection Hi as ->. lia.
  - destruct p as [|b p]; [done|]. destruct Hs as [[Hab _] Hs].
    rewrite (IH b eq_refl Hs i q Hi). lia.
Qed.

Lemma stepsDown_Sorted p : stepsDown p → Sorted coordLe p.
Proof.
  induction p as [|a [|b p] IH]; intros Hs.
  - constructor.
  - by repeat constructor.
  - destruct Hs as [[Hab _] Hs]. constructor; [by apply IH|].
    constructor. apply coordLe_lex. lia.
Qed.

Lemma stepsDown_NoDup p : stepsDown p → NoDup p.
Proof.
  intros Hs. destruct p as [|a p]; [constructor|].
  apply NoDup_alt. intros i j x Hi Hj.
  pose proof (stepsDown_rows (a :: p) a eq_refl Hs i x Hi).
  pose proof (stepsDown_rows (a :: p) a eq_refl Hs j x Hj). lia.
Qed.

Lemma connecting_shape grid p :
  connectingPath grid p →
  stepsDown p ∧ nonneg p ∧ NoDup p ∧ Sorted coordLe p ∧ length p = 4%nat.
Proof.
  intros (a & b & Hhead & Hlast & Ha & Hb & Hs & Hcols & _).
  split_and!; [done| |by apply stepsDown_NoDup|by apply stepsDown_Sorted|].
  - apply Forall_forall. intros q Hq. split; [|by apply Hcols].
    apply list_elem_of_lookup in Hq as [i Hi].
    rewrite (stepsDown_rows _ _ Hhead Hs i q Hi). lia.
  - rewrite last_lookup in Hlast.
    pose proof (stepsDown_rows _ _ Hhead Hs _ _ Hlast) as Hrow.
    destruct p; [done|]. simpl in *. unfold REEL_COUNT in Hb. lia.
Qed.

Lemma connecting_key_inj grid p q :
  connectingPath grid p → connectingPath grid q → pathKey p = pathKey q → p = q.
Proof.
  intros (_ & Hnp & _ & Hsp & _)%connecting_shape (_ & Hnq & _ & Hsq & _)%connecting_shape Hk.
  apply (Sorted_unique coordLe); [done..|]. by apply pathKey_Permutation.
Qed.

Lemma dedupePaths_elem grid (paths : list Path) (p : Path) :
  (∀ q, q ∈ paths → connectingPath grid q) →
  p ∈ dedupePaths paths ↔ p ∈ paths.
Proof.
  intros Hall. split; [apply dedupePaths_subset|]. intros Hp.
  assert (Hk : pathKey p ∈ pathKey <$> dedupePaths paths).
  { apply dedupePaths_keys. by apply list_elem_of_fmap_2. }
  apply list_elem_of_fmap in Hk as (q & Hk & Hq).
  assert (q = p) as <-; [|done].
  apply (connecting_key_inj grid); [apply Hall; by apply dedupePaths_subset|by apply Hall|done].
Qed.

(** ** The raw adjacency results *)

(** The adjacency results before the shape filter and the deduplication. *)
Definition rawAdjacency (grid : Grid) : list Path :=
  match findAdjacencyWins grid with
  | Ok raw => raw
  | Throw _ => []
  end.

Lemma findAdjacencyWins_raw grid :
  isValidGrid grid = true → findAdjacencyWins grid = Ok (rawAdjacency grid).
Proof.
  intros Hv. unfold rawAdjacency.
  by destruct (findAdjacencyWins_spec grid Hv) as (raw & -> & _).
Qed.

Lemma rawAdjacency_elem grid p :
  isValidGrid grid = true →
  p ∈ rawAdjacency grid ↔
  ∃ symbol c, symbol ≠ "" ∧ 0 ≤ c < SYMBOLS_PER_REEL
    ∧ holds grid symbol (Coord 0 c) ∧ p ∈ searchResult grid symbol c.
Proof.
  intros Hv. unfold rawAdjacency.
  destruct (findAdjacencyWins_spec grid Hv) as (raw & -> & Hraw). apply Hraw.
Qed.

Lemma searchResult_inv grid symbol (c : Z) :
  isValidGrid grid = true → 0 ≤ c < SYMBOLS_PER_REEL →
  ∃ visited, searchInv grid symbol c [] visited (searchResult grid symbol c).
Proof.
  intros Hv Hc. destruct (search_run grid symbol c Hv Hc) as (visited & found & Hrun & HInv).
  exists visited. unfold searchResult. by rewrite Hrun.
Qed.

(** Every raw adjacency result is a connecting path. *)
Lemma rawAdjacency_connecting grid p :
  isValidGrid grid = true → p ∈ rawAdjacency grid → connectingPath grid p.
Proof.
  intros Hv (symbol & c & Hs & Hc & Hh & Hp)%rawAdjacency_elem; [|done].
  destruct (searchResult_inv grid symbol c Hv Hc) as [visited HInv].
  destruct (inv_paths _ _ _ _ _ _ HInv p Hp) as (x & Hx & Hrow).
  by eapply trail_connecting.
Qed.

(** For every connecting path, a path with the same first and last cell is
    among the raw adjacency results. *)
Lemma rawAdjacency_reaches grid p :
  isValidGrid grid = true → connectingPath grid p →
  ∃ q, q ∈ rawAdjacency grid ∧ head q = head p ∧ last q = last p.
Proof.
  intros Hv (symbol & c & x & Hs & Hc & Hh & Ht & Hrow)%connecting_trail.
  destruct (searchResult_inv grid symbol c Hv Hc) as [visited HInv].
  destruct (search_complete _ _ _ _ _ _ _ HInv Ht Hrow) as (q & Hq & Hlast).
  exists q. split_and!.
  - apply rawAdjacency_elem; [done|]. exists symbol, c. done.
  - destruct (inv_paths _ _ _ _ _ _ HInv q Hq) as (y & Hy & _).
    by rewrite (trail_head _ _ _ _ _ Hy), (trail_head _ _ _ _ _ Ht).
  - by rewrite Hlast, (trail_last _ _ _ _ _ Ht).
Qed.

(** ** The shape predicate *)

Lemma constantSteps_spec (d : Z) prev rest :
  stepsDown (prev :: rest) →
  constantSteps d prev rest = true ↔ stepsBy d (prev :: rest).
Proof.
  revert prev. induction rest as [|b rest IH]; intros prev Hs; [done|].
  destruct Hs as [[Hrow _] Hs]. cbn [constantSteps stepsBy].
  rewrite (bool_decide_eq_false_2 (row b - row prev ≠ 1)) by lia. cbn [orb].
  case_bool_decide as Hd.
  - split; [done|]. by intros [? _].
  - rewrite IH by done. split; [done|]. by intros [_ ?].
Qed.

Lemma isStraightOrDiagonalPath_spec p :
  stepsDown p →
  isStraightOrDiagonalPath p = true ↔ (length p ≤ 1)%nat ∨ constantDelta p.
Proof.
  intros Hs. destruct p as [|a [|b rest]].
  - split; [left; simpl; lia|done].
  - split; [left; simpl; lia|done].
  - cbn [isStraightOrDiagonalPath]. destruct Hs as [_ Hs].
    rewrite constantSteps_spec by done. split.
    + intros Hby. right. exists (col b - col a). done.
    + intros [Hlen|[d [Hd Hby]]]; [simpl in Hlen; lia|]. by rewrite Hd.
Qed.

(** ** [computeWins] on a valid grid *)

Lemma lines_keys_NoDup :
  NoDup (pathKey <$> ((rowPath <$> [0; 1; 2; 3]) ++ (colPath <$> [0; 1; 2; 3; 4; 5]))).
Proof. by apply (bool_decide_unpack _); vm_compute. Qed.

Lemma diagonals_keys_NoDup :
  NoDup (pathKey <$> ((diagRight <$> [0; 1; 2]) ++ (diagLeft <$> [5; 4; 3]))).
Proof. by apply (bool_decide_unpack _); vm_compute. Qed.

Lemma dedupePaths_filter (P : Path → Prop) `{∀ p, Decision (P p)} (paths : list Path) :
  NoDup (pathKey <$> paths) → dedupePaths (filter P paths) = filter P paths.
Proof.
  intros Hnd. apply dedupePaths_id. eapply sublist_NoDup; [exact Hnd|].
  apply fmap_sublist, sublist_filter.
Qed.

Lemma computeWins_valid grid :
  isValidGrid grid = true →
  computeWins grid
  = Ok ([], Wins
      (filter (sharedSymbol grid) (rowPath <$> [0; 1; 2; 3])
       ++ filter (sharedSymbol grid) (colPath <$> [0; 1; 2; 3; 4; 5]))
      (filter (sharedSymbol grid) ((diagRight <$> [0; 1; 2]) ++ (diagLeft <$> [5; 4; 3])))
      (dedupePaths (filter (λ p, negb (isStraightOrDiagonalPath p)) (rawAdjacency grid)))).
Proof.
  intros Hv. unfold computeWins. rewrite Hv. cbn [negb].
  rewrite findHorizontalWins_spec, findVerticalWins_spec, findDiagonalWins_spec,
    findAdjacencyWins_raw by done.
  cbn [mbind Res_bind]. do 3 f_equal.
  - rewrite <- filter_app. apply dedupePaths_filter, lines_keys_NoDup.
  - apply dedupePaths_filter, diagonals_keys_NoDup.
Qed.

Lemma computeWins_Ok grid : ∃ log w, computeWins grid = Ok (log, w).
Proof.
  destruct (isValidGrid grid) eqn:Hv.
  - rewrite computeWins_valid by done. eauto.
  - unfold computeWins. rewrite Hv. simpl. eauto.
Qed.

Lemma fmap_Some_omap {A B} (f : A → option B) (l : list A) :
  (∀ x, x ∈ l → is_Some (f x)) → f <$> l = Some <$> omap f l.
Proof.
  induction l as [|a l IH]; intros Hall; [done|]. simpl.
  destruct (Hall a) as [b Hb]; [by left|]. rewrite Hb. simpl. f_equal.
  apply IH. intros x Hx. apply Hall. by right.
Qed.

Lemma tryNeighbour_enqueues grid symbol coord path dc visited queue visited' queue' :
  tryNeighbour grid symbol coord path dc (visited, queue) = Ok (visited', queue') →
  (visited' = visited ∧ queue' = queue)
  ∨ ((keyOf (below coord dc) ∉ visited)
     ∧ visited' = {[keyOf (below coord dc)]} ∪ visited
     ∧ queue' = queue ++ [(below coord dc, path ++ [below coord dc])]).
Proof.
  unfold tryNeighbour. cbn [fst snd].
  destruct (_ && _) eqn:Hg; [|intros [= <- <-]; by left].
  apply andb_prop in Hg as [_ Hk%bool_decide_eq_true].
  destruct (cellAt _ _ _) as [cell|]; [|done]. cbn [mbind Res_bind].
  case_bool_decide; intros [= <- <-]; [right|left]; done.
Qed.

Lemma dedupePaths_keepsFirst : keepsFirstOccurrence dedupePaths.
Proof.
  split; [done|]. intros paths p Hwf. rewrite dedupePaths_snoc.
  destruct (Hwf p) as [Hnp Hdp]; [set_solver|].
  case_decide as Hk; case_decide as Hex; try done.
  - exfalso. apply Hex. apply list_elem_of_fmap in Hk as (q & Hk & Hq).
    apply Exists_exists. exists q. split; [done|].
    destruct (Hwf q) as [Hnq Hdq]; [set_solver|].
    by apply pathKey_sameCoords.
  - exfalso. apply Hk. apply Exists_exists in Hex as (q & Hq & Hsame).
    destruct (Hwf q) as [Hnq Hdq]; [set_solver|].
    apply list_elem_of_fmap. exists q. split; [|done].
    by apply pathKey_sameCoords.
Qed.

Lemma sameCoords_eq p q :
  NoDup p → NoDup q → Sorted coordLe p → Sorted coordLe q → sameCoords p q → p = q.
Proof.
  intros Hdp Hdq Hsp Hsq Hsame. apply (Sorted_unique coordLe); [done..|].
  by apply NoDup_Permutation.
Qed.

(** The ten lines and the six diagonals the scans can report. *)
Definition fixedLines : list Path :=
  (rowPath <$> [0; 1; 2; 3]) ++ (colPath <$> [0; 1; 2; 3; 4; 5]).

Definition fixedDiagonals : list Path :=
  (diagRight <$> [0; 1; 2]) ++ (diagLeft <$> [5; 4; 3]).

Lemma fixed_wellformed :
  Forall (λ p, NoDup p ∧ Sorted coordLe p ∧ Forall (λ x, 0 ≤ row x ∧ 0 ≤ col x) p)
         (fixedLines ++ fixedDiagonals).
Proof. by apply (bool_decide_unpack _); vm_compute. Qed.

Lemma fixed_disjoint : Forall (λ p, p ∉ fixedDiagonals) fixedLines.
Proof. by apply (bool_decide_unpack _); vm_compute. Qed.

Lemma fixed_constantDelta p :
  p ∈ fixedLines ++ fixedDiagonals → length p = 4%nat → constantDelta p.
Proof.
  intros Hp Hlen. unfold fixedLines, fixedDiagonals in Hp. simpl in Hp.
  each_elem Hp ltac:(first [done | by exists 0 | by exists 1 | by exists (-1)]).
Qed.

Lemma adjacency_not_fixed grid p q :
  isValidGrid grid = true →
  p ∈ fixedLines ++ fixedDiagonals →
  q ∈ dedupePaths (filter (λ p, negb (isStraightOrDiagonalPath p)) (rawAdjacency grid)) →
  ¬ sameCoords p q.
Proof.
  intros Hv Hp Hq Hsame.
  apply dedupePaths_subset, list_elem_of_filter in Hq as [Hns Hq].
  pose proof (rawAdjacency_connecting grid q Hv Hq) as Hconn.
  destruct (connecting_shape grid q Hconn) as (Hsteps & _ & Hdq & Hsq & Hlen).
  pose proof fixed_wellformed as Hwf. rewrite Forall_forall in Hwf.
  destruct (Hwf p Hp) as (Hdp & Hsp & _).
  assert (p = q) as -> by by apply sameCoords_eq.
  assert (Hstraight : isStraightOrDiagonalPath q = true).
  { apply isStraightOrDiagonalPath_spec; [done|]. right. by apply fixed_constantDelta. }
  rewrite Hstraight in Hns. done.
Qed.

Lemma distinct_by_keys (l : list Path) :
  NoDup (pathKey <$> l) → (∀ p, p ∈ l → nonneg p ∧ NoDup p) → distinctByCoords l.
Proof.
  intros Hnd Hwf i j p q Hi Hj Hsame.
  destruct (Hwf p) as [Hnp Hdp]; [by eapply list_elem_of_lookup_2|].
  destruct (Hwf q) as [Hnq Hdq]; [by eapply list_elem_of_lookup_2|].
  apply (NoDup_lookup _ i j (pathKey p) Hnd); rewrite list_lookup_fmap.
  - by rewrite Hi.
  - rewrite Hj. simpl. f_equal. symmetry. by apply pathKey_sameCoords.
Qed.

(** ** The tests of the repository, run on the embedding *)

Example rowWinGrid_wins :
  computeWins rowWinGrid = Ok ([], Wins [rowPath 0] [] []).
Proof. by vm_compute. Qed.

Example columnWinGrid_wins :
  computeWins columnWinGrid = Ok ([], Wins [colPath 0] [] []).
Proof. by vm_compute. Qed.

Example diagonalWinGrid_wins :
  computeWins diagonalWinGrid = Ok ([], Wins [] [diagRight 0] []).
Proof. by vm_compute. Qed.

Example zigzagGrid_wins :
  computeWins zigzagGrid
  = Ok ([], Wins [] []
      [[Coord 0 0; Coord 1 1; Coord 2 2; Coord 3 1];
       [Coord 0 2; Coord 1 1; Coord 2 2; Coord 3 1];
       [Coord 0 1; Coord 1 2; Coord 2 1; Coord 3 2]]).
Proof. by vm_compute. Qed.

Example straightZGrid_wins :
  computeWins straightZGrid = Ok ([], Wins [colPath 1] [] []).
Proof. by vm_compute. Qed.

Example twoRowsGrid_checkWin :
  checkWin twoRowsGrid
  = Ok ([], CheckWin [rowPath 0; rowPath 1] (Wins [rowPath 0; rowPath 1] [] [])).
Proof. by vm_compute. Qed.

Example raggedGrid_checkWin :
  checkWin raggedGrid
  = Ok (["Invalid grid provided."%string], CheckWin [] (Wins [] [] [])).
Proof. by vm_compute. Qed.

(** ** Further lemmas on [dedupePaths] *)

Lemma dedupePaths_sublist (paths : list Path) : sublist (dedupePaths paths) paths.
Proof.
  induction paths as [|p paths IH] using rev_ind; [by rewrite dedupePaths_nil|].
  rewrite dedupePaths_snoc. case_decide.
  - by apply sublist_inserts_r.
  - by apply sublist_app.
Qed.

Lemma pathKey_reordered (p q : Path) : p ≡ₚ q → pathKey p = pathKey q.
Proof.
  intros Hpq. unfold pathKey. by rewrite (proj2 (sort_Permutation_eq p q) Hpq).
Qed.

(** ** Lines through the grid *)

Lemma colPath_connecting grid (c : Z) :
  0 ≤ c < SYMBOLS_PER_REEL → sharedSymbol grid (colPath c) → connectingPath grid (colPath c).
Proof.
  intros Hc Hs. exists (Coord 0 c), (Coord 3 c). split_and!; try done.
  - simpl. unfold stepDown. simpl. lia.
  - intros q Hq. unfold SYMBOLS_PER_REEL in *. each_elem Hq ltac:(simpl; lia).
Qed.

Lemma diagRight_connecting grid (c : Z) :
  0 ≤ c ≤ 2 → sharedSymbol grid (diagRight c) → connectingPath grid (diagRight c).
Proof.
  intros Hc Hs. exists (Coord 0 c), (Coord 3 (c + 3)). split_and!; try done.
  - simpl. unfold stepDown. simpl. lia.
  - intros q Hq. unfold SYMBOLS_PER_REEL in *. each_elem Hq ltac:(simpl; lia).
Qed.

Lemma diagLeft_connecting grid (c : Z) :
  3 ≤ c ≤ 5 → sharedSymbol grid (diagLeft c) → connectingPath grid (diagLeft c).
Proof.
  intros Hc Hs. exists (Coord 0 c), (Coord 3 (c - 3)). split_and!; try done.
  - simpl. unfold stepDown. simpl. lia.
  - intros q Hq. unfold SYMBOLS_PER_REEL in *. each_elem Hq ltac:(simpl; lia).
Qed.

Lemma connecting_bounds grid p x :
  connectingPath grid p → x ∈ p →
  0 ≤ row x < REEL_COUNT ∧ 0 ≤ col x < SYMBOLS_PER_REEL.
Proof.
  intros Hp Hx. pose proof (connecting_shape _ _ Hp) as (Hs & _ & _ & _ & Hlen).
  destruct Hp as (a & b & Ha & _ & Hra & _ & _ & Hcols & _).
  split; [|specialize (Hcols _ Hx); lia].
  apply list_elem_of_lookup in Hx as [i Hi].
  pose proof (lookup_lt_Some _ _ _ Hi) as Hlt.
  rewrite (stepsDown_rows _ _ Ha Hs _ _ Hi). unfold REEL_COUNT. lia.
Qed.

Lemma rowPath_bounds (r : Z) x :
  0 ≤ r < REEL_COUNT → x ∈ rowPath r →
  0 ≤ row x < REEL_COUNT ∧ 0 ≤ col x < SYMBOLS_PER_REEL.
Proof.
  intros Hr Hx. unfold SYMBOLS_PER_REEL. each_elem Hx ltac:(simpl; lia).
Qed.


(** ** What [checkWin] reports *)

Definition adjacencyOf (grid : Grid) : list Path :=
  dedupePaths (filter (λ p, negb (isStraightOrDiagonalPath p)) (rawAdjacency grid)).

Lemma checkWin_valid grid :
  isValidGrid grid = true →
  checkWin grid
  = Ok ([], CheckWin
      ((filter (sharedSymbol grid) (rowPath <$> [0; 1; 2; 3])
        ++ filter (sharedSymbol grid) (colPath <$> [0; 1; 2; 3; 4; 5]))
       ++ filter (sharedSymbol grid) fixedDiagonals ++ adjacencyOf grid)
      (Wins
        (filter (sharedSymbol grid) (rowPath <$> [0; 1; 2; 3])
         ++ filter (sharedSymbol grid) (colPath <$> [0; 1; 2; 3; 4; 5]))
        (filter (sharedSymbol grid) fixedDiagonals)
        (adjacencyOf grid))).
Proof. intros Hv. unfold checkWin. by rewrite (computeWins_valid _ Hv). Qed.

Lemma checkWin_invalid grid :
  isValidGrid grid = false →
  checkWin grid = Ok (["Invalid grid provided."%string], CheckWin [] (Wins [] [] [])).
Proof. intros Hv. unfold checkWin, computeWins. by rewrite Hv. Qed.

Lemma adjacencyOf_elem grid p :
  isValidGrid grid = true →
  p ∈ adjacencyOf grid ↔ p ∈ rawAdjacency grid ∧ isStraightOrDiagonalPath p = false.
Proof.
  intros Hv. unfold adjacencyOf. rewrite (dedupePaths_elem grid).
  - rewrite list_elem_of_filter. destruct (isStraightOrDiagonalPath p); simpl; naive_solver.
  - intros q [_ Hq]%list_elem_of_filter. by apply rawAdjacency_connecting.
Qed.

Lemma connecting_sharedSymbol grid p : connectingPath grid p → sharedSymbol grid p.
Proof. by intros (a & b & _ & _ & _ & _ & _ & _ & Hs). Qed.

Lemma fixedDiagonals_connecting grid p :
  p ∈ fixedDiagonals → sharedSymbol grid p → connectingPath grid p.
Proof.
  intros Hp Hs. unfold fixedDiagonals in Hp. simpl in Hp.
  each_elem Hp ltac:(first [by apply diagRight_connecting; [lia|]
                           | by apply diagLeft_connecting; [lia|]]).
Qed.

(** Every reported path is a full row or a connecting path of the grid. *)
Lemma reported_path grid p :
  isValidGrid grid = true →
  p ∈ (filter (sharedSymbol grid) (rowPath <$> [0; 1; 2; 3])
        ++ filter (sharedSymbol grid) (colPath <$> [0; 1; 2; 3; 4; 5]))
       ++ filter (sharedSymbol grid) fixedDiagonals ++ adjacencyOf grid →
  sharedSymbol grid p
  ∧ ((∃ r, 0 ≤ r < REEL_COUNT ∧ p = rowPath r) ∨ connectingPath grid p).
Proof.
  intros Hv. rewrite !elem_of_app, !list_elem_of_filter, (adjacencyOf_elem _ _ Hv).
  intros [[[Hs Hp]|[Hs Hp]]|[[Hs Hp]|[Hp _]]].
  - split; [done|]. left. simpl in Hp. unfold REEL_COUNT.
    each_elem Hp ltac:(eexists; split; [|reflexivity]; lia).
  - split; [done|]. right. simpl in Hp. unfold SYMBOLS_PER_REEL.
    each_elem Hp ltac:(by apply colPath_connecting; [unfold SYMBOLS_PER_REEL; lia|]).
  - split; [done|]. right. by apply fixedDiagonals_connecting.
  - apply (rawAdjacency_connecting _ _ Hv) in Hp.
    split; [by apply connecting_sharedSymbol|by right].
Qed.


(** ** Numbers drawn *)

Lemma Qfloor_range (x : Q) (lo hi : Z) :
  (inject_Z lo <= x < inject_Z hi)%Q → lo ≤ Qfloor x < hi.
Proof.
  intros [Hlo Hhi]. split.
  - rewrite <- (Qfloor_Z lo). by apply Qfloor_resp_le.
  - rewrite Zlt_Qlt. eapply Qle_lt_trans; [apply Qfloor_le|done].
Qed.

Lemma floorMul_range (u : Q) (n : Z) :
  (0 <= u < 1)%Q → 0 < n → 0 ≤ floorMul u n < n.
Proof.
  intros [H0 H1] Hn. apply Qfloor_range. split.
  - apply Qmult_le_0_compat; [done|]. change 0%Q with (inject_Z 0). rewrite <- Zle_Qle. lia.
  - rewrite <- (Qmult_1_l (inject_Z n)) at 2. apply Qmult_lt_compat_r; [|done].
    change 0%Q with (inject_Z 0). rewrite <- Zlt_Qlt. lia.
Qed.


Lemma cycle_unitInterval (l : list Q) :
  l ≠ [] → forallb (λ u, bool_decide (0 <= Qnum u)%Z && bool_decide (Qnum u < Zpos (Qden u))%Z) l = true →
  unitInterval (cycle l).
Proof.
  intros Hl Hall k. unfold cycle.
  assert (k mod length l < length l)%nat as Hlt.
  { apply Nat.mod_upper_bound. by destruct l. }
  rewrite forallb_forall in Hall.
  specialize (Hall (nth (k mod length l) l 0%Q) (nth_In _ _ Hlt)).
  apply andb_prop in Hall as [Ha Hb].
  apply bool_decide_eq_true in Ha, Hb.
  destruct (nth (k mod length l) l 0%Q) as [a d]. simpl in *.
  unfold Qle, Qlt. simpl. lia.
Qed.

(** ** Running a computation *)

Lemma run_bind {A B} (m : Gen A) (f : A → Gen B) rnd w a w1 :
  m rnd w = Done a w1 → (m ≫= f) rnd w = f a rnd w1.
Proof. intros H. unfold mbind, Gen_bind. by rewrite H. Qed.


Lemma run_random {B} (f : Q → Gen B) rnd w :
  (mathRandom ≫= f) rnd w = f (rnd (drawn w)) rnd (MkWorld (S (drawn w)) (console w)).
Proof. done. Qed.

Lemma run_at {A} (xs : list A) (i : Z) x rnd w :
  0 ≤ i → xs !! Z.to_nat i = Some x → at_ xs i rnd w = Done x w.
Proof.
  intros Hi Hx. unfold at_, nthZ. rewrite bool_decide_eq_true_2 by done. by rewrite Hx.
Qed.

Lemma run_setCell (grid : list (list string)) (r c : Z) v cells rnd w :
  0 ≤ r → grid !! Z.to_nat r = Some cells → 0 ≤ c < Z.of_nat (length cells) →
  setCell grid r c v rnd w
  = Done (<[Z.to_nat r := <[Z.to_nat c := v]> cells]> grid) w.
Proof.
  intros Hr Hcells Hc. unfold setCell.
  rewrite (run_bind _ _ _ _ _ _ (run_at _ _ _ _ _ Hr Hcells)).
  by rewrite bool_decide_eq_true_2.
Qed.

(** A loop keeps an invariant that each of its rounds keeps. *)
Lemma forEachG_inv {A St} (Inv : nat → St → World → Prop) (xs : list A)
    (body : A → St → Gen St) rnd s w :
  Inv 0%nat s w →
  (∀ i x s w, xs !! i = Some x → Inv i s w →
     ∃ s' w', body x s rnd w = Done s' w' ∧ Inv (S i) s' w') →
  ∃ s' w', forEachG xs body s rnd w = Done s' w' ∧ Inv (length xs) s' w'.
Proof.
  revert Inv s w. induction xs as [|x xs IH]; intros Inv s w H0 Hstep.
  - by exists s, w.
  - destruct (Hstep 0%nat x s w eq_refl H0) as (s1 & w1 & Hrun & H1).
    destruct (IH (λ i, Inv (S i)) s1 w1 H1) as (s2 & w2 & Hrun2 & H2).
    { intros i y s' w' Hy. by apply (Hstep (S i)). }
    exists s2, w2. simpl. by rewrite (run_bind _ _ _ _ _ _ Hrun).
Qed.

(** [loop_inv Inv]: the loop of the goal is run with the invariant [Inv]. *)
Ltac loop_inv Inv :=
  match goal with
  | |- context [forEachG ?xs ?body ?s ?rnd ?w] =>
      let s' := fresh "s" in
      let w' := fresh "w" in
      let Hrun := fresh "Hrun" in
      let Hinv := fresh "Hinv" in
      destruct (forEachG_inv Inv xs body rnd s w) as (s' & w' & Hrun & Hinv);
      [| |rewrite Hrun]
  end.

(** ** Grids under construction *)

Lemma rect_lookup rows cols g (r : Z) :
  rect rows cols g → 0 ≤ r < rows →
  ∃ cells, g !! Z.to_nat r = Some cells ∧ Z.of_nat (length cells) = cols.
Proof.
  intros [Hlen Hall] Hr.
  destruct (lookup_lt_is_Some_2 g (Z.to_nat r)) as [cells Hcells]; [lia|].
  exists cells. split; [done|]. rewrite Forall_forall in Hall. apply Hall.
  by eapply list_elem_of_lookup_2.
Qed.

Lemma rect_insert rows cols g (r c : Z) cells v :
  rect rows cols g → g !! Z.to_nat r = Some cells →
  rect rows cols (<[Z.to_nat r := <[Z.to_nat c := v]> cells]> g).
Proof.
  intros [Hlen Hall] Hcells. split; [by rewrite length_insert|].
  apply Forall_insert; [done|]. rewrite length_insert.
  rewrite Forall_forall in Hall. apply Hall. by eapply list_elem_of_lookup_2.
Qed.

Lemma cellOf_insert g (r c r' c' : Z) cells v :
  0 ≤ r → 0 ≤ c < Z.of_nat (length cells) → g !! Z.to_nat r = Some cells →
  cellOf (<[Z.to_nat r := <[Z.to_nat c := v]> cells]> g) r' c'
  = if decide (r' = r ∧ c' = c) then Some v else cellOf g r' c'.
Proof.
  intros Hr Hc Hcells. unfold cellOf, nthZ.
  pose proof (lookup_lt_Some _ _ _ Hcells) as Hlt.
  destruct (decide (0 ≤ r')) as [Hr'|Hr'];
    [rewrite !(bool_decide_eq_true_2 (0 ≤ r')) by done
    |rewrite !(bool_decide_eq_false_2 (0 ≤ r')) by done; by rewrite decide_False by lia].
  destruct (decide (0 ≤ c')) as [Hc'|Hc'];
    [rewrite !(bool_decide_eq_true_2 (0 ≤ c')) by done
    |rewrite !(bool_decide_eq_false_2 (0 ≤ c')) by done].
  2: { rewrite decide_False by lia.
       by destruct (_ !! Z.to_nat r'), (g !! Z.to_nat r'). }
  destruct (decide (r' = r)) as [->|Hne].
  - rewrite list_lookup_insert_eq by done. rewrite Hcells. simpl.
    destruct (decide (c' = c)) as [->|Hnc].
    + rewrite list_lookup_insert_eq by lia. by rewrite decide_True.
    + rewrite list_lookup_insert_ne by lia. by rewrite decide_False by naive_solver.
  - rewrite list_lookup_insert_ne by lia. by rewrite decide_False by naive_solver.
Qed.

Lemma cellOf_rect rows cols g (r c : Z) :
  rect rows cols g → 0 ≤ r < rows → 0 ≤ c < cols → is_Some (cellOf g r c).
Proof.
  intros Hg Hr Hc. destruct (rect_lookup _ _ _ _ Hg Hr) as (cells & Hcells & Hlen).
  unfold cellOf, nthZ. rewrite bool_decide_eq_true_2 by lia. rewrite Hcells. simpl.
  rewrite bool_decide_eq_true_2 by lia. apply lookup_lt_is_Some_2. lia.
Qed.

(** ** [makeRandomGrid] *)

Lemma makeRandomGrid_run rnd w (rows cols : Z) symbols excludeSymbol :
  unitInterval rnd → 0 < rows → 0 < cols → poolOf symbols excludeSymbol ≠ [] →
  ∃ g, makeRandomGrid rows cols (Some symbols) excludeSymbol rnd w
       = Done g (after (Z.to_nat (rows * cols)) w)
    ∧ rect rows cols g
    ∧ ∀ r c, 0 ≤ r < rows → 0 ≤ c < cols →
        cellOf g r c
        = nthZ (poolOf symbols excludeSymbol)
            (floorMul (rnd (drawn w + Z.to_nat (r * cols + c))%nat)
                      (Z.of_nat (length (poolOf symbols excludeSymbol)))).
Proof.
  intros Hrnd Hrows Hcols Hpool. unfold makeRandomGrid.
  rewrite !bool_decide_eq_false_2 by lia. cbn [orb].
  fold (poolOf symbols excludeSymbol). set (pool := poolOf symbols excludeSymbol) in *.
  rewrite bool_decide_eq_false_2 by (by destruct pool).
  set (cellAt' := λ r c : Z,
         nthZ pool (floorMul (rnd (drawn w + Z.to_nat (r * cols + c))%nat)
                             (Z.of_nat (length pool)))).
  set (Inner := λ (i j : nat) (g : list (list string)) (w' : World),
         w' = after (Z.to_nat (Z.of_nat i * cols) + j) w
         ∧ rect rows cols g
         ∧ ∀ r c, 0 ≤ r → 0 ≤ c < cols →
             r < Z.of_nat i ∨ (r = Z.of_nat i ∧ c < Z.of_nat j) →
             cellOf g r c = cellAt' r c).
  loop_inv (λ i, Inner i 0%nat); [| |destruct Hinv as (Hw & Hrect & Hcells)].
  - split_and!.
    + unfold after. simpl. destruct w. simpl. f_equal. lia.
    + split; [rewrite length_replicate; lia|].
      apply Forall_replicate. rewrite length_replicate. lia.
    + intros r c Hr Hc [?|[? ?]]; lia.
  - intros i x g w1 Hx (Hw1 & Hrect & Hcells).
    apply lookup_seqZ in Hx as [-> Hi].
    loop_inv (Inner i); [| |destruct Hinv as (Hw2 & Hrect2 & Hcells2)].
    + split_and!; [by rewrite Hw1|done|done].
    + intros j c g3 w3 Hc (Hw3 & Hrect3 & Hcells3).
      apply lookup_seqZ in Hc as [-> Hj].
      rewrite run_random. subst w3. cbn [drawn console after].
      pose proof (floorMul_range _ (Z.of_nat (length pool))
                    (Hrnd (drawn w + (Z.to_nat (Z.of_nat i * cols) + j))%nat)) as Hidx.
      specialize (Hidx ltac:(destruct pool; [done|simpl; lia])).
      destruct (lookup_lt_is_Some_2 pool
                  (Z.to_nat (floorMul (rnd (drawn w + (Z.to_nat (Z.of_nat i * cols) + j))%nat)
                                      (Z.of_nat (length pool))))) as [v Hv]; [lia|].
      rewrite (run_bind _ _ _ _ _ _ (run_at _ _ _ _ _ (proj1 Hidx) Hv)).
      destruct (rect_lookup _ _ _ (0 + Z.of_nat i) Hrect3 ltac:(lia)) as (cells & Hcl & Hlen).
      rewrite (run_setCell _ _ _ _ cells) by (first [done | lia]).
      eexists _, _. split; [done|]. split_and!.
      * unfold after. simpl. f_equal. lia.
      * by apply rect_insert.
      * intros r c Hr Hc Hbefore.
        rewrite (cellOf_insert _ _ _ _ _ cells) by (first [done | lia]).
        case_decide as Heq.
        -- destruct Heq as [-> ->]. unfold cellAt', nthZ.
           assert (0 ≤ Z.of_nat i * cols) by (apply Z.mul_nonneg_nonneg; lia).
           replace (Z.to_nat ((0 + Z.of_nat i) * cols + (0 + Z.of_nat j)))
             with (Z.to_nat (Z.of_nat i * cols) + j)%nat by lia.
           by rewrite bool_decide_eq_true_2 by lia.
        -- apply Hcells3; [done|done|lia].
    + eexists _, _. split; [done|]. rewrite length_seqZ in *. split_and!.
      * rewrite Hw2. unfold after. simpl. f_equal. lia.
      * done.
      * intros r c Hr Hc Hbefore. apply Hcells2; [done|done|lia].
  - rewrite length_seqZ in *. eexists. split_and!.
    + rewrite Hw. f_equal. unfold after. f_equal. lia.
    + done.
    + intros r c Hr Hc. apply Hcells; [lia|done|lia].
Qed.

Lemma cellOf_range rows cols g (r c : Z) s :
  rect rows cols g → cellOf g r c = Some s → 0 ≤ r < rows ∧ 0 ≤ c < cols.
Proof.
  intros [Hlen Hall] Hcell. unfold cellOf, nthZ in Hcell.
  destruct (decide (0 ≤ r)) as [Hr|Hr];
    [rewrite (bool_decide_eq_true_2 (0 ≤ r)) in Hcell by done
    |by rewrite (bool_decide_eq_false_2 (0 ≤ r)) in Hcell by done].
  destruct (g !! Z.to_nat r) as [cells|] eqn:Hcells; [|done]. simpl in Hcell.
  destruct (decide (0 ≤ c)) as [Hc|Hc];
    [rewrite (bool_decide_eq_true_2 (0 ≤ c)) in Hcell by done
    |by rewrite (bool_decide_eq_false_2 (0 ≤ c)) in Hcell by done].
  pose proof (lookup_lt_Some _ _ _ Hcells). pose proof (lookup_lt_Some _ _ _ Hcell).
  rewrite Forall_forall in Hall.
  pose proof (Hall cells (list_elem_of_lookup_2 _ _ _ Hcells)). lia.
Qed.

Lemma poolOf_elem symbols (sym s : string) :
  s ∈ poolOf symbols (Some sym) → s ∈ symbols ∧ (sym ≠ "" → s ≠ sym).
Proof.
  unfold poolOf, truthy. case_bool_decide as Hsym.
  - intros [Hne Hs]%list_elem_of_filter. split; [done|]. intros _ ->. done.
  - intros Hs. split; [done|]. intros Hne. by destruct Hsym.
Qed.

Lemma poolOf_nonempty symbols (sym s : string) :
  s ∈ symbols → s ≠ sym → poolOf symbols (Some sym) ≠ [].
Proof.
  intros Hs Hne. unfold poolOf. destruct (truthy (Some sym)).
  - intros Hnil. assert (s ∈ filter (λ n, Some n ≠ Some sym) symbols) as Hin.
    { apply list_elem_of_filter. split; [congruence|done]. }
    rewrite Hnil in Hin. by apply elem_of_nil in Hin.
  - intros ->. by apply elem_of_nil in Hs.
Qed.

(** The random grid of an attempt: its cells are symbols other than [sym]. *)
Lemma makeRandomGrid_pool rnd w (rows cols : Z) symbols (sym : string) :
  unitInterval rnd → 0 < rows → 0 < cols → poolOf symbols (Some sym) ≠ [] →
  ∃ g, makeRandomGrid rows cols (Some symbols) (Some sym) rnd w
       = Done g (after (Z.to_nat (rows * cols)) w)
    ∧ rect rows cols g
    ∧ ∀ r c s, cellOf g r c = Some s → s ∈ symbols ∧ (sym ≠ "" → s ≠ sym).
Proof.
  intros Hrnd Hrows Hcols Hpool.
  destruct (makeRandomGrid_run rnd w rows cols symbols (Some sym) Hrnd Hrows Hcols Hpool)
    as (g & Hrun & Hrect & Hcells).
  exists g. split_and!; [done|done|]. intros r c s Hs.
  destruct (cellOf_range _ _ _ _ _ _ Hrect Hs) as [Hr Hc].
  rewrite (Hcells r c Hr Hc) in Hs. apply poolOf_elem.
  unfold nthZ in Hs. case_bool_decide; [|done]. by eapply list_elem_of_lookup_2.
Qed.

(** ** [randomSymbolName] *)

Lemma randomSymbolName_run rnd w symbols :
  unitInterval rnd → symbols ≠ [] →
  ∃ sym, randomSymbolName (Some symbols) rnd w = Done sym (after 1 w)
    ∧ nthZ symbols (floorMul (rnd (drawn w)) (Z.of_nat (length symbols))) = Some sym
    ∧ sym ∈ symbols.
Proof.
  intros Hrnd Hne. unfold randomSymbolName.
  rewrite bool_decide_eq_false_2 by (by destruct symbols).
  rewrite run_random.
  pose proof (floorMul_range _ (Z.of_nat (length symbols)) (Hrnd (drawn w))
                ltac:(destruct symbols; [done|simpl; lia])) as Hidx.
  destruct (lookup_lt_is_Some_2 symbols
              (Z.to_nat (floorMul (rnd (drawn w)) (Z.of_nat (length symbols)))))
    as [sym Hsym]; [lia|].
  exists sym. rewrite (run_at _ _ sym) by (first [lia | done]). split_and!.
  - f_equal. unfold after. f_equal. simpl. lia.
  - unfold nthZ. by rewrite bool_decide_eq_true_2 by lia.
  - by eapply list_elem_of_lookup_2.
Qed.

(** ** Painting a line *)

Lemma paint_run rnd w (rows cols : Z) g (n : Z) (R C : Z → Z) (sym : string) :
  rect rows cols g →
  (∀ x, 0 ≤ x < n → 0 ≤ R x < rows ∧ 0 ≤ C x < cols) →
  ∃ g', forEachG (seqZ 0 n) (λ x grid, setCell grid (R x) (C x) sym) g rnd w = Done g' w
    ∧ rect rows cols g'
    ∧ (∀ x, 0 ≤ x < n → cellOf g' (R x) (C x) = Some sym)
    ∧ (∀ r c, (∀ x, 0 ≤ x < n → ¬ (R x = r ∧ C x = c)) → cellOf g' r c = cellOf g r c).
Proof.
  intros Hrect Hin.
  loop_inv (λ (i : nat) (g' : list (list string)) (w' : World),
              w' = w ∧ rect rows cols g'
              ∧ (∀ x, 0 ≤ x < Z.of_nat i → cellOf g' (R x) (C x) = Some sym)
              ∧ (∀ r c, (∀ x, 0 ≤ x < Z.of_nat i → ¬ (R x = r ∧ C x = c)) →
                        cellOf g' r c = cellOf g r c)).
  - split_and!; [done|done|lia|done].
  - intros i x g1 w1 Hx (-> & Hrect1 & Hdone & Hrest).
    apply lookup_seqZ in Hx as [-> Hi]. rewrite Z.add_0_l.
    destruct (Hin (Z.of_nat i) ltac:(lia)) as [HR HC].
    destruct (rect_lookup _ _ _ _ Hrect1 HR) as (cells & Hcells & Hlen).
    rewrite (run_setCell _ _ _ _ cells) by (first [done | lia]).
    eexists _, _. split; [done|]. split_and!.
    + done.
    + by apply rect_insert.
    + intros x Hx. rewrite (cellOf_insert _ _ _ _ _ cells) by (first [done | lia]).
      case_decide; [done|]. apply Hdone.
      destruct (decide (x = Z.of_nat i)) as [->|]; [naive_solver|lia].
    + intros r c Hno. rewrite (cellOf_insert _ _ _ _ _ cells) by (first [done | lia]).
      rewrite decide_False.
      * apply Hrest. intros x Hx. apply Hno. lia.
      * intros [-> ->]. apply (Hno (Z.of_nat i)); [lia|done].
  - destruct Hinv as (-> & Hrect' & Hdone & Hrest). rewrite length_seqZ in *.
    eexists. split_and!; [done|done| |].
    + intros x Hx. apply Hdone. lia.
    + intros r c Hno. apply Hrest. intros x Hx. apply Hno. lia.
Qed.

(** ** The grid handed to the engine *)

Lemma cellAt_gridOf g (r c : Z) :
  cellAt (gridOf g) r c
  = match cellOf g r c with
    | Some s => Ok (Some s)
    | None => Throw OutOfRange
    end.
Proof.
  unfold cellAt, rowAt, gridOf, cellOf, nthZ.
  destruct (decide (0 ≤ r)) as [Hr|Hr];
    [rewrite !(bool_decide_eq_true_2 (0 ≤ r)) by done
    |by rewrite !(bool_decide_eq_false_2 (0 ≤ r)) by done].
  rewrite list_lookup_fmap. destruct (g !! Z.to_nat r) as [cells|]; [|done]. simpl.
  destruct (decide (0 ≤ c)) as [Hc|Hc];
    [rewrite !(bool_decide_eq_true_2 (0 ≤ c)) by done
    |by rewrite !(bool_decide_eq_false_2 (0 ≤ c)) by done].
  rewrite list_lookup_fmap. by destruct (cells !! Z.to_nat c).
Qed.

Lemma holds_gridOf g (s : string) (p : GridCoord) :
  holds (gridOf g) s p ↔ cellOf g (row p) (col p) = Some s.
Proof.
  unfold holds. rewrite cellAt_gridOf. destruct (cellOf g (row p) (col p)); naive_solver.
Qed.

Lemma isValidGrid_gridOf g :
  rect REEL_COUNT SYMBOLS_PER_REEL g → isValidGrid (gridOf g) = true.
Proof.
  intros [Hlen Hall]. apply isValidGrid_true. eexists. split; [done|].
  rewrite length_fmap. split; [done|].
  intros r (cells & -> & Hcells)%list_elem_of_fmap. eexists. split; [done|].
  rewrite length_fmap. rewrite Forall_forall in Hall. by apply Hall.
Qed.

Lemma engine_valid g :
  rect REEL_COUNT SYMBOLS_PER_REEL g →
  engine g
  = Ok ([], Wins
      (filter (sharedSymbol (gridOf g)) (rowPath <$> [0; 1; 2; 3])
       ++ filter (sharedSymbol (gridOf g)) (colPath <$> [0; 1; 2; 3; 4; 5]))
      (filter (sharedSymbol (gridOf g)) fixedDiagonals)
      (adjacencyOf (gridOf g))).
Proof.
  intros Hg. change (engine g) with (computeWins (gridOf g)).
  by rewrite (computeWins_valid _ (isValidGrid_gridOf _ Hg)).
Qed.

Lemma run_engine g rnd w :
  rect REEL_COUNT SYMBOLS_PER_REEL g →
  ∃ wins, call engine g rnd w = Done wins w ∧ engine g = Ok ([], wins).
Proof.
  intros Hg. eexists. unfold call. rewrite (engine_valid _ Hg). split; [|done].
  destruct w. simpl. by rewrite app_nil_r.
Qed.

(** ** [getStraightWinGrid] *)

Lemma run_call validate (rows cols : Z) g rnd w :
  returns rows cols validate → rect rows cols g →
  ∃ wins w', call validate g rnd w = Done wins w'
    ∧ (quiet rows cols validate → w' = w).
Proof.
  intros Hret Hg. destruct (Hret g Hg) as (log & wins & Hv).
  exists wins. eexists. unfold call. rewrite Hv. split; [done|].
  intros Hq. rewrite (Hq _ _ _ Hg Hv). destruct w. simpl. by rewrite app_nil_r.
Qed.





Lemma engine_returns : returns REEL_COUNT SYMBOLS_PER_REEL engine.
Proof. intros g Hg. eexists _, _. by apply engine_valid. Qed.

Lemma engine_quiet : quiet REEL_COUNT SYMBOLS_PER_REEL engine.
Proof. intros g log wins Hg. rewrite (engine_valid _ Hg). by intros [= <- _]. Qed.

Lemma twoSymbols_pool symbols (sym : string) :
  (∃ s t, s ∈ symbols ∧ t ∈ symbols ∧ s ≠ t) → poolOf symbols (Some sym) ≠ [].
Proof.
  intros (s & t & Hs & Ht & Hne).
  destruct (decide (s = sym)) as [->|Hs'].
  - by apply (poolOf_nonempty _ _ t).
  - by apply (poolOf_nonempty _ _ s).
Qed.


Lemma line_sharedSymbol g (sym : string) (path : Path) :
  sym ≠ "" → (∀ p, p ∈ path → cellOf g (row p) (col p) = Some sym) →
  sharedSymbol (gridOf g) path.
Proof. intros Hne Hall. exists sym. split; [done|]. intros p Hp. by apply holds_gridOf, Hall. Qed.

(** ** Painted paths *)

Lemma pathOf_elem (rows : Z) (C : Z → Z) (r c : Z) :
  Coord r c ∈ pathOf rows C ↔ 0 ≤ r < rows ∧ c = C r.
Proof.
  unfold pathOf. rewrite list_elem_of_fmap. split.
  - intros (x & [= -> ->] & Hx). apply elem_of_seqZ in Hx. split; [lia|done].
  - intros [Hr ->]. exists r. split; [done|]. apply elem_of_seqZ. lia.
Qed.


Lemma forcedPath_sharedSymbol rows cols symbols (sym : string) path g :
  forcedPath rows cols symbols sym path g → sym ≠ "" →
  (∀ p, p ∈ path → 0 ≤ row p < rows ∧ 0 ≤ col p < cols) →
  sharedSymbol (gridOf g) path.
Proof.
  intros (_ & _ & Hcells) Hne Hin. apply (line_sharedSymbol _ sym); [done|].
  intros [r c] Hp. destruct (Hin _ Hp) as [Hr Hc]. by apply Hcells.
Qed.

(** ** [generateRandomDiagonalWin] *)


Lemma diagonalAttempt_narrow rnd w (rows cols : Z) symbols validate (sym : string) :
  cols < rows →
  diagonalAttempt rows cols symbols validate sym rnd w = Done None (after 1 w).
Proof.
  intros Hnarrow. unfold diagonalAttempt. rewrite run_random.
  destruct (Qlt_le_dec _ _); cbv zeta.
  - rewrite (bool_decide_eq_false_2 (0 ≤ -1)) by lia.
    rewrite bool_decide_eq_true_2 by lia. unfold after. do 2 f_equal. lia.
  - rewrite (bool_decide_eq_true_2 (0 ≤ 1)) by lia.
    rewrite bool_decide_eq_true_2 by lia. unfold after. do 2 f_equal. lia.
Qed.



Lemma diagonalAttempts_narrow (n : nat) rnd w (rows cols : Z) symbols validate (sym : string) :
  cols < rows →
  diagonalAttempts n rows cols symbols validate sym rnd w = Done None (after n w).
Proof.
  intros Hnarrow. revert w. induction n as [|n IH]; intros w.
  - unfold after. destruct w. simpl. do 2 f_equal. lia.
  - cbn [diagonalAttempts].
    rewrite (run_bind _ _ _ _ _ _ (diagonalAttempt_narrow rnd w _ _ symbols validate sym Hnarrow)).
    rewrite IH. unfold after. simpl. do 2 f_equal. lia.
Qed.

(** ** [generateRandomStraightConnectingLineWin] *)

Lemma pick_run {A} (l : list A) rnd w :
  unitInterval rnd → l ≠ [] →
  ∃ x, (mathRandom ≫= λ u, at_ l (floorMul u (Z.of_nat (length l)))) rnd w
       = Done x (after 1 w)
    ∧ x ∈ l.
Proof.
  intros Hrnd Hne. rewrite run_random.
  pose proof (floorMul_range _ (Z.of_nat (length l)) (Hrnd (drawn w))
                ltac:(destruct l; [done|simpl; lia])) as Hidx.
  destruct (lookup_lt_is_Some_2 l (Z.to_nat (floorMul (rnd (drawn w)) (Z.of_nat (length l)))))
    as [x Hx]; [lia|].
  exists x. rewrite (run_at _ _ x) by (first [lia | done]). split.
  - unfold after. do 2 f_equal. simpl. lia.
  - by eapply list_elem_of_lookup_2.
Qed.

Lemma colsFrom_length c steps : length (colsFrom c steps) = S (length steps).
Proof. revert c. induction steps as [|dc steps IH]; intros c; simpl; [done|]. by rewrite IH. Qed.

Lemma colsFrom_snoc c steps dc :
  ∃ c', last (colsFrom c steps) = Some c'
        ∧ colsFrom c (steps ++ [dc]) = colsFrom c steps ++ [c' + dc].
Proof.
  revert c. induction steps as [|s steps IH]; intros c.
  - exists c. done.
  - destruct (IH (c + s)) as (c' & Hlast & Heq). exists c'. split.
    + simpl. destruct (colsFrom (c + s) steps) eqn:Hcf; [by destruct steps|].
      rewrite <- Hcf. rewrite <- Hlast. by rewrite Hcf.
    + simpl. by rewrite Heq.
Qed.

Lemma connectingStep_run rnd w (rows cols : Z) (r : Z) steps (c : Z) colsPath :
  unitInterval rnd → 0 ≤ c < cols →
  ∃ dc w',
    connectingStep rows cols r (steps, c, colsPath) rnd w
    = Done (steps ++ [dc], c + dc, colsPath ++ [c + dc]) w'
    ∧ console w' = console w
    ∧ -1 ≤ dc ≤ 1 ∧ 0 ≤ c + dc < cols
    ∧ (r ≠ rows - 2 ∨ steps = [] → ∃ n, w' = after n w).
Proof.
  intros Hrnd Hc. unfold connectingStep.
  set (choices := filter (λ dc, 0 ≤ c + dc ∧ c + dc < cols) [-1; 0; 1]).
  assert (∀ x, x ∈ choices → -1 ≤ x ≤ 1 ∧ 0 ≤ c + x < cols) as Hch.
  { intros x [Hx Hin]%list_elem_of_filter. split; [|lia]. set_solver by lia. }
  assert (choices ≠ []) as Hne.
  { intros Hnil. assert (0 ∈ choices) as H0.
    { apply list_elem_of_filter. split; [lia|set_solver]. }
    rewrite Hnil in H0. by apply elem_of_nil in H0. }
  cbv zeta. rewrite run_random.
  pose proof (floorMul_range _ (Z.of_nat (length choices)) (Hrnd (drawn w))
                ltac:(destruct choices; [done|simpl; lia])) as Hidx.
  destruct (lookup_lt_is_Some_2 choices
              (Z.to_nat (floorMul (rnd (drawn w)) (Z.of_nat (length choices)))))
    as [dc1 Hdc1]; [lia|].
  rewrite (run_bind _ _ _ _ _ _ (run_at _ _ dc1 _ _ (proj1 Hidx) Hdc1)).
  pose proof (list_elem_of_lookup_2 _ _ _ Hdc1) as Hin1.
  set (w1 := MkWorld (S (drawn w)) (console w)).
  set (alt := filter (λ x, Some x ≠ steps !! 0%nat) choices).
  destruct (bool_decide (r = rows - 2)) eqn:Hr.
  - destruct (bool_decide (0 < length steps)%nat && _) eqn:Heq.
    + destruct (bool_decide (0 < length alt)%nat) eqn:Halt.
      * destruct (pick_run alt rnd w1 Hrnd) as (dc2 & Hpick & Hin2).
        { apply bool_decide_eq_true in Halt. intros Hnil. rewrite Hnil in Halt. simpl in Halt. lia. }
        rewrite (run_bind _ _ _ _ _ _ Hpick).
        apply list_elem_of_filter in Hin2 as [_ Hin2].
        exists dc2. eexists. split; [done|]. destruct (Hch _ Hin2).
        split_and!; try done; try lia.
        intros [Hne'| ->]; [by apply bool_decide_eq_true in Hr|by simpl in Heq].
      * exists dc1. eexists. split; [done|]. destruct (Hch _ Hin1).
        split_and!; try done; try lia.
        intros _. by exists 1%nat; unfold after; subst w1; simpl; do 2 f_equal; lia.
    + exists dc1. eexists. split; [done|]. destruct (Hch _ Hin1).
        split_and!; try done; try lia.
      intros _. by exists 1%nat; unfold after; subst w1; simpl; do 2 f_equal; lia.
  - exists dc1. eexists. split; [done|]. destruct (Hch _ Hin1).
        split_and!; try done; try lia.
    intros _. by exists 1%nat; unfold after; subst w1; simpl; do 2 f_equal; lia.
Qed.

Lemma forEachG_ext {A St} (xs : list A) (body body' : A → St → Gen St) rnd s w :
  (∀ x s w, x ∈ xs → body x s rnd w = body' x s rnd w) →
  forEachG xs body s rnd w = forEachG xs body' s rnd w.
Proof.
  revert s w. induction xs as [|x xs IH]; intros s w Hext; [done|].
  simpl. unfold mbind, Gen_bind. rewrite Hext by left.
  destruct (body' x s rnd w) as [s' w'|e]; [|done]. apply IH.
  intros y s'' w'' Hy. apply Hext. by right.
Qed.

Lemma walk_run rnd w (rows cols : Z) (n : Z) (c0 : Z) :
  unitInterval rnd → 0 ≤ c0 < cols →
  ∃ steps c w',
    forEachG (seqZ 0 n) (connectingStep rows cols) ([], c0, [c0]) rnd w
    = Done (steps, c, colsFrom c0 steps) w'
    ∧ console w' = console w
    ∧ length steps = Z.to_nat n
    ∧ Forall (λ s, -1 ≤ s ≤ 1) steps
    ∧ Forall (λ x, 0 ≤ x < cols) (colsFrom c0 steps).
Proof.
  intros Hrnd Hc0.
  loop_inv (λ (i : nat) (st : list Z * Z * list Z) (w' : World),
              console w' = console w
              ∧ length st.1.1 = i
              ∧ st.2 = colsFrom c0 st.1.1
              ∧ last st.2 = Some st.1.2
              ∧ Forall (λ s, -1 ≤ s ≤ 1) st.1.1
              ∧ Forall (λ x, 0 ≤ x < cols) st.2).
  - split_and!; try done. by apply Forall_singleton.
  - intros i r [[steps c] colsPath] w1 Hr (Hc & Hlen & Hcols & Hlast & Hsteps & Hrange).
    simpl in *.
    assert (0 ≤ c < cols) as Hcr.
    { rewrite Forall_forall in Hrange. apply Hrange.
      apply last_Some in Hlast as [l' ->]. set_solver. }
    destruct (connectingStep_run rnd w1 rows cols r steps c colsPath Hrnd Hcr)
      as (dc & w2 & Hrun & Hc2 & Hdc & Hcd & _).
    eexists _, _. split; [exact Hrun|]. simpl. split_and!.
    + congruence.
    + rewrite length_app. simpl. lia.
    + destruct (colsFrom_snoc c0 steps dc) as (c' & Hlast' & ->).
      rewrite <- Hcols in Hlast'. by simplify_eq.
    + by rewrite last_snoc.
    + apply Forall_app. split; [done|by apply Forall_singleton].
    + apply Forall_app. split; [done|by apply Forall_singleton].
  - destruct s as [[steps c] colsPath]. simpl in *.
    destruct Hinv as (Hc & Hlen & -> & Hlast & Hsteps & Hrange).
    rewrite length_seqZ in Hlen. by exists steps, c, w0.
Qed.

(** What an attempt that returns a grid has established. *)
Definition connectingFound (rows cols : Z) (symbols : list string)
    (validate : list (list string) → Res (Logged WinsResult)) (sym : string)
    (g : list (list string)) : Prop :=
  ∃ c0 steps log wins,
    length steps = Z.to_nat (rows - 1)
    ∧ Forall (λ s, -1 ≤ s ≤ 1) steps
    ∧ Forall (λ x, 0 ≤ x < cols) (colsFrom c0 steps)
    ∧ bends steps
    ∧ forcedPath rows cols symbols sym (pathOf rows (columnAt (colsFrom c0 steps))) g
    ∧ validate g = Ok (log, wins)
    ∧ length (straight wins) = 0%nat
    ∧ length (diagonal wins) = 0%nat
    ∧ length (adjacency wins) = 1%nat.

Lemma columnAt_range (cols rows : Z) colsPath (r : Z) :
  Forall (λ x, 0 ≤ x < cols) colsPath → Z.of_nat (length colsPath) = rows →
  0 ≤ r < rows →
  nthZ colsPath r = Some (columnAt colsPath r) ∧ 0 ≤ columnAt colsPath r < cols.
Proof.
  intros Hall Hlen Hr. unfold columnAt, nthZ. rewrite bool_decide_eq_true_2 by lia.
  destruct (lookup_lt_is_Some_2 colsPath (Z.to_nat r)) as [x Hx]; [lia|].
  rewrite Hx. simpl. split; [done|]. rewrite Forall_forall in Hall. apply Hall.
  by eapply list_elem_of_lookup_2.
Qed.

Lemma paintPath_run rnd w (rows cols : Z) symbols (sym : string) g0 colsPath :
  rect rows cols g0 →
  (∀ r c s, cellOf g0 r c = Some s → s ∈ symbols ∧ (sym ≠ "" → s ≠ sym)) →
  sym ∈ symbols →
  Forall (λ x, 0 ≤ x < cols) colsPath → Z.of_nat (length colsPath) = rows →
  ∃ g, forEachG (seqZ 0 rows) (λ r grid, cc ← at_ colsPath r; setCell grid r cc sym) g0 rnd w
       = Done g w
    ∧ forcedPath rows cols symbols sym (pathOf rows (columnAt colsPath)) g.
Proof.
  intros Hrect Hcells Hsym Hall Hlen.
  destruct (paint_run rnd w rows cols g0 rows (λ r, r) (columnAt colsPath) sym Hrect)
    as (g & Hpaint & Hrect' & Hdone & Hrest).
  { intros x Hx. split; [lia|]. by apply (columnAt_range cols rows). }
  exists g. split.
  - rewrite <- Hpaint. apply forEachG_ext. intros r s w' Hr%elem_of_seqZ.
    destruct (columnAt_range cols rows colsPath r Hall Hlen ltac:(lia)) as [Hnth _].
    unfold at_. rewrite Hnth. done.
  - split; [done|]. split.
    + intros r c s Hs. destruct (cellOf_range _ _ _ _ _ _ Hrect' Hs) as [Hr Hc].
      destruct (decide (c = columnAt colsPath r)) as [->|Hne].
      * rewrite (Hdone r Hr) in Hs. by simplify_eq.
      * rewrite Hrest in Hs by naive_solver. by apply (Hcells r c s).
    + intros r c Hr Hc. rewrite pathOf_elem. split.
      * intros [_ ->]. by apply Hdone.
      * intros Hne Hs. split; [done|].
        destruct (decide (c = columnAt colsPath r)) as [|Hcr]; [done|].
        rewrite Hrest in Hs by naive_solver.
        destruct (Hcells r c sym Hs) as [_ Hdiff]. by destruct (Hdiff Hne).
Qed.

Lemma connectingAttempt_run rnd w (rows cols : Z) symbols validate (sym : string) :
  unitInterval rnd → 0 < rows → 0 < cols →
  sym ∈ symbols → poolOf symbols (Some sym) ≠ [] → returns rows cols validate →
  ∃ res w',
    connectingAttempt rows cols (Some symbols) validate sym rnd w = Done res w'
    ∧ (quiet rows cols validate → console w' = console w)
    ∧ (res = None ∨ ∃ g, res = Some g ∧ connectingFound rows cols symbols validate sym g).
Proof.
  intros Hrnd Hrows Hcols Hsym Hpool Hret.
  destruct (makeRandomGrid_pool rnd w rows cols symbols sym Hrnd Hrows Hcols Hpool)
    as (g0 & Hmake & Hrect & Hcells).
  unfold connectingAttempt. rewrite (run_bind _ _ _ _ _ _ Hmake), run_random. cbv zeta.
  set (w1 := after (Z.to_nat (rows * cols)) w).
  set (c0 := floorMul (rnd (drawn w1)) cols).
  assert (0 ≤ c0 < cols) as Hc0 by (apply floorMul_range; [apply Hrnd|done]).
  destruct (walk_run rnd (MkWorld (S (drawn w1)) (console w1)) rows cols (rows - 1) c0
              Hrnd Hc0) as (steps & c & w2 & Hwalk & Hc2 & Hlen & Hsteps & Hrange).
  rewrite (run_bind _ _ _ _ _ _ Hwalk). cbv beta iota.
  destruct (forallb (λ s, bool_decide (s = 0)) steps
            || forallb (λ s, bool_decide (s = 1)) steps
            || forallb (λ s, bool_decide (s = -1)) steps) eqn:Hbends.
  { eexists _, _. split; [done|]. split; [by intros _|by left]. }
  destruct (paintPath_run rnd w2 rows cols symbols sym g0 (colsFrom c0 steps)
              Hrect Hcells Hsym Hrange) as (g & Hpaint & Hforced).
  { rewrite colsFrom_length, Hlen. lia. }
  rewrite (run_bind _ _ _ _ _ _ Hpaint).
  destruct (run_call validate rows cols g rnd w2 Hret (proj1 Hforced))
    as (wins & w3 & Hcall & Hquiet).
  rewrite (run_bind _ _ _ _ _ _ Hcall).
  destruct (bool_decide (length (straight wins) = 0%nat)
            && bool_decide (length (diagonal wins) = 0%nat)
            && bool_decide (length (adjacency wins) = 1%nat)) eqn:Hok.
  - eexists _, _. split; [done|]. split; [intros Hq; by rewrite (Hquiet Hq)|].
    right. eexists. split; [done|].
    destruct (Hret g (proj1 Hforced)) as (log & wins' & Hv).
    assert (wins' = wins) as ->.
    { unfold call in Hcall. rewrite Hv in Hcall. by simplify_eq. }
    apply andb_prop in Hok as [[H1 H2]%andb_prop H3].
    apply bool_decide_eq_true in H1, H2, H3.
    exists c0, steps, log, wins. split_and!; done.
  - eexists _, _. split; [done|]. split; [intros Hq; by rewrite (Hquiet Hq)|by left].
Qed.

Lemma connectingAttempts_run (n : nat) rnd w (rows cols : Z) symbols validate (sym : string) :
  unitInterval rnd → 0 < rows → 0 < cols →
  sym ∈ symbols → poolOf symbols (Some sym) ≠ [] → returns rows cols validate →
  ∃ res w',
    connectingAttempts n rows cols (Some symbols) validate sym rnd w = Done res w'
    ∧ (quiet rows cols validate → console w' = console w)
    ∧ (res = None ∨ ∃ g, res = Some g ∧ connectingFound rows cols symbols validate sym g).
Proof.
  intros Hrnd Hrows Hcols Hsym Hpool Hret. revert w.
  induction n as [|n IH]; intros w.
  - eexists _, _. split; [done|]. split; [done|by left].
  - destruct (connectingAttempt_run rnd w rows cols symbols validate sym
                Hrnd Hrows Hcols Hsym Hpool Hret)
      as (res & w1 & Hrun & Hc1 & [->|(g & -> & Hfound)]).
    + cbn [connectingAttempts]. rewrite (run_bind _ _ _ _ _ _ Hrun).
      destruct (IH w1) as (res & w2 & Hrun2 & Hc2 & Hres).
      exists res, w2. split_and!; [done| |done].
      intros Hq. rewrite (Hc2 Hq). by apply Hc1.
    + cbn [connectingAttempts]. rewrite (run_bind _ _ _ _ _ _ Hrun).
      exists (Some g), w1. split_and!; [done|done|]. right. eauto.
Qed.

(** ** What the engine finds in a forced grid *)

Lemma pathOf_four (C : Z → Z) :
  pathOf REEL_COUNT C = [Coord 0 (C 0); Coord 1 (C 1); Coord 2 (C 2); Coord 3 (C 3)].
Proof. done. Qed.

Lemma length_zero_nil {A} (l : list A) : length l = 0%nat → l = [].
Proof. by destruct l. Qed.

Lemma length_one_elem {A} (l : list A) (x : A) : length l = 1%nat → x ∈ l → l = [x].
Proof. destruct l as [|y [|z l]]; try done. intros _ Hx. f_equal. set_solver. Qed.


Lemma forced_connecting_unique symbols (sym : string) g p q :
  forcedPath REEL_COUNT SYMBOLS_PER_REEL symbols sym p g → sym ≠ "" →
  connectingPath (gridOf g) p → connectingPath (gridOf g) q →
  head q = head p → q = p.
Proof.
  intros (_ & _ & Hcells) Hne Hp Hq Hhead.
  pose proof (connecting_shape _ _ Hp) as (Hsp & _ & _ & _ & Hlp).
  pose proof (connecting_shape _ _ Hq) as (Hsq & _ & _ & _ & Hlq).
  pose proof Hp as (a & _ & Hpa & _ & Hra & _ & _ & _ & _).
  pose proof Hq as (a' & _ & Hqa & _ & _ & _ & _ & _ & (s & _ & Hholds)).
  assert (a' = a) as -> by congruence.
  assert (s = sym) as ->.
  { pose proof (Hholds a (head_Some_elem_of _ _ Hqa)) as Hs.
    apply holds_gridOf in Hs.
    destruct (connecting_bounds _ _ _ Hp (head_Some_elem_of _ _ Hpa)) as [Hr Hc].
    destruct (Hcells _ _ Hr Hc) as [Hsym _].
    destruct a as [r c]. simpl in *.
    rewrite (Hsym (head_Some_elem_of _ _ Hpa)) in Hs. by simplify_eq. }
  apply list_eq. intros i.
  destruct (q !! i) as [x|] eqn:Hx.
  - pose proof (list_elem_of_lookup_2 _ _ _ Hx) as Hxq.
    destruct (connecting_bounds _ _ _ Hq Hxq) as [Hr Hc].
    pose proof (Hholds x Hxq) as Hs. apply holds_gridOf in Hs.
    destruct x as [r c]. simpl in *.
    destruct (Hcells _ _ Hr Hc) as [_ Hback].
    pose proof (Hback Hne Hs) as Hxp.
    apply list_elem_of_lookup in Hxp as [j Hj].
    pose proof (stepsDown_rows _ _ Hqa Hsq _ _ Hx) as Hri.
    pose proof (stepsDown_rows _ _ Hpa Hsp _ _ Hj) as Hrj.
    simpl in *. assert (i = j) as -> by lia. done.
  - apply lookup_ge_None in Hx. symmetry. apply lookup_ge_None. lia.
Qed.

Lemma connectingFound_engine symbols (sym : string) g :
  connectingFound REEL_COUNT SYMBOLS_PER_REEL symbols engine sym g → sym ≠ "" →
  ∃ p, forcedPath REEL_COUNT SYMBOLS_PER_REEL symbols sym p g
    ∧ connectingPath (gridOf g) p
    ∧ ¬ constantDelta p
    ∧ engine g = Ok ([], Wins [] [] [p]).
Proof.
  intros (c0 & steps & log & wins & Hlen & Hsteps & Hrange & Hbends & Hforced & Hv
          & Hs & Hd & Ha) Hne.
  destruct steps as [|s0 [|s1 [|s2 [|]]]]; try done.
  rewrite pathOf_four in Hforced.
  change (columnAt (colsFrom c0 [s0; s1; s2]) 0) with c0 in Hforced.
  change (columnAt (colsFrom c0 [s0; s1; s2]) 1) with (c0 + s0) in Hforced.
  change (columnAt (colsFrom c0 [s0; s1; s2]) 2) with (c0 + s0 + s1) in Hforced.
  change (columnAt (colsFrom c0 [s0; s1; s2]) 3) with (c0 + s0 + s1 + s2) in Hforced.
  set (p := [Coord 0 c0; Coord 1 (c0 + s0); Coord 2 (c0 + s0 + s1);
             Coord 3 (c0 + s0 + s1 + s2)]) in *.
  simpl in Hrange. rewrite !Forall_cons in Hrange.
  destruct Hrange as (Hr0 & Hr1 & Hr2 & Hr3 & _).
  rewrite !Forall_cons in Hsteps. destruct Hsteps as (Hs0 & Hs1 & Hs2 & _).
  assert (∀ x, x ∈ p → 0 ≤ row x < REEL_COUNT ∧ 0 ≤ col x < SYMBOLS_PER_REEL) as Hbounds.
  { intros x Hx. unfold REEL_COUNT. subst p. each_elem Hx ltac:(simpl; lia). }
  assert (connectingPath (gridOf g) p) as Hconn.
  { exists (Coord 0 c0), (Coord 3 (c0 + s0 + s1 + s2)). split_and!; try done.
    - simpl. unfold stepDown. simpl. lia.
    - intros x Hx. specialize (Hbounds x Hx). lia.
    - by apply (forcedPath_sharedSymbol _ _ _ _ _ _ Hforced Hne). }
  assert (¬ constantDelta p) as Hbent.
  { intros [d Hd']. simpl in Hd'. destruct Hd' as (H0 & H1 & H2 & _).
    unfold bends in Hbends. simpl in Hbends.
    assert (s0 = d ∧ s1 = d ∧ s2 = d) as (-> & -> & ->) by lia.
    assert (d = -1 ∨ d = 0 ∨ d = 1) as [->|[->| ->]] by lia; done. }
  exists p. split_and!; [done|done|done|].
  pose proof (engine_valid _ (proj1 Hforced)) as Hev. rewrite Hv in Hev.
  injection Hev as -> Hw.
  assert (p ∈ adjacency wins) as Hin'.
  { rewrite Hw. cbn [adjacency].
    pose proof (isValidGrid_gridOf _ (proj1 Hforced)) as Hvalid.
    apply (adjacencyOf_elem _ _ Hvalid). split.
    - destruct (rawAdjacency_reaches _ _ Hvalid Hconn) as (q & Hq & Hhead & _).
      pose proof (rawAdjacency_connecting _ _ Hvalid Hq) as Hqc.
      by rewrite <- (forced_connecting_unique _ _ _ _ _ Hforced Hne Hconn Hqc Hhead).
    - pose proof (connecting_shape _ _ Hconn) as (Hsd & _).
      destruct (isStraightOrDiagonalPath p) eqn:Hst; [|done].
      apply (isStraightOrDiagonalPath_spec _ Hsd) in Hst as [Hst|Hst]; [simpl in Hst; lia|done]. }
  rewrite Hv. destruct wins as [ws wd wa]. cbn [straight diagonal adjacency] in *.
  by rewrite (length_zero_nil _ Hs), (length_zero_nil _ Hd), (length_one_elem _ p Ha).
Qed.






(** ** The example inputs *)

Lemma numbersA_unitInterval : unitInterval numbersA.
Proof. by apply cycle_unitInterval. Qed.


Lemma textures_nonempty : ""%string ∉ SYMBOL_TEXTURES_LIST.
Proof. unfold SYMBOL_TEXTURES_LIST. set_solver. Qed.

Lemma textures_two :
  ∃ s t : string, s ∈ SYMBOL_TEXTURES_LIST ∧ t ∈ SYMBOL_TEXTURES_LIST ∧ s ≠ t.
Proof. exists "symbol1.png"%string, "symbol2.png"%string. unfold SYMBOL_TEXTURES_LIST. set_solver. Qed.

(** ** Renaming the symbols *)

Lemma forallb_fmap {A B} (g : A → B) (p : B → bool) (l : list A) :
  forallb p (g <$> l) = forallb (λ x, p (g x)) l.
Proof. induction l as [|x l IH]; [done|]. rewrite fmap_cons. cbn [forallb]. by rewrite IH. Qed.

Lemma forallb_pointwise {A} (p q : A → bool) (l : list A) :
  (∀ x, p x = q x) → forallb p l = forallb q l.
Proof. intros Hpq. induction l as [|x l IH]; [done|]. simpl. by rewrite Hpq, IH. Qed.

Section Relabel.
Context (f : string → string).
Hypothesis Hinj : Inj (=) (=) f.
Hypothesis Hempty : f "" = ""%string.

Lemma relabel_truthy (cell : Cell) : truthy (f <$> cell) = truthy cell.
Proof.
  destruct cell as [s|]; [|done]. simpl. apply bool_decide_ext. split.
  - intros Hne ->. done.
  - intros Hne Hs. apply Hne. apply Hinj. by rewrite Hempty.
Qed.

Lemma relabel_cell_eq (a b : Cell) : f <$> a = f <$> b ↔ a = b.
Proof.
  split; [|by intros ->]. destruct a, b; simpl; try done.
  intros [= Heq]. f_equal. by apply Hinj.
Qed.

Lemma relabel_isValidGrid grid : isValidGrid (relabel f grid) = isValidGrid grid.
Proof.
  destruct grid as [rows|]; [|done]. simpl. rewrite length_fmap.
  case_bool_decide; [done|]. rewrite forallb_fmap. apply forallb_pointwise.
  intros [cells|]; [|done]. simpl. unfold relabelCells. by rewrite length_fmap.
Qed.

Lemma relabel_rowAt grid (r : Z) :
  rowAt (relabel f grid) r
  = match rowAt grid r with
    | Ok cells => Ok (relabelCells f cells)
    | Throw e => Throw e
    end.
Proof.
  destruct grid as [rows|]; [|done]. simpl. unfold nthZ.
  case_bool_decide; [|done]. rewrite list_lookup_fmap.
  by destruct (rows !! Z.to_nat r) as [[cells|]|].
Qed.

Lemma relabel_cellAt grid (r c : Z) :
  cellAt (relabel f grid) r c
  = match cellAt grid r c with
    | Ok cell => Ok (f <$> cell)
    | Throw e => Throw e
    end.
Proof.
  unfold cellAt. rewrite relabel_rowAt. destruct (rowAt grid r) as [cells|e]; [|done].
  simpl. unfold nthZ, relabelCells. case_bool_decide; [|done]. rewrite list_lookup_fmap.
  by destruct (cells !! Z.to_nat c).
Qed.

Lemma forEach_ext {A St} (xs : list A) (body body' : A → St → Res St) s :
  (∀ x s, x ∈ xs → body x s = body' x s) → forEach xs body s = forEach xs body' s.
Proof.
  revert s. induction xs as [|x xs IH]; intros s Hext; [done|].
  simpl. rewrite Hext by left. destruct (body' x s) as [s'|e]; [|done]. simpl.
  apply IH. intros y s'' Hy. apply Hext. by right.
Qed.

Lemma relabel_horizontalRow grid (r : Z) wins :
  horizontalRow (relabel f grid) r wins = horizontalRow grid r wins.
Proof.
  unfold horizontalRow. rewrite relabel_cellAt.
  destruct (cellAt grid r 0) as [first|e]; [|done]. simpl.
  rewrite relabel_truthy. destruct (truthy first); [|done].
  rewrite relabel_rowAt. destruct (rowAt grid r) as [cells|e]; [|done].
  cbn [mbind Res_bind]. unfold relabelCells. rewrite forallb_fmap.
  rewrite (forallb_pointwise _ (λ symbol, bool_decide (symbol = first))); [done|].
  intros cell. apply bool_decide_ext, relabel_cell_eq.
Qed.

Lemma relabel_allMatchLoop grid (c : Z) first rs :
  allMatchLoop (relabel f grid) c (f <$> first) rs = allMatchLoop grid c first rs.
Proof.
  induction rs as [|r rs IH]; [done|]. cbn [allMatchLoop]. rewrite relabel_cellAt.
  destruct (cellAt grid r c) as [cell|e]; [|done]. cbn [mbind Res_bind].
  rewrite (bool_decide_ext (f <$> cell ≠ f <$> first) (cell ≠ first))
    by (by rewrite relabel_cell_eq).
  by rewrite IH.
Qed.

Lemma relabel_verticalColumn grid (c : Z) wins :
  verticalColumn (relabel f grid) c wins = verticalColumn grid c wins.
Proof.
  unfold verticalColumn. rewrite relabel_cellAt.
  destruct (cellAt grid 0 c) as [first|e]; [|done]. cbn [mbind Res_bind].
  rewrite relabel_truthy. destruct (truthy first); [|done].
  by rewrite relabel_allMatchLoop.
Qed.

Lemma relabel_diagonalLoop grid colAt (c : Z) first rs path :
  diagonalLoop (relabel f grid) colAt c (f <$> first) rs path
  = diagonalLoop grid colAt c first rs path.
Proof.
  revert path. induction rs as [|r rs IH]; intros path; [done|]. cbn [diagonalLoop].
  rewrite relabel_cellAt.
  destruct (cellAt grid r (colAt c r)) as [cell|e]; [|done]. cbn [mbind Res_bind].
  rewrite (bool_decide_ext (f <$> cell ≠ f <$> first) (cell ≠ first))
    by (by rewrite relabel_cell_eq).
  by rewrite IH.
Qed.

Lemma relabel_diagonalFrom grid colAt (c : Z) wins :
  diagonalFrom (relabel f grid) colAt c wins = diagonalFrom grid colAt c wins.
Proof.
  unfold diagonalFrom. rewrite relabel_cellAt.
  destruct (cellAt grid 0 c) as [first|e]; [|done]. cbn [mbind Res_bind].
  rewrite relabel_truthy. destruct (truthy first); [|done].
  by rewrite relabel_diagonalLoop.
Qed.

Lemma relabel_tryNeighbour grid symbol coord path dc st :
  tryNeighbour (relabel f grid) (f symbol) coord path dc st
  = tryNeighbour grid symbol coord path dc st.
Proof.
  unfold tryNeighbour. destruct (_ && _); [|done]. rewrite relabel_cellAt.
  destruct (cellAt grid _ _) as [cell|e]; [|done]. cbn [mbind Res_bind].
  by rewrite (bool_decide_ext (f <$> cell = Some (f symbol)) (cell = Some symbol))
    by (apply (relabel_cell_eq cell (Some symbol))).
Qed.

Lemma relabel_expand grid symbol coord path st :
  expand (relabel f grid) (f symbol) coord path st = expand grid symbol coord path st.
Proof. apply forEach_ext. intros dc st' _. apply relabel_tryNeighbour. Qed.

Lemma relabel_bfs grid symbol queue visited allPaths :
  bfs (relabel f grid) (f symbol) queue visited allPaths
  = bfs grid symbol queue visited allPaths.
Proof.
  remember (bfsMeasure grid (visited, queue)) as n eqn:Hn.
  revert queue visited allPaths Hn.
  induction (lt_wf n) as [n _ IH]. intros queue visited allPaths ->.
  destruct queue as [|[coord path] queue]; [by rewrite !bfs_nil|].
  destruct (decide (row coord = REEL_COUNT - 1)) as [Hrow|Hrow].
  - rewrite !bfs_bottom by done. eapply IH; [|done]. unfold bfsMeasure. simpl. lia.
  - rewrite !bfs_expand by done. rewrite relabel_expand.
    destruct (expand grid symbol coord path (visited, queue)) as [[visited' queue']|e] eqn:Hexp;
      [|done].
    cbn [mbind Res_bind]. eapply IH; [|done].
    apply expand_measure in Hexp. unfold bfsMeasure in *. simpl in *. lia.
Qed.

Lemma relabel_searchFrom grid symbol (c : Z) allPaths :
  searchFrom (relabel f grid) (f symbol) c allPaths = searchFrom grid symbol c allPaths.
Proof.
  unfold searchFrom. rewrite relabel_cellAt.
  destruct (cellAt grid 0 c) as [cell|e]; [|done]. cbn [mbind Res_bind].
  rewrite (bool_decide_ext (f <$> cell = Some (f symbol)) (cell = Some symbol))
    by (apply (relabel_cell_eq cell (Some symbol))).
  by rewrite relabel_bfs.
Qed.

Lemma relabel_flat grid :
  flat (relabel f grid)
  = match flat grid with
    | Ok cells => Ok (relabelCells f cells)
    | Throw e => Throw e
    end.
Proof.
  destruct grid as [rows|]; [|done].
  change (flat (relabel f (Some rows)))
    with (Ok (mjoin ((λ r : option (list Cell),
                        match r with None => [None] | Some cells => cells end)
                     <$> ((λ r : option (list Cell), relabelCells f <$> r) <$> rows)))).
  change (flat (Some rows))
    with (Ok (mjoin ((λ r : option (list Cell),
                        match r with None => [None] | Some cells => cells end)
                     <$> rows))).
  f_equal. induction rows as [|r rows IH]; [done|].
  rewrite !fmap_cons. cbn [mjoin list_join].
  etrans; [apply (f_equal (app _)); exact IH|]. unfold relabelCells.
  rewrite fmap_app. by destruct r.
Qed.

Lemma relabel_filterBoolean cells :
  filterBoolean (relabelCells f cells) = f <$> filterBoolean cells.
Proof.
  unfold filterBoolean, relabelCells. induction cells as [|cell cells IH]; [done|].
  rewrite fmap_cons. cbn [omap list_omap]. rewrite relabel_truthy.
  destruct (truthy cell) eqn:Ht.
  - destruct cell as [s|]; [|done]. cbn [fmap option_fmap option_map].
    rewrite fmap_cons. f_equal. apply IH.
  - replace (None : option string) with (@None string) by done.
    destruct cell as [s|]; apply IH.
Qed.

Lemma relabel_newSet xs : newSet (f <$> xs) = f <$> newSet xs.
Proof.
  unfold newSet.
  assert (∀ acc, foldl (λ acc x, if bool_decide (x ∈ acc) then acc else acc ++ [x])
                   (f <$> acc) (f <$> xs)
                 = f <$> foldl (λ acc x, if bool_decide (x ∈ acc) then acc else acc ++ [x])
                           acc xs) as H.
  { induction xs as [|x xs IH]; intros acc; [done|].
    rewrite fmap_cons. cbn [foldl].
    rewrite (bool_decide_ext (f x ∈ f <$> acc) (x ∈ acc)).
    - case_bool_decide; [apply IH|]. rewrite <- IH. by rewrite fmap_app.
    - rewrite list_elem_of_fmap. split; [|by eauto].
      intros (y & Hy%Hinj & Hin). by subst. }
  apply (H []).
Qed.

Lemma forEach_fmap {A B St} (g : A → B) (xs : list A) (body : B → St → Res St) s :
  forEach (g <$> xs) body s = forEach xs (λ x, body (g x)) s.
Proof.
  revert s. induction xs as [|x xs IH]; intros s; [done|]. simpl.
  destruct (body (g x) s); [|done]. simpl. apply IH.
Qed.

Lemma relabel_findAdjacencyWins grid :
  findAdjacencyWins (relabel f grid) = findAdjacencyWins grid.
Proof.
  unfold findAdjacencyWins. rewrite relabel_flat.
  destruct (flat grid) as [cells|e]; [|done]. cbn [mbind Res_bind].
  rewrite relabel_filterBoolean, relabel_newSet, forEach_fmap.
  apply forEach_ext. intros symbol allPaths _.
  apply forEach_ext. intros c allPaths' _. apply relabel_searchFrom.
Qed.

Lemma relabel_computeWins grid : computeWins (relabel f grid) = computeWins grid.
Proof.
  unfold computeWins. rewrite relabel_isValidGrid.
  destruct (isValidGrid grid); [|done]. cbn [mbind Res_bind].
  unfold findHorizontalWins, findVerticalWins, findDiagonalWins.
  rewrite (forEach_ext _ (horizontalRow (relabel f grid)) (horizontalRow grid))
    by (intros; apply relabel_horizontalRow).
  rewrite (forEach_ext _ (verticalColumn (relabel f grid)) (verticalColumn grid))
    by (intros; apply relabel_verticalColumn).
  rewrite (forEach_ext _ (diagonalFrom (relabel f grid) (λ c r, c + r))
             (diagonalFrom grid (λ c r, c + r)))
    by (intros; apply relabel_diagonalFrom).
  rewrite relabel_findAdjacencyWins.
  destruct (forEach _ (horizontalRow grid) []) as [hw|e]; [|done]. cbn [mbind Res_bind].
  destruct (forEach _ (verticalColumn grid) []) as [vw|e]; [|done]. cbn [mbind Res_bind].
  destruct (forEach _ (diagonalFrom grid (λ c r, c + r)) []) as [dw|e]; [|done]. cbn [mbind Res_bind].
  rewrite (forEach_ext _ (diagonalFrom (relabel f grid) (λ c r, c - r))
             (diagonalFrom grid (λ c r, c - r)))
    by (intros; apply relabel_diagonalFrom).
  done.
Qed.

End Relabel.

Lemma prefixed_inj : Inj (=) (=) prefixed.
Proof. intros [|a s] [|b t]; simpl; congruence. Qed.

(** ** The reels *)

Section ReelLemmas.
Context `{Reel.Host}.

(** *** The store *)

Lemma length_setX v id heap : length (Reel.setX v id heap) = length heap.
Proof. apply length_alter. Qed.

Lemma length_setTexture tex n id heap : length (Reel.setTexture tex n id heap) = length heap.
Proof. apply length_alter. Qed.

Lemma xOf_setX_eq v id heap :
  (id < length heap)%nat → Reel.xOf (Reel.setX v id heap) id = v.
Proof.
  intros Hid. unfold Reel.xOf, Reel.setX. rewrite list_lookup_alter_eq.
  destruct (lookup_lt_is_Some_2 heap id Hid) as [s ->]. done.
Qed.

Lemma xOf_setX_ne v id id' heap :
  id ≠ id' → Reel.xOf (Reel.setX v id heap) id' = Reel.xOf heap id'.
Proof. intros Hne. unfold Reel.xOf, Reel.setX. by rewrite list_lookup_alter_ne. Qed.

Lemma nameOf_setX v id id' heap :
  Reel.nameOf (Reel.setX v id heap) id' = Reel.nameOf heap id'.
Proof.
  unfold Reel.nameOf, Reel.setX. destruct (decide (id = id')) as [->|Hne].
  - rewrite list_lookup_alter_eq. by destruct (heap !! id').
  - by rewrite list_lookup_alter_ne.
Qed.

Lemma xOf_setTexture tex n id id' heap :
  Reel.xOf (Reel.setTexture tex n id heap) id' = Reel.xOf heap id'.
Proof.
  unfold Reel.xOf, Reel.setTexture. destruct (decide (id = id')) as [->|Hne].
  - rewrite list_lookup_alter_eq. by destruct (heap !! id').
  - by rewrite list_lookup_alter_ne.
Qed.

Lemma nameOf_setTexture_eq tex n id heap :
  (id < length heap)%nat → Reel.nameOf (Reel.setTexture tex n id heap) id = n.
Proof.
  intros Hid. unfold Reel.nameOf, Reel.setTexture. rewrite list_lookup_alter_eq.
  destruct (lookup_lt_is_Some_2 heap id Hid) as [s ->]. done.
Qed.

Lemma nameOf_setTexture_ne tex n id id' heap :
  id ≠ id' → Reel.nameOf (Reel.setTexture tex n id heap) id' = Reel.nameOf heap id'.
Proof. intros Hne. unfold Reel.nameOf, Reel.setTexture. by rewrite list_lookup_alter_ne. Qed.

(** *** The sort *)

Lemma insertByX_perm heap a l : Reel.insertByX heap a l ≡ₚ a :: l.
Proof.
  induction l as [|b l IH]; [done|]. simpl.
  destruct (Qle_bool _ _); [done|]. rewrite IH. apply Permutation_swap.
Qed.

Lemma sortByX_perm heap l : Reel.sortByX heap l ≡ₚ l.
Proof.
  induction l as [|a l IH]; [done|]. simpl.
  rewrite insertByX_perm. by rewrite IH.
Qed.

Lemma sortByX_length heap l : length (Reel.sortByX heap l) = length l.
Proof. by rewrite sortByX_perm. Qed.

Lemma sortByX_elem heap l id : id ∈ Reel.sortByX heap l ↔ id ∈ l.
Proof. by rewrite sortByX_perm. Qed.

Lemma sortByX_NoDup heap l : NoDup l → NoDup (Reel.sortByX heap l).
Proof. by rewrite sortByX_perm. Qed.

Lemma insertByX_sorted heap a l :
  StronglySorted (leX heap) l → StronglySorted (leX heap) (Reel.insertByX heap a l).
Proof.
  induction 1 as [|b l Hl IH Hb]; simpl.
  - repeat constructor.
  - destruct (Qle_bool _ _) eqn:Hab.
    + apply Qle_bool_iff in Hab. constructor; [by constructor|].
      constructor; [done|]. eapply Forall_impl; [exact Hb|].
      intros c Hbc. unfold leX in *. by eapply Qle_trans.
    + constructor; [done|]. rewrite insertByX_perm. constructor; [|done].
      unfold leX. apply Qnot_lt_le. intros Hlt. apply Qlt_le_weak in Hlt.
      apply Qle_bool_iff in Hlt. congruence.
Qed.

Lemma sortByX_sorted heap l : StronglySorted (leX heap) (Reel.sortByX heap l).
Proof. induction l as [|a l IH]; simpl; [constructor|by apply insertByX_sorted]. Qed.

(** A sorted array is left as it is, also where positions are equal. *)
Lemma sortByX_sorted_id heap l : StronglySorted (leX heap) l → Reel.sortByX heap l = l.
Proof.
  induction 1 as [|a l Hl IH Ha]; [done|]. simpl. rewrite IH.
  destruct l as [|b l]; [done|]. simpl.
  apply Forall_cons in Ha as [Hab _]. apply Qle_bool_iff in Hab. by rewrite Hab.
Qed.

Lemma insertByX_ext heap heap' a l :
  (∀ id, id ∈ a :: l → Reel.xOf heap id = Reel.xOf heap' id) →
  Reel.insertByX heap a l = Reel.insertByX heap' a l.
Proof.
  induction l as [|b l IH]; intros Hext; [done|]. simpl.
  rewrite (Hext a) by left. rewrite (Hext b) by (right; left).
  destruct (Qle_bool _ _); [done|]. f_equal. apply IH.
  intros id Hid. apply Hext. set_solver.
Qed.

Lemma sortByX_ext heap heap' l :
  (∀ id, id ∈ l → Reel.xOf heap id = Reel.xOf heap' id) →
  Reel.sortByX heap l = Reel.sortByX heap' l.
Proof.
  induction l as [|a l IH]; intros Hext; [done|]. simpl.
  rewrite IH by (intros; apply Hext; by right).
  apply insertByX_ext. intros id Hid. apply Hext.
  apply elem_of_cons in Hid as [->|Hid]; [left|right; by apply sortByX_elem in Hid].
Qed.

(** Where the positions differ, the order the sort gives is the only one. *)
Lemma sortByX_unique heap l l' :
  l ≡ₚ l' →
  StronglySorted (λ a b, (Reel.xOf heap a < Reel.xOf heap b)%Q) l' →
  Reel.sortByX heap l = l'.
Proof.
  intros Hperm Hl'.
  assert (∀ a b, (Reel.xOf heap a < Reel.xOf heap b)%Q → leX heap a b) as Hweak
    by (intros a b; apply Qlt_le_weak).
  apply (StronglySorted_unique_strong (leX heap)).
  - intros a b Ha Hb Hab Hba.
    destruct (decide (a = b)) as [|Hne]; [done|]. exfalso.
    assert (∀ l0 : list nat, StronglySorted (λ a b, (Reel.xOf heap a < Reel.xOf heap b)%Q) l0 →
              ∀ a b, a ∈ l0 → b ∈ l0 → a ≠ b →
              (Reel.xOf heap a < Reel.xOf heap b)%Q ∨ (Reel.xOf heap b < Reel.xOf heap a)%Q) as Hlin.
    { clear. induction 1 as [|c l0 Hl0 IH Hc]; intros a b Ha Hb Hne; [by inversion Ha|].
      rewrite Forall_forall in Hc.
      apply elem_of_cons in Ha as [->|Ha]; apply elem_of_cons in Hb as [->|Hb].
      - done.
      - left. by apply Hc.
      - right. by apply Hc.
      - by apply IH. }
    apply sortByX_elem in Ha. rewrite Hperm in Ha.
    destruct (Hlin l' Hl' a b Ha Hb Hne) as [Hlt|Hlt].
    + by apply Qle_not_lt in Hba.
    + by apply Qle_not_lt in Hab.
  - apply sortByX_sorted.
  - clear -Hl' Hweak. induction Hl' as [|c l0 Hl0 IH Hc]; constructor; [done|].
    eapply Forall_impl; [exact Hc|]. intros; by apply Hweak.
  - by rewrite sortByX_perm.
Qed.

(** An array whose positions grow with the index is sorted. *)
Lemma sorted_by_index (R : nat → nat → Prop) (l : list nat) :
  (∀ i j a b, l !! i = Some a → l !! j = Some b → (i < j)%nat → R a b) →
  StronglySorted R l.
Proof.
  induction l as [|c l IH]; intros Hl; constructor.
  - apply IH. intros i j a b Ha Hb Hij. apply (Hl (S i) (S j)); [done..|lia].
  - apply Forall_forall. intros b Hb. apply list_elem_of_lookup in Hb as [j Hj].
    apply (Hl 0%nat (S j)); [done..|lia].
Qed.

(** *** [snapToGrid] *)

Lemma align_snoc s order id heap :
  Reel.align s (order ++ [id]) heap
  = Reel.setX (inject_Z (Z.of_nat (length order) * s)) id (Reel.align s order heap).
Proof.
  unfold Reel.align. rewrite imap_app, foldl_app. simpl. by rewrite Nat.add_0_r.
Qed.

Lemma align_length s order heap : length (Reel.align s order heap) = length heap.
Proof.
  induction order as [|id order IH] using rev_ind; [done|].
  by rewrite align_snoc, length_setX.
Qed.

Lemma align_nameOf s order heap id :
  Reel.nameOf (Reel.align s order heap) id = Reel.nameOf heap id.
Proof.
  induction order as [|id' order IH] using rev_ind; [done|].
  by rewrite align_snoc, nameOf_setX.
Qed.

Lemma align_xOf_other s order heap id :
  id ∉ order → Reel.xOf (Reel.align s order heap) id = Reel.xOf heap id.
Proof.
  induction order as [|id' order IH] using rev_ind; intros Hid; [done|].
  rewrite align_snoc. rewrite not_elem_of_app, not_elem_of_cons in Hid.
  destruct Hid as (Hid & Hne & _). rewrite xOf_setX_ne by done. by apply IH.
Qed.

Lemma align_xOf s order heap (i : nat) id :
  NoDup order → order !! i = Some id → (id < length heap)%nat →
  Reel.xOf (Reel.align s order heap) id = inject_Z (Z.of_nat i * s).
Proof.
  induction order as [|id' order IH] using rev_ind; intros Hnd Hi Hid; [done|].
  rewrite align_snoc. apply NoDup_app in Hnd as (Hnd & Hnot & _).
  destruct (decide (i < length order)%nat) as [Hlt|Hge].
  - rewrite lookup_app_l in Hi by done.
    rewrite xOf_setX_ne; [by apply IH|].
    intros ->. eapply Hnot; [by eapply list_elem_of_lookup_2|left].
  - rewrite lookup_app_r in Hi by lia.
    destruct (i - length order)%nat eqn:Hd; [|by destruct n]. injection Hi as ->.
    replace i with (length order) by lia.
    apply xOf_setX_eq. by rewrite align_length.
Qed.

Lemma aligned_le s order heap :
  NoDup order → Forall (λ id, (id < length heap)%nat) order → 0 ≤ s →
  StronglySorted (leX (Reel.align s order heap)) order.
Proof.
  intros Hnd Hvalid Hs. apply sorted_by_index. intros i j a b Ha Hb Hij.
  rewrite Forall_forall in Hvalid. unfold leX.
  rewrite (align_xOf s order heap i a), (align_xOf s order heap j b);
    try done; try (apply Hvalid; by eapply list_elem_of_lookup_2).
  rewrite <- Zle_Qle. nia.
Qed.

Lemma aligned_lt s order heap :
  NoDup order → Forall (λ id, (id < length heap)%nat) order → 0 < s →
  StronglySorted (λ a b, (Reel.xOf (Reel.align s order heap) a
                          < Reel.xOf (Reel.align s order heap) b)%Q) order.
Proof.
  intros Hnd Hvalid Hs. apply sorted_by_index. intros i j a b Ha Hb Hij.
  rewrite Forall_forall in Hvalid.
  rewrite (align_xOf s order heap i a), (align_xOf s order heap j b);
    try done; try (apply Hvalid; by eapply list_elem_of_lookup_2).
  rewrite <- Zlt_Qlt. nia.
Qed.

Lemma snapToGrid_fields reel :
  Reel.symbolSize (Reel.snapToGrid reel) = Reel.symbolSize reel
  ∧ Reel.symbolCount (Reel.snapToGrid reel) = Reel.symbolCount reel
  ∧ Reel.speed (Reel.snapToGrid reel) = Reel.speed reel
  ∧ Reel.isSpinning (Reel.snapToGrid reel) = Reel.isSpinning reel
  ∧ Reel.manualLockTextures (Reel.snapToGrid reel) = Reel.manualLockTextures reel
  ∧ Reel.initialOrderSprites (Reel.snapToGrid reel) = Reel.initialOrderSprites reel
  ∧ length (Reel.heap (Reel.snapToGrid reel)) = length (Reel.heap reel)
  ∧ ∀ id, Reel.nameOf (Reel.heap (Reel.snapToGrid reel)) id = Reel.nameOf (Reel.heap reel) id.
Proof.
  unfold Reel.snapToGrid.
  destruct (Reel.manualLockTextures reel) eqn:Hlock;
    [destruct (Reel.initialOrderSprites reel) as [initial|] eqn:Hinit;
       [case_bool_decide|]|];
    simpl; rewrite ?Hlock, ?Hinit, align_length;
    repeat split; try done; intros id; apply align_nameOf.
Qed.

(** The snap of a reel that is not locked. *)
Lemma snapToGrid_unlocked reel :
  Reel.manualLockTextures reel = false ∨ Reel.initialOrderSprites reel = None →
  wellFormed reel → 0 ≤ Reel.symbolSize reel →
  wellFormed (Reel.snapToGrid reel)
  ∧ Reel.symbols (Reel.snapToGrid reel) = Reel.getVisibleSymbols reel
  ∧ Reel.getVisibleSymbols (Reel.snapToGrid reel) = Reel.getVisibleSymbols reel
  ∧ aligned (Reel.snapToGrid reel).
Proof.
  intros Hlock (Hnd & Hvalid & Hcount) Hs.
  assert (Reel.snapToGrid reel
          = Reel.withHeap
              (Reel.align (Reel.symbolSize reel) (Reel.getVisibleSymbols reel) (Reel.heap reel))
              (Reel.withSymbols (Reel.getVisibleSymbols reel) reel)) as ->.
  { unfold Reel.snapToGrid, Reel.getVisibleSymbols.
    destruct Hlock as [->| ->]; [done|]. by destruct (Reel.manualLockTextures reel). }
  unfold Reel.getVisibleSymbols. cbn [Reel.heap Reel.symbols Reel.withHeap Reel.withSymbols].
  set (sorted := Reel.sortByX (Reel.heap reel) (Reel.symbols reel)).
  assert (NoDup sorted) as Hnd' by (by apply sortByX_NoDup).
  assert (Forall (λ id, (id < length (Reel.heap reel))%nat) sorted) as Hvalid'.
  { unfold sorted. by rewrite sortByX_perm. }
  assert (Reel.sortByX (Reel.align (Reel.symbolSize reel) sorted (Reel.heap reel)) sorted
          = sorted) as Hsame.
  { apply sortByX_sorted_id. by apply aligned_le. }
  split_and!.
  - unfold wellFormed. cbn. rewrite align_length. unfold sorted at 3.
    by rewrite sortByX_length.
  - done.
  - done.
  - unfold aligned, Reel.getVisibleSymbols.
    cbn [Reel.heap Reel.symbols Reel.symbolSize Reel.withHeap Reel.withSymbols].
    rewrite Hsame. intros i id Hi. apply align_xOf; [done..|].
    rewrite Forall_forall in Hvalid'. apply Hvalid'. by eapply list_elem_of_lookup_2.
Qed.

(** The snap of a locked reel. *)
Lemma snapToGrid_locked reel initial :
  Reel.manualLockTextures reel = true →
  Reel.initialOrderSprites reel = Some initial →
  initial ≡ₚ Reel.symbols reel →
  wellFormed reel → 0 < Reel.symbolSize reel →
  wellFormed (Reel.snapToGrid reel)
  ∧ Reel.symbols (Reel.snapToGrid reel) = Reel.symbols reel
  ∧ Reel.getVisibleSymbols (Reel.snapToGrid reel) = initial
  ∧ aligned (Reel.snapToGrid reel).
Proof.
  intros Hlock Hinit Hperm (Hnd & Hvalid & Hcount) Hs.
  assert (Reel.snapToGrid reel
          = Reel.withHeap (Reel.align (Reel.symbolSize reel) initial (Reel.heap reel)) reel)
    as ->.
  { unfold Reel.snapToGrid. rewrite Hlock, Hinit.
    rewrite bool_decide_eq_true_2; [done|]. by rewrite Hperm. }
  assert (NoDup initial) as Hnd' by (by rewrite Hperm).
  assert (Forall (λ id, (id < length (Reel.heap reel))%nat) initial) as Hvalid'
    by (by rewrite Hperm).
  assert (Reel.sortByX (Reel.align (Reel.symbolSize reel) initial (Reel.heap reel))
            (Reel.symbols reel) = initial) as Hsame.
  { apply sortByX_unique; [done|]. by apply aligned_lt. }
  split_and!.
  - unfold wellFormed. cbn. by rewrite align_length.
  - done.
  - done.
  - unfold aligned, Reel.getVisibleSymbols.
    cbn [Reel.heap Reel.symbols Reel.symbolSize Reel.withHeap Reel.withSymbols].
    rewrite Hsame. intros i id Hi. apply align_xOf; [done..|].
    rewrite Forall_forall in Hvalid'. apply Hvalid'. by eapply list_elem_of_lookup_2.
Qed.

(** *** [setColumns] *)

Lemma run_warn {B} args (f : unit → Gen B) rnd w :
  (Reel.consoleWarn args ≫= f) rnd w
  = f () rnd (MkWorld (drawn w) (console w ++ [joinWith " " args])).
Proof. done. Qed.

Lemma setColumn_run n sprite heap rnd w :
  (sprite < length heap)%nat →
  ∃ heap', Reel.setColumn (Some n) sprite heap rnd w
           = Done heap' (MkWorld (drawn w) (console w ++ textureWarnings [n]))
    ∧ length heap' = length heap
    ∧ (∀ id, Reel.xOf heap' id = Reel.xOf heap id)
    ∧ Reel.nameOf heap' sprite = offered (Reel.nameOf heap sprite) n
    ∧ (∀ id, id ≠ sprite → Reel.nameOf heap' id = Reel.nameOf heap id).
Proof.
  intros Hid. unfold Reel.setColumn, Reel.textureOf, textureWarnings, offered. simpl.
  destruct (Reel.getTexture n) as [tex|] eqn:Htex.
  - eexists. split; [|split_and!].
    + unfold mret, Gen_ret. rewrite app_nil_r. by destruct w.
    + apply length_setTexture.
    + intros id. apply xOf_setTexture.
    + by apply nameOf_setTexture_eq.
    + intros id Hne. by apply nameOf_setTexture_ne.
  - exists heap. rewrite run_warn. done.
Qed.

Lemma textureWarnings_snoc ns n : textureWarnings (ns ++ [n]) = textureWarnings ns ++ textureWarnings [n].
Proof. unfold textureWarnings. by rewrite omap_app. Qed.

Lemma setColumns_loop ordered ns heap rnd w :
  NoDup ordered → Forall (λ id, (id < length heap)%nat) ordered →
  length ns = length ordered →
  ∃ heap', forEachG (imap pair ordered)
             (λ '(i, sprite) heap, Reel.setColumn (ns !! i) sprite heap) heap rnd w
           = Done heap' (MkWorld (drawn w) (console w ++ textureWarnings ns))
    ∧ length heap' = length heap
    ∧ (∀ id, Reel.xOf heap' id = Reel.xOf heap id)
    ∧ (∀ i id n, ordered !! i = Some id → ns !! i = Some n →
         Reel.nameOf heap' id = offered (Reel.nameOf heap id) n)
    ∧ (∀ id, id ∉ ordered → Reel.nameOf heap' id = Reel.nameOf heap id).
Proof.
  intros Hnd Hvalid Hlen. rewrite Forall_forall in Hvalid.
  loop_inv (λ (k : nat) (heap' : list Reel.Sprite) (w' : World),
    length heap' = length heap
    ∧ (∀ id, Reel.xOf heap' id = Reel.xOf heap id)
    ∧ (∀ i id n, ordered !! i = Some id → ns !! i = Some n →
         Reel.nameOf heap' id
         = if decide (i < k)%nat then offered (Reel.nameOf heap id) n
           else Reel.nameOf heap id)
    ∧ (∀ id, id ∉ ordered → Reel.nameOf heap' id = Reel.nameOf heap id)
    ∧ w' = MkWorld (drawn w) (console w ++ textureWarnings (take k ns))).
  - split_and!; try done. by rewrite take_0, app_nil_r; destruct w.
  - intros k [k' id] heap1 w1 Hk (Hl1 & Hx1 & Hn1 & Ho1 & ->).
    rewrite list_lookup_imap in Hk.
    destruct (ordered !! k) as [id'|] eqn:Hid; [|done]. injection Hk as <- <-.
    assert (k < length ns)%nat as Hkn by (rewrite Hlen; by eapply lookup_lt_Some).
    destruct (lookup_lt_is_Some_2 ns k Hkn) as [n Hn]. rewrite Hn.
    assert (id' < length heap1)%nat as Hin
      by (rewrite Hl1; apply Hvalid; by eapply list_elem_of_lookup_2).
    destruct (setColumn_run n id' heap1 rnd
                (MkWorld (drawn w) (console w ++ textureWarnings (take k ns))) Hin)
      as (heap2 & Hrun & Hl2 & Hx2 & Hn2 & Ho2).
    exists heap2. eexists. split; [exact Hrun|]. split_and!.
    + congruence.
    + intros id. by rewrite Hx2.
    + intros i id m Hi Hm. destruct (decide (i = k)) as [->|Hne].
      * assert (id = id') as -> by congruence. assert (m = n) as -> by congruence.
        rewrite decide_True by lia. rewrite Hn2.
        rewrite (Hn1 k id' n Hid Hn). by rewrite decide_False by lia.
      * rewrite Ho2.
        -- rewrite (Hn1 i id m Hi Hm). repeat case_decide; try done; lia.
        -- intros ->. apply Hne. by eapply NoDup_lookup.
    + intros id Hnot. rewrite Ho2; [by apply Ho1|].
      intros ->. apply Hnot. by eapply list_elem_of_lookup_2.
    + simpl. rewrite (take_S_r ns k n Hn), textureWarnings_snoc. by rewrite app_assoc.
  - rewrite length_imap in Hinv. destruct Hinv as (Hl1 & Hx1 & Hn1 & Ho1 & ->).
    exists s. split_and!; try done.
    + by rewrite <- Hlen, firstn_all.
    + intros i id n Hi Hn. rewrite (Hn1 i id n Hi Hn).
      rewrite decide_True; [done|]. by eapply lookup_lt_Some.
Qed.

Lemma setColumns_run reel ns rnd w :
  wellFormed reel →
  Reel.manualLockTextures reel = false ∨ Reel.initialOrderSprites reel = None →
  0 ≤ Reel.symbolSize reel →
  Z.of_nat (length ns) = Reel.symbolCount reel →
  ∃ reel', Reel.setColumns (Some ns) reel rnd w
           = Done reel' (MkWorld (drawn w) (console w ++ textureWarnings ns))
    ∧ columnsSet reel ns reel'.
Proof.
  intros (Hnd & Hvalid & Hcount) Hlock Hs Hlen. unfold Reel.setColumns.
  rewrite bool_decide_eq_false_2 by (by intros ?).
  set (ordered := Reel.sortByX (Reel.heap reel) (Reel.symbols reel)).
  assert (NoDup ordered) as Hnd' by (by apply sortByX_NoDup).
  assert (Forall (λ id, (id < length (Reel.heap reel))%nat) ordered) as Hvalid'
    by (unfold ordered; by rewrite sortByX_perm).
  assert (length ns = length ordered) as Hlen'
    by (unfold ordered; rewrite sortByX_length; lia).
  destruct (setColumns_loop ordered ns (Reel.heap reel) rnd w Hnd' Hvalid' Hlen')
    as (heap1 & Hrun & Hl1 & Hx1 & Hn1 & Ho1).
  rewrite (run_bind _ _ _ _ _ _ Hrun).
  set (reel1 := Reel.withHeap heap1 reel).
  assert (wellFormed reel1) as Hwf1.
  { unfold wellFormed, reel1. cbn. by rewrite Hl1. }
  assert (Reel.getVisibleSymbols reel1 = ordered) as Hvis1.
  { unfold Reel.getVisibleSymbols, reel1, ordered. cbn. apply sortByX_ext. intros; apply Hx1. }
  destruct (snapToGrid_unlocked reel1) as (Hwf2 & Hsym2 & Hvis2 & Hal2); [done..|].
  destruct (snapToGrid_fields reel1) as (F1 & F2 & F3 & F4 & F5 & F6 & F7 & F8).
  exists (Reel.snapToGrid reel1). unfold columnsSet. split_and!; try done.
  unfold visibleNames. rewrite Hvis2, Hvis1.
  change (Reel.getVisibleSymbols reel) with ordered.
  apply list_eq. intros i. rewrite lookup_zip_with, !list_lookup_fmap.
  destruct (ordered !! i) as [id|] eqn:Hid; simpl; [|done].
  assert (i < length ns)%nat as Hi by (rewrite Hlen'; by eapply lookup_lt_Some).
  destruct (lookup_lt_is_Some_2 ns i Hi) as [n Hn]. rewrite Hn. simpl.
  f_equal. rewrite F8. unfold reel1. cbn. by eapply Hn1.
Qed.

(** *** The constructor *)

Lemma createRandomSymbol_run rnd w :
  Reel.createRandomSymbol rnd w
  = Done (Reel.MkSprite 0 (drawnName (rnd (drawn w)))
            (Reel.textureOf (drawnName (rnd (drawn w)))))
         (MkWorld (S (drawn w)) (console w)).
Proof. done. Qed.

Lemma new_run (symbolCount symbolSize : Z) rnd w :
  0 ≤ symbolCount → 0 ≤ symbolSize →
  ∃ reel, Reel.new symbolCount symbolSize rnd w = Done reel (after (Z.to_nat symbolCount) w)
    ∧ wellFormed reel ∧ aligned reel
    ∧ visibleNames reel
      = (λ i, drawnName (rnd (drawn w + i)%nat)) <$> seq 0 (Z.to_nat symbolCount)
    ∧ Reel.symbolSize reel = symbolSize
    ∧ Reel.symbolCount reel = symbolCount
    ∧ Reel.speed reel = 0%Q
    ∧ Reel.isSpinning reel = false
    ∧ Reel.manualLockTextures reel = false
    ∧ Reel.initialOrderSprites reel = None.
Proof.
  intros Hcount Hsize. unfold Reel.new, Reel.createSymbols.
  cbn [Reel.symbolCount Reel.withSymbols Reel.heap Reel.symbols Reel.symbolSize
       Reel.speed Reel.isSpinning Reel.manualLockTextures Reel.initialOrderSprites].
  unfold mbind at 1. unfold Gen_bind at 1.
  loop_inv (λ (k : nat) (reel : Reel.t) (w' : World),
    Reel.symbols reel = seq 0 k
    ∧ length (Reel.heap reel) = k
    ∧ (∀ i, (i < k)%nat →
         Reel.xOf (Reel.heap reel) i = inject_Z (Z.of_nat i * symbolSize)
         ∧ Reel.nameOf (Reel.heap reel) i = drawnName (rnd (drawn w + i)%nat))
    ∧ w' = after k w
    ∧ Reel.symbolSize reel = symbolSize
    ∧ Reel.symbolCount reel = symbolCount
    ∧ Reel.speed reel = 0%Q
    ∧ Reel.isSpinning reel = false
    ∧ Reel.manualLockTextures reel = false
    ∧ Reel.initialOrderSprites reel = None).
  - split_and!; try done; [intros; lia|]. unfold after. rewrite Nat.add_0_r. by destruct w.
  - intros k i reel w1 Hi (Hsym & Hlen & Hcells & -> & F1 & F2 & F3 & F4 & F5 & F6).
    apply lookup_seqZ in Hi as [-> Hk].
    rewrite (run_bind _ _ _ _ _ _ (createRandomSymbol_run rnd (after k w))).
    eexists _, _. split; [reflexivity|].
    cbn [Reel.symbolCount Reel.withSymbols Reel.withHeap Reel.heap Reel.symbols
         Reel.symbolSize Reel.speed Reel.isSpinning Reel.manualLockTextures
         Reel.initialOrderSprites].
    split_and!; try done.
    + by rewrite Hsym, Hlen, seq_S.
    + rewrite length_setX, length_app. simpl. lia.
    + intros j Hj. rewrite nameOf_setX. destruct (decide (j = k)) as [->|Hne].
      * rewrite Hlen. rewrite xOf_setX_eq by (rewrite length_app; simpl; lia).
        split; [by rewrite F1, Z.add_0_l|].
        unfold Reel.nameOf. rewrite lookup_app_r by lia.
        by replace (k - length (Reel.heap reel))%nat with 0%nat by lia.
      * rewrite xOf_setX_ne by lia. destruct (Hcells j) as [Hx Hn]; [lia|].
        unfold Reel.xOf, Reel.nameOf in *. by rewrite lookup_app_l by lia.
    + unfold after. simpl. f_equal. lia.
  - rewrite length_seqZ in Hinv.
    destruct Hinv as (Hsym & Hlen & Hcells & -> & F1 & F2 & F3 & F4 & F5 & F6).
    set (n := Z.to_nat symbolCount) in *.
    assert (wellFormed s) as Hwf.
    { unfold wellFormed. rewrite Hsym, Hlen, length_seq. split_and!.
      - apply NoDup_seq.
      - apply Forall_forall. intros i Hi%elem_of_seq. lia.
      - lia. }
    assert (Reel.getVisibleSymbols s = seq 0 n) as Hvis.
    { unfold Reel.getVisibleSymbols. rewrite Hsym. apply sortByX_sorted_id.
      apply sorted_by_index. intros i j a b Ha Hb Hij.
      apply lookup_seq in Ha as [-> Ha], Hb as [-> Hb]. cbn [Nat.add]. unfold leX.
      rewrite (proj1 (Hcells _ Ha)), (proj1 (Hcells _ Hb)), <- Zle_Qle. nia. }
    destruct (snapToGrid_unlocked s) as (Hwf2 & Hsym2 & Hvis2 & Hal2);
      [by left|done|lia|].
    destruct (snapToGrid_fields s) as (G1 & G2 & G3 & G4 & G5 & G6 & G7 & G8).
    exists (Reel.snapToGrid s). split; [reflexivity|].
    split_and!; [exact Hwf2|exact Hal2| |congruence..].
    unfold visibleNames. rewrite Hvis2, Hvis.
    apply list_eq. intros i. rewrite !list_lookup_fmap.
    destruct (seq 0 n !! i) as [j|] eqn:Hj; [|done]. simpl. f_equal.
    apply lookup_seq in Hj as [-> Hj]. cbn [Nat.add]. rewrite G8. by apply Hcells.
Qed.

(** *** [update] of a locked reel *)

Lemma move_heap dx symbols heap :
  length (foldl (λ heap sprite, Reel.setX (Reel.subF (Reel.xOf heap sprite) dx) sprite heap)
            heap symbols) = length heap
  ∧ ∀ id, Reel.nameOf
            (foldl (λ heap sprite, Reel.setX (Reel.subF (Reel.xOf heap sprite) dx) sprite heap)
               heap symbols) id
          = Reel.nameOf heap id.
Proof.
  revert heap. induction symbols as [|sprite symbols IH]; intros heap; [done|].
  simpl. destruct (IH (Reel.setX (Reel.subF (Reel.xOf heap sprite) dx) sprite heap))
    as [Hlen Hname].
  split; [by rewrite Hlen, length_setX|]. intros id. by rewrite Hname, nameOf_setX.
Qed.









(** *** The grid of [SlotMachine] *)

Lemma buildGridFromReels_run r0 r1 r2 r3 rest :
  SlotMachine.buildGridFromReels (r0 :: r1 :: r2 :: r3 :: rest)
  = Ok [readRow r0; readRow r1; readRow r2; readRow r3].
Proof. reflexivity. Qed.

Lemma buildGridFromReels_short reels :
  (length reels < 4)%nat → SlotMachine.buildGridFromReels reels = Throw TypeError.
Proof.
  intros Hlen. destruct reels as [|r0 [|r1 [|r2 [|r3 rest]]]]; simpl in Hlen;
    first [lia | reflexivity].
Qed.

Lemma visibleSprites_names reel :
  wellFormed reel → Reel.name <$> SlotMachine.visibleSprites reel = visibleNames reel.
Proof.
  intros (Hnd & Hvalid & Hcount). unfold SlotMachine.visibleSprites, visibleNames.
  assert (Forall (λ id, (id < length (Reel.heap reel))%nat) (Reel.getVisibleSymbols reel))
    as Hvis by (unfold Reel.getVisibleSymbols; by rewrite sortByX_perm).
  induction Hvis as [|id ids Hid _ IH]; [done|]. cbn [omap list_omap].
  destruct (lookup_lt_is_Some_2 _ _ Hid) as [s Hs]. rewrite Hs.
  rewrite !fmap_cons. rewrite IH. unfold Reel.nameOf. by rewrite Hs.
Qed.

Lemma readRow_names reel ns :
  wellFormed reel → Z.of_nat (length ns) = SYMBOLS_PER_REEL →
  visibleNames reel = Some <$> ns → readRow reel = Some <$> ns.
Proof.
  intros Hwf Hlen Hnames. unfold readRow.
  assert (∀ c, nthZ (SlotMachine.visibleSprites reel) c ≫= Reel.name
               = mjoin (nthZ (Some <$> ns) c)) as Hcell.
  { intros c. rewrite <- Hnames, <- (visibleSprites_names reel Hwf). unfold nthZ.
    case_bool_decide; [|done]. rewrite list_lookup_fmap.
    by destruct (SlotMachine.visibleSprites reel !! Z.to_nat c). }
  rewrite (list_fmap_ext _ (λ c, mjoin (nthZ (Some <$> ns) c)) (seqZ 0 SYMBOLS_PER_REEL))
    by (intros; apply Hcell).
  unfold SYMBOLS_PER_REEL in *.
  destruct ns as [|n0 [|n1 [|n2 [|n3 [|n4 [|n5 [|n6 ns]]]]]]]; simpl in Hlen; try lia.
  reflexivity.
Qed.

Lemma applyGrid_invalid grid reels rnd w :
  ¬ gridFits grid →
  ∃ line, SlotMachine.applyGrid grid reels rnd w
          = Done reels (MkWorld (drawn w) (console w ++ [line])).
Proof.
  intros Hfits. unfold SlotMachine.applyGrid. case_bool_decide as Hlen; [by eexists|].
  destruct (SlotMachine.invalidRow grid) as [r|] eqn:Hrow; [by eexists|].
  exfalso. apply Hfits.
  unfold SlotMachine.invalidRow in Hrow.
  change (seqZ 0 REEL_COUNT) with [0; 1; 2; 3] in Hrow.
  assert (length grid = 4%nat) as Hlen' by (unfold REEL_COUNT in Hlen; lia).
  destruct grid as [|g0 [|g1 [|g2 [|g3 [|g4 grid]]]]]; try done.
  unfold SlotMachine.invalidColumns, nthZ in Hrow. simpl in Hrow.
  destruct g0 as [n0|]; [|done]. case_bool_decide as H0; [done|].
  destruct g1 as [n1|]; [|done]. case_bool_decide as H1; [done|].
  destruct g2 as [n2|]; [|done]. case_bool_decide as H2; [done|].
  destruct g3 as [n3|]; [|done]. case_bool_decide as H3; [done|].
  exists [n0; n1; n2; n3]. split; [done|]. split; [done|]. by repeat constructor.
Qed.

Lemma invalidRow_fits rows :
  rect REEL_COUNT SYMBOLS_PER_REEL rows → SlotMachine.invalidRow (Some <$> rows) = None.
Proof.
  intros [Hlen Hrows]. unfold SlotMachine.invalidRow.
  change (seqZ 0 REEL_COUNT) with [0; 1; 2; 3].
  assert (length rows = 4%nat) as Hlen' by (unfold REEL_COUNT in Hlen; lia).
  destruct rows as [|n0 [|n1 [|n2 [|n3 [|n4 rows]]]]]; try done.
  apply Forall_cons in Hrows as [H0 Hrows]. apply Forall_cons in Hrows as [H1 Hrows].
  apply Forall_cons in Hrows as [H2 Hrows]. apply Forall_cons in Hrows as [H3 _].
  unfold SlotMachine.invalidColumns, nthZ. simpl.
  by rewrite !bool_decide_eq_false_2 by (by intros ?).
Qed.

Lemma applyGrid_run rows reels rnd w :
  rect REEL_COUNT SYMBOLS_PER_REEL rows →
  Z.of_nat (length reels) = REEL_COUNT →
  Forall ready reels →
  ∃ reels', SlotMachine.applyGrid (Some <$> rows) reels rnd w
            = Done reels' (MkWorld (drawn w) (console w ++ mjoin (textureWarnings <$> rows)))
    ∧ length reels' = length reels
    ∧ ∀ (r : nat) reel ns, reels !! r = Some reel → rows !! r = Some ns →
        ∃ reel', reels' !! r = Some reel' ∧ columnsSet reel ns reel'.
Proof.
  intros Hrect Hreels Hready. pose proof Hrect as [Hlen Hrows].
  unfold SlotMachine.applyGrid.
  rewrite bool_decide_eq_false_2 by (rewrite length_fmap; by intros ?).
  rewrite (invalidRow_fits _ Hrect).
  rewrite Forall_forall in Hready. rewrite Forall_forall in Hrows.
  loop_inv (λ (k : nat) (reels' : list Reel.t) (w' : World),
    length reels' = length reels
    ∧ (∀ (r : nat) reel ns, (r < k)%nat → reels !! r = Some reel → rows !! r = Some ns →
         ∃ reel', reels' !! r = Some reel' ∧ columnsSet reel ns reel')
    ∧ (∀ r : nat, (k ≤ r)%nat → reels' !! r = reels !! r)
    ∧ w' = MkWorld (drawn w) (console w ++ mjoin (textureWarnings <$> take k rows))).
  - split_and!; try done; [intros; lia|]. rewrite take_0. simpl. rewrite app_nil_r.
    by destruct w.
  - intros k r reels1 w1 Hr (Hlen1 & Hdone & Hrest & ->).
    apply lookup_seqZ in Hr as [-> Hk]. rewrite Z.add_0_l.
    assert (k < length reels)%nat as Hk1 by lia.
    assert (k < length rows)%nat as Hk2 by lia.
    destruct (lookup_lt_is_Some_2 reels k Hk1) as [reel Hreel].
    destruct (lookup_lt_is_Some_2 rows k Hk2) as [ns Hns].
    unfold nthZ. rewrite !bool_decide_eq_true_2 by lia. rewrite Nat2Z.id.
    rewrite (Hrest k) by lia. rewrite Hreel, list_lookup_fmap, Hns. simpl.
    destruct (Hready reel) as (Hwf & Hcount & Hsize & Hlock & _);
      [by eapply list_elem_of_lookup_2|].
    destruct (setColumns_run reel ns rnd
                (MkWorld (drawn w) (console w ++ mjoin (textureWarnings <$> take k rows))))
      as (reel' & Hrun & Hset); [done|by left|lia| |].
    { rewrite Hcount. apply Hrows. by eapply list_elem_of_lookup_2. }
    rewrite (run_bind _ _ _ _ _ _ Hrun).
    eexists _, _. split; [reflexivity|]. split_and!.
    + by rewrite length_insert.
    + intros r reel0 ns0 Hlt Hreel0 Hns0. destruct (decide (r = k)) as [->|Hne].
      * exists reel'. rewrite list_lookup_insert_eq by lia.
        assert (reel0 = reel) as -> by congruence.
        assert (ns0 = ns) as -> by congruence. done.
      * rewrite list_lookup_insert_ne by done. apply Hdone; [lia|done..].
    + intros r Hle. rewrite list_lookup_insert_ne by lia. apply Hrest. lia.
    + simpl. rewrite (take_S_r rows k ns Hns), fmap_app, join_app. simpl.
      by rewrite app_nil_r, app_assoc.
  - rewrite length_seqZ in Hinv. destruct Hinv as (Hlen1 & Hdone & _ & ->).
    exists s. split_and!; try done.
    + rewrite firstn_all2 by lia. done.
    + intros r reel ns Hreel Hns. apply Hdone; [|done..].
      apply lookup_lt_Some in Hreel. lia.
Qed.

(** *** A forced grid through the spin *)

Lemma offered_textured old ns :
  textured ns → length old = length ns → zip_with offered old ns = Some <$> ns.
Proof.
  intros Htex. revert old. induction Htex as [|n ns [tex Hn] _ IH]; intros old Hlen.
  - by destruct old.
  - destruct old as [|o old]; [done|]. simpl. unfold offered at 1. rewrite Hn.
    f_equal. apply IH. simpl in Hlen. lia.
Qed.

Lemma textureWarnings_textured ns : textured ns → textureWarnings ns = [].
Proof.
  unfold textureWarnings. induction 1 as [|n ns [tex Hn] _ IH]; [done|].
  simpl. by rewrite Hn.
Qed.

Lemma visibleNames_length reel :
  wellFormed reel → Z.of_nat (length (visibleNames reel)) = Reel.symbolCount reel.
Proof.
  intros (_ & _ & Hcount). unfold visibleNames, Reel.getVisibleSymbols.
  by rewrite length_fmap, sortByX_length.
Qed.

Lemma columnsSet_textured reel ns reel' :
  wellFormed reel → Z.of_nat (length ns) = Reel.symbolCount reel → textured ns →
  columnsSet reel ns reel' → visibleNames reel' = Some <$> ns.
Proof.
  intros Hwf Hlen Htex (_ & _ & Hnames & _). rewrite Hnames.
  apply offered_textured; [done|]. apply visibleNames_length in Hwf. lia.
Qed.



Lemma buildGrid_shown (rows : list (list string)) final :
  rect REEL_COUNT SYMBOLS_PER_REEL rows →
  Forall2 (λ (ns : list string) reel, wellFormed reel ∧ visibleNames reel = Some <$> ns)
          rows final →
  SlotMachine.buildGridFromReels final = Ok (cellsOf rows).
Proof.
  intros [Hlen Hrows] Hshown.
  assert (length rows = 4%nat) as Hlen' by (unfold REEL_COUNT in Hlen; lia).
  destruct rows as [|n0 [|n1 [|n2 [|n3 [|n4 rows]]]]]; try done.
  apply Forall2_cons_inv_l in Hshown as (r0 & final0 & [W0 N0] & Hshown & ->).
  apply Forall2_cons_inv_l in Hshown as (r1 & final1 & [W1 N1] & Hshown & ->).
  apply Forall2_cons_inv_l in Hshown as (r2 & final2 & [W2 N2] & Hshown & ->).
  apply Forall2_cons_inv_l in Hshown as (r3 & final3 & [W3 N3] & Hshown & ->).
  apply Forall2_nil_inv_l in Hshown as ->.
  apply Forall_cons in Hrows as [H0 Hrows]. apply Forall_cons in Hrows as [H1 Hrows].
  apply Forall_cons in Hrows as [H2 Hrows]. apply Forall_cons in Hrows as [H3 _].
  rewrite buildGridFromReels_run.
  by rewrite (readRow_names r0 n0), (readRow_names r1 n1), (readRow_names r2 n2),
    (readRow_names r3 n3).
Qed.


Lemma mjoin_nil_all {A} (ls : list (list A)) : Forall (λ l, l = []) ls → mjoin ls = [].
Proof. induction 1 as [|l ls -> _ IH]; [done|]. simpl. exact IH. Qed.


(** *** [createReels] *)


(** *** The state a reel keeps *)

Lemma snapToGrid_coherent reel :
  wellFormed reel → 0 < Reel.symbolSize reel →
  (Reel.manualLockTextures reel = true →
   ∃ initial, Reel.initialOrderSprites reel = Some initial ∧ initial ≡ₚ Reel.symbols reel) →
  wellFormed (Reel.snapToGrid reel) ∧ aligned (Reel.snapToGrid reel)
  ∧ Reel.symbols (Reel.snapToGrid reel) ≡ₚ Reel.symbols reel.
Proof.
  intros Hwf Hsize Hlock. destruct (Reel.manualLockTextures reel) eqn:Hl.
  - destruct (Hlock eq_refl) as (initial & Hinit & Hperm).
    destruct (snapToGrid_locked reel initial Hl Hinit Hperm Hwf Hsize)
      as (Hwf' & Hsym & _ & Hal).
    split; [exact Hwf'|]. split; [exact Hal|]. by rewrite Hsym.
  - destruct (snapToGrid_unlocked reel (or_introl Hl) Hwf) as (Hwf' & Hsym & _ & Hal); [lia|].
    split; [exact Hwf'|]. split; [exact Hal|]. rewrite Hsym. apply sortByX_perm.
Qed.

Lemma recycle_run reel symbols heap rightmost rnd w :
  ∃ heap' rightmost' w',
    forEachG symbols (Reel.recycle reel) (heap, rightmost) rnd w = Done (heap', rightmost') w'
    ∧ length heap' = length heap ∧ console w' = console w.
Proof.
  revert heap rightmost w. induction symbols as [|sprite symbols IH]; intros heap rightmost w.
  - by exists heap, rightmost, w.
  - assert (∃ heap1 rightmost1 w1,
              Reel.recycle reel sprite (heap, rightmost) rnd w = Done (heap1, rightmost1) w1
              ∧ length heap1 = length heap ∧ console w1 = console w)
      as (heap1 & rightmost1 & w1 & Hrun1 & Hlen1 & Hcon1).
    { unfold Reel.recycle.
      destruct (Qle_bool (Reel.addF (Reel.xOf heap sprite) (inject_Z (Reel.symbolSize reel)))
                  (-1)); [|by exists heap, rightmost, w].
      destruct (Reel.manualLockTextures reel); cbn [negb].
      - eexists _, _, _. split; [reflexivity|]. split; [apply length_setX|reflexivity].
      - eexists _, _, _. split; [reflexivity|].
        split; [by rewrite length_setX, length_setTexture|reflexivity]. }
    destruct (IH heap1 rightmost1 w1) as (heap2 & rightmost2 & w2 & Hrun2 & Hlen2 & Hcon2).
    exists heap2, rightmost2, w2. cbn [forEachG]. rewrite (run_bind _ _ _ _ _ _ Hrun1).
    split; [exact Hrun2|]. split; congruence.
Qed.

Lemma coherent_heap reel heap' :
  wellFormed reel → length heap' = length (Reel.heap reel) →
  wellFormed (Reel.withHeap heap' reel).
Proof. intros (Hnd & Hvalid & Hcount) Hlen. unfold wellFormed. cbn. by rewrite Hlen. Qed.

Lemma update_coherent delta reel rnd w :
  coherent reel →
  ∃ reel' w', Reel.update delta reel rnd w = Done reel' w'
    ∧ coherent reel' ∧ console w' = console w
    ∧ Reel.symbolCount reel' = Reel.symbolCount reel
    ∧ Reel.symbolSize reel' = Reel.symbolSize reel.
Proof.
  intros (Hwf & Hsize & Hlock & Hspin & Hrest). unfold Reel.update.
  destruct (negb (Reel.isSpinning reel) && Qeq_bool (Reel.speed reel) 0) eqn:Hearly.
  { exists reel, w. split; [reflexivity|]. split; [|by split_and!].
    split; [exact Hwf|]. split; [exact Hsize|]. split; [exact Hlock|].
    split; [exact Hspin|exact Hrest]. }
  set (dx := Reel.mulF (Reel.speed reel) (if Qeq_bool delta 0 then 1%Q else delta)).
  set (heap1 := foldl _ (Reel.heap reel) (Reel.symbols reel)).
  destruct (move_heap dx (Reel.symbols reel) (Reel.heap reel)) as [Hlen1 _].
  fold heap1 in Hlen1.
  destruct (recycle_run reel (Reel.symbols reel) heap1
              (Reel.mathMax (Reel.xOf heap1 <$> Reel.symbols reel)) rnd w)
    as (heap2 & rightmost & w2 & Hrun & Hlen2 & Hcon2).
  rewrite (run_bind _ _ _ _ _ _ Hrun).
  assert (wellFormed (Reel.withHeap heap2 reel)) as Hwf2
    by (apply coherent_heap; [exact Hwf|congruence]).
  cbn [Reel.isSpinning Reel.speed Reel.withHeap].
  assert (¬ (Reel.speed reel == 0)%Q) as Hmoving.
  { intros Hzero. destruct (Reel.isSpinning reel) eqn:Hs; [by apply Hspin|].
    apply Qeq_bool_iff in Hzero. rewrite Hzero in Hearly. discriminate. }
  destruct (negb (Reel.isSpinning reel) && negb (Qle_bool (Reel.speed reel) 0)) eqn:Hslow.
  - apply andb_true_iff in Hslow as [Hs _]. apply negb_true_iff in Hs.
    destruct (negb (Qle_bool (1 # 2) _)) eqn:Hstop.
    + set (reel2 := Reel.withSpeed 0 (Reel.withHeap heap2 reel)).
      destruct (snapToGrid_coherent reel2 Hwf2 Hsize Hlock) as (Hwf3 & Hal3 & Hperm3).
      destruct (snapToGrid_fields reel2) as (F1 & F2 & F3 & F4 & F5 & F6 & F7 & F8).
      exists (Reel.snapToGrid reel2), w2. split; [reflexivity|].
      split; [|split; [exact Hcon2|split; [exact F2|exact F1]]].
      split; [exact Hwf3|]. split; [by rewrite F1|]. split.
      { rewrite F5, F6. intros Hl. destruct (Hlock Hl) as (initial & Hinit & Hperm).
        exists initial. split; [exact Hinit|]. by rewrite Hperm3. }
      split; [rewrite F4; cbn; by rewrite Hs|]. intros _. exact Hal3.
    + eexists _, w2. split; [reflexivity|].
      split; [|split; [exact Hcon2|split; reflexivity]].
      apply negb_false_iff, Qle_bool_iff in Hstop.
      assert (¬ (Reel.mulF (Reel.speed reel) Reel.SLOWDOWN_RATE == 0)%Q) as Hpos.
      { intros Hzero. rewrite Hzero in Hstop. by apply Qle_not_lt in Hstop. }
      split; [exact Hwf2|]. split; [exact Hsize|]. split; [exact Hlock|].
      split; [intros _; exact Hpos|]. intros Hzero. by destruct Hpos.
  - exists (Reel.withHeap heap2 reel), w2. split; [reflexivity|].
    split; [|split; [exact Hcon2|split; reflexivity]].
    split; [exact Hwf2|]. split; [exact Hsize|]. split; [exact Hlock|].
    split; [exact Hspin|]. intros Hzero. by destruct Hmoving.
Qed.

Lemma setColumns_coherent names reel rnd w :
  coherent reel →
  ∃ reel' w', Reel.setColumns names reel rnd w = Done reel' w'
    ∧ coherent reel' ∧ drawn w' = drawn w
    ∧ Reel.symbolCount reel' = Reel.symbolCount reel
    ∧ Reel.symbolSize reel' = Reel.symbolSize reel.
Proof.
  intros Hco. pose proof Hco as (Hwf & Hsize & Hlock & Hspin & Hrest).
  unfold Reel.setColumns. destruct names as [ns|].
  2: { eexists reel, _. split; [reflexivity|]. by split_and!. }
  case_bool_decide as Hlen.
  { eexists reel, _. split; [reflexivity|]. by split_and!. }
  set (ordered := Reel.sortByX (Reel.heap reel) (Reel.symbols reel)).
  pose proof Hwf as (Hnd & Hvalid & Hcount).
  assert (NoDup ordered) as Hnd' by (by apply sortByX_NoDup).
  assert (Forall (λ id, (id < length (Reel.heap reel))%nat) ordered) as Hvalid'
    by (unfold ordered; by rewrite sortByX_perm).
  assert (length ns = length ordered) as Hlen'
    by (unfold ordered; rewrite sortByX_length; lia).
  destruct (setColumns_loop ordered ns (Reel.heap reel) rnd w Hnd' Hvalid' Hlen')
    as (heap1 & Hrun & Hl1 & _).
  rewrite (run_bind _ _ _ _ _ _ Hrun).
  set (reel1 := Reel.withHeap heap1 reel).
  assert (wellFormed reel1) as Hwf1 by (by apply coherent_heap).
  destruct (snapToGrid_coherent reel1 Hwf1 Hsize Hlock) as (Hwf2 & Hal2 & Hperm2).
  destruct (snapToGrid_fields reel1) as (F1 & F2 & F3 & F4 & F5 & F6 & F7 & F8).
  eexists (Reel.snapToGrid reel1), _. split; [reflexivity|].
  split; [|split; [reflexivity|split; [exact F2|exact F1]]].
  split; [exact Hwf2|]. split; [by rewrite F1|]. split.
  { rewrite F5, F6. intros Hl. destruct (Hlock Hl) as (initial & Hinit & Hperm).
    exists initial. split; [exact Hinit|]. by rewrite Hperm2. }
  split; [by rewrite F3, F4|]. intros _. exact Hal2.
Qed.

Lemma invoke_coherent c reel rnd w :
  coherent reel →
  ∃ reel' w', invoke c reel rnd w = Done reel' w'
    ∧ coherent reel'
    ∧ Reel.symbolCount reel' = Reel.symbolCount reel
    ∧ Reel.symbolSize reel' = Reel.symbolSize reel.
Proof.
  intros Hco. pose proof Hco as (Hwf & Hsize & Hlock & Hspin & Hrest).
  destruct c as [[| |delta]|lock|names].
  - exists (Reel.startSpin reel), w. split; [reflexivity|]. split; [|by split].
    split; [exact Hwf|]. split; [exact Hsize|]. split; [exact Hlock|].
    split; [intros _; discriminate|]. intros Hzero. discriminate Hzero.
  - exists (Reel.stopSpin reel), w. split; [reflexivity|]. split; [|by split].
    split; [exact Hwf|]. split; [exact Hsize|]. split; [exact Hlock|].
    split; [intros Hs; discriminate Hs|exact Hrest].
  - destruct (update_coherent delta reel rnd w Hco) as (reel' & w' & Hrun & Hco' & _ & F1 & F2).
    exists reel', w'. split; [exact Hrun|]. split; [exact Hco'|]. by split.
  - exists (Reel.enableManualLock lock reel), w. split; [reflexivity|]. split; [|by split].
    split; [exact Hwf|]. split; [exact Hsize|]. split.
    { cbn. intros ->. eexists. split; [reflexivity|]. apply sortByX_perm. }
    split; [exact Hspin|exact Hrest].
  - destruct (setColumns_coherent names reel rnd w Hco)
      as (reel' & w' & Hrun & Hco' & _ & F1 & F2).
    exists reel', w'. split; [exact Hrun|]. split; [exact Hco'|]. by split.
Qed.

Lemma invokes_coherent calls reel rnd w :
  coherent reel →
  ∃ reel' w', invokes calls reel rnd w = Done reel' w'
    ∧ coherent reel'
    ∧ Reel.symbolCount reel' = Reel.symbolCount reel
    ∧ Reel.symbolSize reel' = Reel.symbolSize reel.
Proof.
  revert reel w. induction calls as [|c calls IH]; intros reel w Hco.
  - exists reel, w. split; [reflexivity|]. split; [exact Hco|]. by split.
  - destruct (invoke_coherent c reel rnd w Hco) as (reel1 & w1 & Hrun1 & Hco1 & F1 & F2).
    destruct (IH reel1 w1 Hco1) as (reel2 & w2 & Hrun2 & Hco2 & G1 & G2).
    exists reel2, w2. unfold invokes. cbn [forEachG]. rewrite (run_bind _ _ _ _ _ _ Hrun1).
    split; [exact Hrun2|]. split; [exact Hco2|]. split; congruence.
Qed.

(** *** The reel slows down *)









End ReelLemmas.

(** *** The lines drawn over the wins *)

Lemma winningPaths_bounds grid :
  ∃ log result,
    checkWin grid = Ok (log, result)
    ∧ ∀ p, p ∈ winningPaths result →
        p ≠ [] ∧ ∀ x, x ∈ p → 0 ≤ row x < REEL_COUNT ∧ 0 ≤ col x < SYMBOLS_PER_REEL.
Proof.
  destruct (isValidGrid grid) eqn:Hv.
  - eexists _, _. split; [by apply checkWin_valid|]. cbn [winningPaths]. intros p Hp.
    destruct (reported_path _ _ Hv Hp) as [_ [(r & Hr & ->)|Hc]].
    + split; [done|]. intros x Hx. by apply (rowPath_bounds r).
    + split; [|intros x Hx; by apply (connecting_bounds grid p)].
      destruct Hc as (a & _ & Ha & _). by intros ->.
  - eexists _, _. split; [by apply checkWin_invalid|]. cbn [winningPaths].
    by intros p ?%elem_of_nil.
Qed.

Lemma drawWinPaths_polylines paths :
  SlotMachine.drawWinPaths paths = SlotMachine.LineStyle :: mjoin (polyline <$> paths).
Proof.
  reflexivity.
Qed.

Lemma polyline_targets p d x y :
  d ∈ polyline p → target d = Some (x, y) → ∃ pt, pt ∈ p ∧ (x, y) = centre (row pt) (col pt).
Proof.
  destruct p as [|first rest]; intros Hd Ht; [by apply elem_of_nil in Hd|].
  apply elem_of_cons in Hd as [->|Hd].
  - exists first. split; [left|]. simpl in Ht. by injection Ht as <- <-.
  - apply list_elem_of_fmap in Hd as (pt & -> & Hpt).
    exists pt. split; [by right|]. simpl in Ht. by injection Ht as <- <-.
Qed.

Lemma drawWinPaths_targets paths d x y :
  d ∈ SlotMachine.drawWinPaths paths → target d = Some (x, y) →
  ∃ p pt, p ∈ paths ∧ pt ∈ p ∧ (x, y) = centre (row pt) (col pt).
Proof.
  rewrite drawWinPaths_polylines. intros Hd Ht.
  apply elem_of_cons in Hd as [->|Hd]; [done|].
  apply list_elem_of_join in Hd as (l & Hd & Hl).
  apply list_elem_of_fmap in Hl as (p & -> & Hp).
  destruct (polyline_targets p d x y Hd Ht) as (pt & Hpt & Hxy). by exists p, pt.
Qed.

Lemma polyline_moves p :
  p ≠ [] → length (filter isMoveTo (polyline p)) = 1%nat ∧ length (polyline p) = length p.
Proof.
  destruct p as [|first rest]; [done|]. intros _. split.
  - unfold polyline. rewrite filter_cons_True by done. cbn [length]. f_equal.
    induction rest as [|pt rest IH]; [done|].
    rewrite fmap_cons, filter_cons_False by (by intros ?). exact IH.
  - unfold polyline. cbn [length]. by rewrite length_fmap.
Qed.

Lemma drawWinPaths_moves paths :
  Forall (λ p, p ≠ []) paths →
  length (filter isMoveTo (SlotMachine.drawWinPaths paths)) = length paths
  ∧ length (SlotMachine.drawWinPaths paths) = S (sum_list (length <$> paths)).
Proof.
  intros Hne. rewrite drawWinPaths_polylines.
  rewrite filter_cons_False by (by intros ?). cbn [length].
  induction Hne as [|path paths Hp _ [IH1 IH2]]; [done|].
  destruct (polyline_moves path Hp) as [H1 H2].
  change (mjoin (polyline <$> path :: paths))
    with (polyline path ++ mjoin (polyline <$> paths)).
  change (sum_list (length <$> path :: paths))
    with (length path + sum_list (length <$> paths))%nat.
  rewrite filter_app, !length_app, H1, H2. cbn [length]. split; [by rewrite IH1|].
  injection IH2 as IH2. f_equal. by rewrite IH2.
Qed.

(** *** A forced line on the reels *)


(** *** The example reels *)

Lemma plainReel_ready : ready plainReel.
Proof.
  unfold ready, wellFormed. split_and!; try done.
  - apply NoDup_seq.
  - apply Forall_forall. intros id Hid%elem_of_seq. simpl. lia.
Qed.

Lemma plainReels_ready : Forall ready (replicate 4 plainReel).
Proof. apply Forall_replicate, plainReel_ready. Qed.



Lemma exampleRows_rect : rect REEL_COUNT SYMBOLS_PER_REEL exampleRows.
Proof. split; [done|]. by repeat constructor. Qed.




(** ** The sounds *)

Lemma howls_snoc made e :
  Sound.howls (made ++ [e]) = (Sound.howls made + (if Sound.created e then 1 else 0))%nat.
Proof.
  unfold Sound.howls. rewrite List.filter_app, length_app. simpl.
  by destruct (Sound.created e).
Qed.

Lemma unloaded_snoc made e h :
  unloaded (made ++ [e]) h ↔ unloaded made h ∨ e = (Sound.Unload h, false).
Proof. unfold unloaded. rewrite elem_of_app, list_elem_of_singleton. naive_solver. Qed.

Lemma constructorThrew_snoc made e :
  constructorThrew (made ++ [e])
  ↔ constructorThrew made ∨ ∃ url, e = (Sound.NewHowl url, true).
Proof.
  unfold constructorThrew. split.
  - intros (url & Hin). apply elem_of_app in Hin as [Hin|Hin%list_elem_of_singleton].
    + left. by exists url.
    + right. by exists url.
  - intros [(url & Hin)|(url & ->)]; exists url; apply elem_of_app; [by left|right; left].
Qed.

Lemma usedAfterUnload_snoc made c threw :
  usedAfterUnload (made ++ [(c, threw)])
  ↔ usedAfterUnload made ∨ ∃ h, howlOf c = Some h ∧ unloaded made h.
Proof.
  unfold usedAfterUnload. split.
  - intros (i & j & h & c' & t' & Hij & Hi & Hj & Hc).
    assert (i < length made)%nat as Hi'.
    { apply lookup_lt_Some in Hj. rewrite length_app in Hj. simpl in Hj. lia. }
    rewrite lookup_app_l in Hi by done.
    destruct (decide (j < length made)%nat) as [Hlt|Hge].
    + rewrite lookup_app_l in Hj by done. left. by exists i, j, h, c', t'.
    + rewrite lookup_app_r in Hj by lia.
      destruct (j - length made)%nat; [|by destruct n]. injection Hj as <- <-.
      right. exists h. split; [done|]. by eapply list_elem_of_lookup_2.
  - intros [(i & j & h & c' & t' & Hij & Hi & Hj & Hc)|(h & Hc & Hin)].
    + exists i, j, h, c', t'. split; [done|].
      split; [by apply lookup_app_l_Some|]. split; [by apply lookup_app_l_Some|done].
    + apply list_elem_of_lookup in Hin as [i Hi].
      exists i, (length made), h, c, threw.
      split; [by eapply lookup_lt_Some|]. split; [by apply lookup_app_l_Some|].
      split; [|done]. by rewrite lookup_app_r, Nat.sub_diag by lia.
Qed.

Lemma tracked_initial : tracked ∅ [].
Proof.
  split_and!.
  - intros alias h Hh. by rewrite lookup_empty in Hh.
  - intros a a' h Hh. by rewrite lookup_empty in Hh.
  - intros h Hh. unfold Sound.howls in Hh. simpl in Hh. lia.
  - intros c threw h Hin. by apply elem_of_nil in Hin.
  - intros _. split.
    + intros alias h Hh. by rewrite lookup_empty in Hh.
    + intros (i & j & h & c & t & _ & Hi & _). by rewrite lookup_nil in Hi.
Qed.

(** A call on a registered [Howl] that does not unload it. *)
Lemma tracked_use registry made c threw alias h :
  tracked registry made →
  registry !! alias = Some h → howlOf c = Some h →
  (c, threw) ≠ (Sound.Unload h, false) →
  tracked registry (made ++ [(c, threw)]).
Proof.
  intros (I1 & I2 & I3 & I5 & J) Hreg Hc Hne.
  assert (Sound.created (c, threw) = false) as Hcr by (by destruct c).
  assert (Sound.howls (made ++ [(c, threw)]) = Sound.howls made) as Hh.
  { rewrite howls_snoc, Hcr. lia. }
  assert (∀ h', unloaded (made ++ [(c, threw)]) h' ↔ unloaded made h') as Hun.
  { intros h'. rewrite unloaded_snoc. split; [|by left]. intros [Hu|Hu]; [done|].
    injection Hu as -> ->. simpl in Hc. injection Hc as ->. done. }
  split_and!.
  - intros a h' Ha. rewrite Hh. by eapply I1.
  - exact I2.
  - intros h' Hh'. rewrite Hh in Hh'. rewrite Hun. by apply I3.
  - intros c' t' h' Hin Hc'. rewrite Hh.
    apply elem_of_app in Hin as [Hin|Hin%list_elem_of_singleton].
    + by eapply I5.
    + injection Hin as -> ->. assert (h' = h) as -> by congruence. by eapply I1.
  - intros Hctor. destruct J as [J1 J2].
    { intros Hthrew. apply Hctor, constructorThrew_snoc. by left. }
    split.
    + intros a h' Ha. rewrite Hun. by eapply J1.
    + rewrite usedAfterUnload_snoc. intros [Hused|(h' & Hc' & Hu)]; [done|].
      assert (h' = h) as -> by congruence. by eapply J1.
Qed.

(** The constructor has thrown. *)
Lemma tracked_failed registry made url :
  tracked registry made → tracked registry (made ++ [(Sound.NewHowl url, true)]).
Proof.
  intros (I1 & I2 & I3 & I5 & J).
  assert (Sound.howls (made ++ [(Sound.NewHowl url, true)]) = Sound.howls made) as Hh.
  { rewrite howls_snoc. simpl. lia. }
  split_and!.
  - intros a h Ha. rewrite Hh. by eapply I1.
  - exact I2.
  - intros h Hlt. rewrite Hh in Hlt. rewrite unloaded_snoc.
    destruct (I3 h Hlt) as [Hr|Hu]; [by left|right; by left].
  - intros c t h Hin Hc. rewrite Hh.
    apply elem_of_app in Hin as [Hin|Hin%list_elem_of_singleton]; [by eapply I5|].
    by injection Hin as -> ->.
  - intros Hctor. destruct Hctor. apply constructorThrew_snoc. right. by exists url.
Qed.

Lemma tracked_unloading registry made alias :
  tracked registry made → registry !! alias = None → unloading alias registry made.
Proof.
  intros (I1 & I2 & I3 & I5 & J) Hnone. split_and!; try done.
  - intros h Hh. congruence.
  - intros Hctor. destruct (J Hctor) as [J1 J2]. split; [|done].
    intros a h _ Ha. by eapply J1.
Qed.

Lemma tracked_unload registry made alias existing :
  tracked registry made → registry !! alias = Some existing →
  unloading alias registry (made ++ [(Sound.Unload existing, false)]).
Proof.
  intros (I1 & I2 & I3 & I5 & J) Hreg.
  assert (Sound.howls (made ++ [(Sound.Unload existing, false)]) = Sound.howls made) as Hh.
  { rewrite howls_snoc. simpl. lia. }
  split_and!.
  - intros a h Ha. rewrite Hh. by eapply I1.
  - exact I2.
  - intros h Hlt. rewrite Hh in Hlt. rewrite unloaded_snoc.
    destruct (I3 h Hlt) as [Hr|Hu]; [by left|right; by left].
  - intros c t h Hin Hc. rewrite Hh.
    apply elem_of_app in Hin as [Hin|Hin%list_elem_of_singleton]; [by eapply I5|].
    injection Hin as -> ->. simpl in Hc. injection Hc as <-. by eapply I1.
  - intros h Hh'. assert (h = existing) as -> by congruence.
    apply unloaded_snoc. by right.
  - intros Hctor. destruct J as [J1 J2].
    { intros Hthrew. apply Hctor, constructorThrew_snoc. by left. }
    split.
    + intros a h Hne Ha. rewrite unloaded_snoc. intros [Hu|Hu]; [by eapply J1|].
      injection Hu as ->. apply Hne. by eapply I2.
    + rewrite usedAfterUnload_snoc. intros [Hused|(h & Hc & Hu)]; [done|].
      simpl in Hc. injection Hc as <-. by eapply J1.
Qed.

Lemma unloading_failed alias registry made url :
  unloading alias registry made → tracked registry (made ++ [(Sound.NewHowl url, true)]).
Proof.
  intros (I1 & I2 & I3 & I5 & _ & _).
  assert (Sound.howls (made ++ [(Sound.NewHowl url, true)]) = Sound.howls made) as Hh.
  { rewrite howls_snoc. simpl. lia. }
  split_and!.
  - intros a h Ha. rewrite Hh. by eapply I1.
  - exact I2.
  - intros h Hlt. rewrite Hh in Hlt. rewrite unloaded_snoc.
    destruct (I3 h Hlt) as [Hr|Hu]; [by left|right; by left].
  - intros c t h Hin Hc. rewrite Hh.
    apply elem_of_app in Hin as [Hin|Hin%list_elem_of_singleton]; [by eapply I5|].
    by injection Hin as -> ->.
  - intros Hctor. destruct Hctor. apply constructorThrew_snoc. right. by exists url.
Qed.

Lemma unloading_constructed alias registry made url :
  unloading alias registry made →
  tracked (<[alias := Sound.howls made]> registry) (made ++ [(Sound.NewHowl url, false)]).
Proof.
  intros (I1 & I2 & I3 & I5 & I6 & J).
  assert (Sound.howls (made ++ [(Sound.NewHowl url, false)]) = S (Sound.howls made)) as Hh.
  { rewrite howls_snoc. simpl. lia. }
  assert (∀ h, unloaded (made ++ [(Sound.NewHowl url, false)]) h ↔ unloaded made h) as Hun.
  { intros h. rewrite unloaded_snoc. naive_solver. }
  assert (¬ unloaded made (Sound.howls made)) as Hfresh.
  { intros Hu. assert (Sound.howls made < Sound.howls made)%nat; [|lia].
    by eapply (I5 (Sound.Unload (Sound.howls made)) false). }
  split_and!.
  - intros a h Ha. rewrite Hh. destruct (decide (a = alias)) as [->|Hne].
    + rewrite lookup_insert_eq in Ha. injection Ha as <-. lia.
    + rewrite lookup_insert_ne in Ha by done. apply I1 in Ha. lia.
  - intros a a' h Ha Ha'.
    destruct (decide (a = alias)) as [->|Hne]; destruct (decide (a' = alias)) as [->|Hne'];
      try done.
    + rewrite lookup_insert_eq in Ha. rewrite lookup_insert_ne in Ha' by done.
      injection Ha as <-. apply I1 in Ha'. lia.
    + rewrite lookup_insert_eq in Ha'. rewrite lookup_insert_ne in Ha by done.
      injection Ha' as <-. apply I1 in Ha. lia.
    + rewrite lookup_insert_ne in Ha, Ha' by done. by eapply I2.
  - intros h Hlt. rewrite Hh in Hlt. rewrite Hun.
    destruct (decide (h = Sound.howls made)) as [->|Hne].
    { left. exists alias. by rewrite lookup_insert_eq. }
    destruct (I3 h) as [(a & Ha)|Hu]; [lia| |by right].
    destruct (decide (a = alias)) as [->|Hne'].
    + right. by apply I6.
    + left. exists a. by rewrite lookup_insert_ne.
  - intros c t h Hin Hc. rewrite Hh.
    apply elem_of_app in Hin as [Hin|Hin%list_elem_of_singleton].
    + assert (h < Sound.howls made)%nat by (by eapply I5). lia.
    + by injection Hin as -> ->.
  - intros Hctor. destruct J as [J1 J2].
    { intros Hthrew. apply Hctor, constructorThrew_snoc. by left. }
    split.
    + intros a h Ha. rewrite Hun. destruct (decide (a = alias)) as [->|Hne].
      * rewrite lookup_insert_eq in Ha. by injection Ha as <-.
      * rewrite lookup_insert_ne in Ha by done. by eapply J1.
    + rewrite usedAfterUnload_snoc. intros [Hused|(h & Hc & _)]; done.
Qed.

Section SoundWithHost.
Context (throws : list (Sound.LibCall * bool) → Sound.LibCall → bool).

Lemma construct_tracked alias url s :
  unloading alias (Sound.registry s) (Sound.made s) →
  tracked (Sound.registry (Sound.construct throws alias url s))
          (Sound.made (Sound.construct throws alias url s)).
Proof.
  intros Hun. unfold Sound.construct, Sound.lib.
  destruct (throws (Sound.made s) (Sound.NewHowl url)); cbn.
  - by apply (unloading_failed alias).
  - by apply unloading_constructed.
Qed.

Lemma perform_tracked op s :
  tracked (Sound.registry s) (Sound.made s) →
  tracked (Sound.registry (perform throws op s)) (Sound.made (perform throws op s)).
Proof.
  intros Htr. destruct op as [alias url|alias|alias|alias value]; simpl.
  - unfold Sound.add. destruct (Sound.registry s !! alias) as [existing|] eqn:Hreg.
    + unfold Sound.lib.
      destruct (throws (Sound.made s) (Sound.Unload existing)) eqn:Hthrew.
      * cbn. by apply (tracked_use _ _ _ _ alias existing).
      * apply construct_tracked. cbn. by apply tracked_unload.
    + apply construct_tracked. by apply tracked_unloading.
  - unfold Sound.play. destruct (Sound.registry s !! alias) as [howl|] eqn:Hreg; [|done].
    unfold Sound.lib. destruct (throws (Sound.made s) (Sound.Play howl)); cbn;
      by apply (tracked_use _ _ _ _ alias howl).
  - unfold Sound.stop. destruct (Sound.registry s !! alias) as [howl|] eqn:Hreg; [|done].
    unfold Sound.lib. destruct (throws (Sound.made s) (Sound.Stop howl)); cbn;
      by apply (tracked_use _ _ _ _ alias howl).
  - unfold Sound.loop. destruct (Sound.registry s !! alias) as [howl|] eqn:Hreg; [|done].
    unfold Sound.lib. destruct (throws (Sound.made s) (Sound.Loop howl value)); cbn;
      by apply (tracked_use _ _ _ _ alias howl).
Qed.

Lemma performAll_tracked ops s :
  tracked (Sound.registry s) (Sound.made s) →
  tracked (Sound.registry (performAll throws ops s)) (Sound.made (performAll throws ops s)).
Proof.
  revert s. induction ops as [|op ops IH]; intros s Htr; [done|].
  simpl. apply IH. by apply perform_tracked.
Qed.

Lemma play_made alias howl s :
  Sound.registry s !! alias = Some howl →
  Sound.made (Sound.play throws alias s)
  = Sound.made s ++ [(Sound.Play howl, throws (Sound.made s) (Sound.Play howl))].
Proof.
  intros Hreg. unfold Sound.play, Sound.lib. rewrite Hreg.
  by destruct (throws (Sound.made s) (Sound.Play howl)).
Qed.

End SoundWithHost.

(** *** The example host *)

Lemma secondConstructorThrows_used :
  usedAfterUnload
    (Sound.made (performAll secondConstructorThrows
                   [DoAdd "win" "a.webm"; DoAdd "win" "b.webm"; DoPlay "win"]
                   Sound.initial)).
Proof.
  exists 1%nat, 3%nat, 0%nat, (Sound.Play 0), false. split; [lia|]. by vm_compute.
Qed.

(** * The claims *)




(** C2: a grid whose row count is not 4, or with a row that is missing or
    whose length is not 6, or a missing grid, makes [computeWins] return
    empty [straight], [diagonal] and [adjacency] collections without
    throwing; the only effect is the logged diagnostic. *)
Theorem computeWins_malformed grid :
  malformed grid →
  computeWins grid = Ok (["Invalid grid provided."%string], Wins [] [] []).
Proof.
  intros Hbad%isValidGrid_false. unfold computeWins. by rewrite Hbad.
Qed.

Lemma computeWins_malformed_witness :
  malformed raggedGrid
  ∧ computeWins raggedGrid = Ok (["Invalid grid provided."%string], Wins [] [] []).
Proof.
  assert (H : malformed raggedGrid) by (left; simpl; unfold REEL_COUNT; lia).
  exact (conj H (computeWins_malformed raggedGrid H)).
Defined.



(** C4: on a valid grid the diagonal collection is exactly the full-height
    runs whose four cells hold one shared non-empty symbol: slope +1 from
    the starting columns 0, 1, 2, then slope -1 from the starting columns
    5, 4, 3; every reported diagonal has four cells. *)
Theorem diagonal_collection grid :
  isValidGrid grid = true →
  ∃ log w, computeWins grid = Ok (log, w)
    ∧ diagonal w
      = filter (sharedSymbol grid) ((diagRight <$> [0; 1; 2]) ++ (diagLeft <$> [5; 4; 3]))
    ∧ ∀ p, p ∈ diagonal w → length p = 4%nat.
Proof.
  intros Hv. eexists _, _. split; [by apply computeWins_valid|].
  split; [done|]. intros p Hp. simpl in Hp.
  apply list_elem_of_filter in Hp as [_ Hp].
  each_elem Hp ltac:(done).
Qed.

Lemma diagonal_collection_witness :
  isValidGrid diagonalWinGrid = true
  ∧ ∃ log w, computeWins diagonalWinGrid = Ok (log, w)
    ∧ diagonal w
      = filter (sharedSymbol diagonalWinGrid)
          ((diagRight <$> [0; 1; 2]) ++ (diagLeft <$> [5; 4; 3]))
    ∧ ∀ p, p ∈ diagonal w → length p = 4%nat.
Proof.
  split; [reflexivity|]. apply (diagonal_collection diagonalWinGrid). reflexivity.
Defined.

(** C5: on a valid grid, a result of the adjacency search is absent from
    the final adjacency collection exactly when it has at most one point or
    the column delta between consecutive points is one constant (0, +1 and
    -1 included); so no path of the returned adjacency collection has a
    constant column delta. *)
Theorem adjacency_shape_filter grid :
  isValidGrid grid = true →
  ∃ raw log w,
    findAdjacencyWins grid = Ok raw
    ∧ computeWins grid = Ok (log, w)
    ∧ (∀ p, p ∈ raw → ((p ∉ adjacency w) ↔ (length p ≤ 1)%nat ∨ constantDelta p))
    ∧ (∀ p, p ∈ adjacency w → p ∈ raw ∧ ¬ constantDelta p).
Proof.
  intros Hv. eexists _, _, _.
  split; [by apply findAdjacencyWins_raw|]. split; [by apply computeWins_valid|].
  cbn [adjacency].
  assert (Hin : ∀ p, p ∈ dedupePaths (filter (λ p, negb (isStraightOrDiagonalPath p))
                                        (rawAdjacency grid))
                     ↔ isStraightOrDiagonalPath p = false ∧ p ∈ rawAdjacency grid).
  { intros p. rewrite (dedupePaths_elem grid).
    - rewrite list_elem_of_filter.
      destruct (isStraightOrDiagonalPath p); simpl; naive_solver.
    - intros q [_ Hq]%list_elem_of_filter. by apply rawAdjacency_connecting. }
  assert (Hshape : ∀ p, p ∈ rawAdjacency grid →
            isStraightOrDiagonalPath p = true ↔ (length p ≤ 1)%nat ∨ constantDelta p).
  { intros p Hp. apply isStraightOrDiagonalPath_spec.
    by apply (rawAdjacency_connecting grid p Hv), connecting_shape in Hp as [? _]. }
  split.
  - intros p Hp. rewrite Hin, <- Hshape by done.
    destruct (isStraightOrDiagonalPath p); naive_solver.
  - intros p [Hns Hp]%Hin. split; [done|]. intros Hc.
    assert (isStraightOrDiagonalPath p = true) by (apply Hshape; auto). congruence.
Qed.

Lemma adjacency_shape_filter_witness :
  isValidGrid zigzagGrid = true
  ∧ ∃ raw log w,
      findAdjacencyWins zigzagGrid = Ok raw
      ∧ computeWins zigzagGrid = Ok (log, w)
      ∧ (∀ p, p ∈ raw → ((p ∉ adjacency w) ↔ (length p ≤ 1)%nat ∨ constantDelta p))
      ∧ (∀ p, p ∈ adjacency w → p ∈ raw ∧ ¬ constantDelta p).
Proof.
  split; [reflexivity|]. apply (adjacency_shape_filter zigzagGrid). reflexivity.
Defined.

(** C6: on a valid grid the three collections of [computeWins] are pairwise
    disjoint by coordinate set, no collection holds two paths with the same
    coordinate set, and each collection is [dedupePaths] of its generated
    list, which keeps the first path of every coordinate set in generation
    order. *)
Theorem collections_disjoint_and_deduped grid :
  isValidGrid grid = true →
  ∃ log w horizontalWins verticalWins diagonalWins adjacencyWins,
    computeWins grid = Ok (log, w)
    ∧ findHorizontalWins grid = Ok horizontalWins
    ∧ findVerticalWins grid = Ok verticalWins
    ∧ findDiagonalWins grid = Ok diagonalWins
    ∧ findAdjacencyWins grid = Ok adjacencyWins
    ∧ straight w = dedupePaths (horizontalWins ++ verticalWins)
    ∧ diagonal w = dedupePaths diagonalWins
    ∧ adjacency w
      = dedupePaths (filter (λ p, negb (isStraightOrDiagonalPath p)) adjacencyWins)
    ∧ keepsFirstOccurrence dedupePaths
    ∧ disjointByCoords (straight w) (diagonal w)
    ∧ disjointByCoords (straight w) (adjacency w)
    ∧ disjointByCoords (diagonal w) (adjacency w)
    ∧ distinctByCoords (straight w)
    ∧ distinctByCoords (diagonal w)
    ∧ distinctByCoords (adjacency w).
Proof.
  intros Hv. pose proof fixed_wellformed as Hwf. rewrite Forall_forall in Hwf.
  eexists _, _, _, _, _, _.
  split; [by apply computeWins_valid|].
  split; [by apply findHorizontalWins_spec|].
  split; [by apply findVerticalWins_spec|].
  split; [by apply findDiagonalWins_spec|].
  split; [by apply findAdjacencyWins_raw|].
  cbn [straight diagonal adjacency]. rewrite <- filter_app.
  change ((rowPath <$> [0; 1; 2; 3]) ++ (colPath <$> [0; 1; 2; 3; 4; 5])) with fixedLines.
  change ((diagRight <$> [0; 1; 2]) ++ (diagLeft <$> [5; 4; 3])) with fixedDiagonals.
  split; [symmetry; apply dedupePaths_filter, lines_keys_NoDup|].
  split; [symmetry; apply dedupePaths_filter, diagonals_keys_NoDup|].
  split; [done|]. split; [apply dedupePaths_keepsFirst|].
  split_and!.
  - intros p q [_ Hp]%list_elem_of_filter [_ Hq]%list_elem_of_filter Hsame.
    destruct (Hwf p) as (Hdp & Hsp & _); [set_solver|].
    destruct (Hwf q) as (Hdq & Hsq & _); [set_solver|].
    assert (p = q) as -> by by apply sameCoords_eq.
    pose proof fixed_disjoint as Hdisj. rewrite Forall_forall in Hdisj.
    by apply (Hdisj q).
  - intros p q [_ Hp]%list_elem_of_filter Hq.
    apply (adjacency_not_fixed grid); [done|set_solver|done].
  - intros p q [_ Hp]%list_elem_of_filter Hq.
    apply (adjacency_not_fixed grid); [done|set_solver|done].
  - apply distinct_by_keys.
    + eapply sublist_NoDup; [apply lines_keys_NoDup|]. apply fmap_sublist, sublist_filter.
    + intros p [_ Hp]%list_elem_of_filter. destruct (Hwf p) as (? & _ & ?); [set_solver|]. done.
  - apply distinct_by_keys.
    + eapply sublist_NoDup; [apply diagonals_keys_NoDup|]. apply fmap_sublist, sublist_filter.
    + intros p [_ Hp]%list_elem_of_filter. destruct (Hwf p) as (? & _ & ?); [set_solver|]. done.
  - apply distinct_by_keys; [apply dedupePaths_NoDup|].
    intros p [_ Hp]%dedupePaths_subset%list_elem_of_filter.
    apply (rawAdjacency_connecting grid p Hv), connecting_shape in Hp. tauto.
Qed.

Lemma collections_disjoint_and_deduped_witness :
  isValidGrid zigzagGrid = true
  ∧ ∃ log w,
      computeWins zigzagGrid = Ok (log, w)
      ∧ disjointByCoords (straight w) (diagonal w)
      ∧ disjointByCoords (straight w) (adjacency w)
      ∧ disjointByCoords (diagonal w) (adjacency w)
      ∧ distinctByCoords (straight w)
      ∧ distinctByCoords (diagonal w)
      ∧ distinctByCoords (adjacency w).
Proof.
  split; [reflexivity|].
  destruct (collections_disjoint_and_deduped zigzagGrid)
    as (log & w & _ & _ & _ & _ & Hw & _ & _ & _ & _ & _ & _ & _ & _ & H);
    [reflexivity|].
  exists log, w. split; [exact Hw|exact H].
Defined.

(** C7: for every grid, valid or not, [checkWin] returns [winningPaths] as
    the concatenation of [wins.straight], [wins.diagonal] and
    [wins.adjacency] of [computeWins], in this order and unfiltered, so its
    length is the sum of the three lengths. *)
Theorem checkWin_concatenates grid :
  ∃ log w,
    computeWins grid = Ok (log, w)
    ∧ checkWin grid = Ok (log, CheckWin (straight w ++ diagonal w ++ adjacency w) w)
    ∧ ∀ result, checkWin grid = Ok (log, result) →
        wins result = w
        ∧ winningPaths result = straight w ++ diagonal w ++ adjacency w
        ∧ length (winningPaths result)
          = (length (straight w) + length (diagonal w) + length (adjacency w))%nat.
Proof.
  destruct (computeWins_Ok grid) as (log & w & Hw). exists log, w.
  split; [done|]. unfold checkWin. rewrite Hw. cbn [mbind Res_bind].
  split; [done|]. intros result [= <-]. simpl.
  split_and!; [done..|]. rewrite !length_app. lia.
Qed.

(** C8: on a valid grid, one search (one start cell of the top row, one
    symbol) records at most 6 completed paths, no two of them ending at the
    same bottom-row cell, which is fewer than the 3^(R-1) = 27 paths that
    could start at one cell; a cell is enqueued only when its key is not
    yet in the visited set of the search, and is in it from then on. *)
Theorem search_records_at_most_six grid symbol (c : Z) :
  isValidGrid grid = true → 0 ≤ c < SYMBOLS_PER_REEL →
  ∃ found,
    bfs grid symbol [(Coord 0 c, [Coord 0 c])] {[coordKey 0 c]} [] = Ok found
    ∧ (length found ≤ 6)%nat
    ∧ Z.of_nat (length found) < 3 ^ (REEL_COUNT - 1)
    ∧ (∀ p, p ∈ found →
         ∃ x, last p = Some x ∧ row x = REEL_COUNT - 1 ∧ 0 ≤ col x < SYMBOLS_PER_REEL)
    ∧ (∀ i j p q, found !! i = Some p → found !! j = Some q → last p = last q → i = j)
    ∧ (∀ coord path dc visited queue visited' queue',
         tryNeighbour grid symbol coord path dc (visited, queue) = Ok (visited', queue') →
         (visited' = visited ∧ queue' = queue)
         ∨ ((keyOf (below coord dc) ∉ visited)
            ∧ visited' = {[keyOf (below coord dc)]} ∪ visited
            ∧ queue' = queue ++ [(below coord dc, path ++ [below coord dc])])).
Proof.
  intros Hv Hc. destruct (search_run grid symbol c Hv Hc) as (visited & found & Hrun & HInv).
  exists found. split; [done|].
  pose proof (search_bound _ _ _ _ _ HInv) as Hlen.
  split; [done|]. split; [unfold REEL_COUNT; simpl; lia|]. split_and!.
  - intros p Hp. destruct (inv_paths _ _ _ _ _ _ HInv p Hp) as (x & Hx & Hrow).
    exists x. split; [by eapply trail_last|]. split; [done|].
    inversion Hx; subst; [|done]. simpl in Hrow. unfold REEL_COUNT in Hrow. lia.
  - intros i j p q Hi Hj Hlast.
    assert (Hnd : NoDup (last <$> found)).
    { rewrite (fmap_Some_omap last found).
      - apply (NoDup_fmap_2 Some), (inv_nodup _ _ _ _ _ _ HInv).
      - intros r Hr. destruct (inv_paths _ _ _ _ _ _ HInv r Hr) as (y & Hy & _).
        rewrite (trail_last _ _ _ _ _ Hy). eauto. }
    apply (NoDup_lookup _ i j (last p) Hnd); rewrite list_lookup_fmap.
    + by rewrite Hi.
    + by rewrite Hj, Hlast.
  - intros *. apply tryNeighbour_enqueues.
Qed.

Lemma search_records_at_most_six_witness :
  isValidGrid zigzagGrid = true ∧ 0 ≤ 1 < SYMBOLS_PER_REEL
  ∧ ∃ found,
      bfs zigzagGrid "Z" [(Coord 0 1, [Coord 0 1])] {[coordKey 0 1]} [] = Ok found
      ∧ (length found ≤ 6)%nat.
Proof.
  split; [reflexivity|]. split; [unfold SYMBOLS_PER_REEL; lia|].
  destruct (search_records_at_most_six zigzagGrid "Z" 1) as (found & Hrun & Hlen & _).
  - reflexivity.
  - unfold SYMBOLS_PER_REEL. lia.
  - exists found. split; [exact Hrun|exact Hlen].
Defined.

(** C10: [computeWins] returns a [WinsResult] for every grid argument,
    ragged or with missing rows or cells included, and never reads outside
    an array: a valid grid lets each of the four scans return, anything else
    is answered before any cell is read; and the search loop ends on every
    grid, since each iteration lowers the count of unvisited cells and
    queued entries. *)
Theorem computeWins_total grid :
  (∃ log w, computeWins grid = Ok (log, w))
  ∧ (isValidGrid grid = true →
     ∃ horizontalWins verticalWins diagonalWins adjacencyWins,
       findHorizontalWins grid = Ok horizontalWins
       ∧ findVerticalWins grid = Ok verticalWins
       ∧ findDiagonalWins grid = Ok diagonalWins
       ∧ findAdjacencyWins grid = Ok adjacencyWins)
  ∧ (isValidGrid grid = false →
     computeWins grid = Ok (["Invalid grid provided."%string], Wins [] [] []))
  ∧ (∀ symbol coord path queue visited allPaths,
       row coord = REEL_COUNT - 1 →
       bfs grid symbol ((coord, path) :: queue) visited allPaths
       = bfs grid symbol queue visited (allPaths ++ [path])
       ∧ (bfsMeasure grid (visited, queue)
          < bfsMeasure grid (visited, (coord, path) :: queue))%nat)
  ∧ (∀ symbol coord path queue visited allPaths visited' queue',
       row coord ≠ REEL_COUNT - 1 →
       expand grid symbol coord path (visited, queue) = Ok (visited', queue') →
       bfs grid symbol ((coord, path) :: queue) visited allPaths
       = bfs grid symbol queue' visited' allPaths
       ∧ (bfsMeasure grid (visited', queue')
          < bfsMeasure grid (visited, (coord, path) :: queue))%nat).
Proof.
  split; [apply computeWins_Ok|]. split.
  { intros Hv. eexists _, _, _, _.
    split; [by apply findHorizontalWins_spec|].
    split; [by apply findVerticalWins_spec|].
    split; [by apply findDiagonalWins_spec|].
    by apply findAdjacencyWins_raw. }
  split.
  { intros Hbad. unfold computeWins. by rewrite Hbad. }
  split.
  - intros symbol coord path queue visited allPaths Hrow.
    split; [by apply bfs_bottom|]. unfold bfsMeasure. simpl. lia.
  - intros symbol coord path queue visited allPaths visited' queue' Hrow Hexp.
    split; [by rewrite bfs_expand, Hexp|].
    apply expand_measure in Hexp. unfold bfsMeasure in *. simpl in *. lia.
Qed.

(** * Further properties of the code *)




(** X3: [dedupePaths] returns a subsequence of its argument that starts
    with the same path, and deduplicating twice changes nothing. *)
Theorem dedupePaths_subsequence (paths : list Path) :
  sublist (dedupePaths paths) paths
  ∧ head (dedupePaths paths) = head paths
  ∧ dedupePaths (dedupePaths paths) = dedupePaths paths.
Proof.
  split_and!.
  - apply dedupePaths_sublist.
  - destruct paths as [|p paths]; [done|].
    induction paths as [|q paths IH] using rev_ind; [done|].
    rewrite app_comm_cons, dedupePaths_snoc. case_decide; [done|].
    destruct (dedupePaths (p :: paths)); [done|]. simpl in *. done.
  - apply dedupePaths_id, dedupePaths_NoDup.
Qed.

(** X4: with non-negative coordinates, [dedupePaths] drops a path exactly
    when an earlier path of the list is a reordering of it: the coordinates
    are compared with their multiplicities. *)
Theorem dedupePaths_compares_reorderings (paths : list Path) (p : Path) :
  Forall nonneg (paths ++ [p]) →
  ((∃ q, q ∈ paths ∧ p ≡ₚ q) → dedupePaths (paths ++ [p]) = dedupePaths paths)
  ∧ (¬ (∃ q, q ∈ paths ∧ p ≡ₚ q) → dedupePaths (paths ++ [p]) = dedupePaths paths ++ [p]).
Proof.
  intros Hnn. rewrite Forall_app, Forall_singleton in Hnn. destruct Hnn as [Hnn Hp].
  rewrite Forall_forall in Hnn.
  rewrite dedupePaths_snoc. split.
  - intros (q & Hq & Hpq). rewrite decide_True; [done|].
    apply list_elem_of_fmap. exists q. split; [|done]. by apply pathKey_reordered.
  - intros Hno. rewrite decide_False; [done|].
    intros (q & Hk & Hq)%list_elem_of_fmap. apply Hno. exists q. split; [done|].
    apply pathKey_Permutation; auto.
Qed.

Lemma dedupePaths_compares_reorderings_witness :
  Forall nonneg ([[Coord 1 1; Coord 0 0; Coord 2 2]; [Coord 0 0]] ++ [[Coord 0 0; Coord 0 0]])
  ∧ dedupePaths ([[Coord 1 1; Coord 0 0; Coord 2 2]; [Coord 0 0]] ++ [[Coord 0 0; Coord 0 0]])
    = dedupePaths [[Coord 1 1; Coord 0 0; Coord 2 2]; [Coord 0 0]] ++ [[Coord 0 0; Coord 0 0]].
Proof.
  assert (Forall nonneg ([[Coord 1 1; Coord 0 0; Coord 2 2]; [Coord 0 0]] ++ [[Coord 0 0; Coord 0 0]]))
    as Hnn by (repeat constructor; simpl; lia).
  split; [exact Hnn|].
  apply (dedupePaths_compares_reorderings _ _ Hnn).
  intros (q & Hq & Hpq). apply Permutation_length in Hpq.
  each_elem Hq ltac:(done).
Defined.

(** X5: [isStraightOrDiagonalPath] accepts every path of at most two
    points, every column and every full-height diagonal, rejects every full
    row, and never reads the row of the first point. *)
Theorem isStraightOrDiagonalPath_edges :
  (∀ p, (length p ≤ 2)%nat → isStraightOrDiagonalPath p = true)
  ∧ (∀ r, isStraightOrDiagonalPath (rowPath r) = false)
  ∧ (∀ c, isStraightOrDiagonalPath (colPath c) = true
          ∧ isStraightOrDiagonalPath (diagRight c) = true
          ∧ isStraightOrDiagonalPath (diagLeft c) = true)
  ∧ (∀ r r' c rest,
       isStraightOrDiagonalPath (Coord r c :: rest)
       = isStraightOrDiagonalPath (Coord r' c :: rest)).
Proof.
  split_and!.
  - intros [|p0 [|p1 [|p2 p]]] Hlen; simpl in *; try done; lia.
  - intros r. simpl.
    rewrite (bool_decide_eq_true_2 (r - r ≠ 1)) by lia. done.
  - intros c. unfold isStraightOrDiagonalPath, colPath, diagRight, diagLeft. simpl.
    repeat (rewrite bool_decide_eq_false_2 by lia; simpl). done.
  - intros r r' c [|p1 rest]; done.
Qed.

(** * Forced wins *)











(** X11: when the grid is narrower than it is high, no diagonal fits:
    [generateRandomDiagonalWin] spends its 200 attempts on 200 numbers,
    never builds a grid, never calls [validate] and returns [null]; so no
    round of [getDiagonalWinGrid] ends its loop. *)
Theorem generateRandomDiagonalWin_narrow rnd w (rows cols : Z) symbols validate :
  unitInterval rnd → symbols ≠ [] → cols < rows →
  generateRandomDiagonalWin rows cols (Some symbols) validate rnd w
  = Done None (after 201 w)
  ∧ ∀ fuel, getDiagonalWinGrid fuel rows cols (Some symbols) validate rnd w
            = Done None (after (201 * fuel) w).
Proof.
  intros Hrnd Hne Hnarrow.
  assert (∀ w, generateRandomDiagonalWin rows cols (Some symbols) validate rnd w
               = Done None (after 201 w)) as Hgen.
  { intros w1. destruct (randomSymbolName_run rnd w1 symbols Hrnd Hne) as (sym & Hsym & _).
    unfold generateRandomDiagonalWin. rewrite (run_bind _ _ _ _ _ _ Hsym). cbv zeta.
    rewrite diagonalAttempts_narrow by done. unfold after. simpl. do 2 f_equal. lia. }
  split; [apply Hgen|]. intros fuel. revert w. induction fuel as [|fuel IH]; intros w.
  - unfold after. destruct w. simpl. do 2 f_equal. lia.
  - cbn [getDiagonalWinGrid]. rewrite (run_bind _ _ _ _ _ _ (Hgen w)). rewrite IH.
    unfold after. simpl. do 2 f_equal. lia.
Qed.

Lemma generateRandomDiagonalWin_narrow_witness :
  unitInterval numbersA ∧ SYMBOL_TEXTURES_LIST ≠ [] ∧ 4 < 6
  ∧ generateRandomDiagonalWin 6 4 (Some SYMBOL_TEXTURES_LIST) engine numbersA world0
    = Done None (after 201 world0).
Proof.
  split_and!; [exact numbersA_unitInterval|done|lia|].
  exact (proj1 (generateRandomDiagonalWin_narrow numbersA world0 6 4 SYMBOL_TEXTURES_LIST
                  engine numbersA_unitInterval ltac:(done) ltac:(lia))).
Defined.

(** X12: called as [SlotMachine] calls it,
    [generateRandomStraightConnectingLineWin] returns [null] or a 4 x 6 grid
    of listed symbols in which the cells of one connecting path hold the
    chosen symbol and no other cell does; the path bends, and the engine
    reports exactly that path, as an adjacency win, and logs no diagnostic
    on the way. *)
Theorem generateRandomStraightConnectingLineWin_forced rnd w symbols :
  unitInterval rnd → (""%string ∉ symbols) →
  (∃ s t, s ∈ symbols ∧ t ∈ symbols ∧ s ≠ t) →
  ∃ res w',
    generateRandomStraightConnectingLineWin REEL_COUNT SYMBOLS_PER_REEL (Some symbols)
      engine rnd w
    = Done res w'
    ∧ console w' = console w
    ∧ ∀ g, res = Some g →
        ∃ sym p, sym ∈ symbols
          ∧ forcedPath REEL_COUNT SYMBOLS_PER_REEL symbols sym p g
          ∧ connectingPath (gridOf g) p
          ∧ ¬ constantDelta p
          ∧ engine g = Ok ([], Wins [] [] [p]).
Proof.
  intros Hrnd Hempty Htwo.
  destruct (randomSymbolName_run rnd w symbols Hrnd) as (sym & Hsym & _ & Hin).
  { destruct Htwo as (s & _ & Hs & _). intros ->. by apply elem_of_nil in Hs. }
  unfold generateRandomStraightConnectingLineWin.
  rewrite (run_bind _ _ _ _ _ _ Hsym). cbv zeta.
  destruct (connectingAttempts_run 200 rnd (after 1 w) REEL_COUNT SYMBOLS_PER_REEL symbols
              engine sym Hrnd ltac:(done) ltac:(done) Hin (twoSymbols_pool _ _ Htwo)
              engine_returns) as (res & w' & Hrun & Hc & Hres).
  exists res, w'. split_and!; [done|by rewrite (Hc engine_quiet)|].
  intros g ->. destruct Hres as [|(g' & [= <-] & Hfound)]; [done|].
  assert (sym ≠ ""%string) as Hne by (intros ->; done).
  destruct (connectingFound_engine _ _ _ Hfound Hne) as (p & Hforced & Hconn & Hbent & Hengine).
  by exists sym, p.
Qed.

Lemma generateRandomStraightConnectingLineWin_forced_witness :
  unitInterval numbersA ∧ (""%string ∉ SYMBOL_TEXTURES_LIST)
  ∧ (∃ s t, s ∈ SYMBOL_TEXTURES_LIST ∧ t ∈ SYMBOL_TEXTURES_LIST ∧ s ≠ t)
  ∧ ∃ g w',
      generateRandomStraightConnectingLineWin REEL_COUNT SYMBOLS_PER_REEL
        (Some SYMBOL_TEXTURES_LIST) engine numbersA world0
      = Done (Some g) w'
      ∧ ∃ sym p, sym ∈ SYMBOL_TEXTURES_LIST
          ∧ forcedPath REEL_COUNT SYMBOLS_PER_REEL SYMBOL_TEXTURES_LIST sym p g
          ∧ connectingPath (gridOf g) p
          ∧ ¬ constantDelta p
          ∧ engine g = Ok ([], Wins [] [] [p]).
Proof.
  split_and!; [exact numbersA_unitInterval|exact textures_nonempty|exact textures_two|].
  destruct (generateRandomStraightConnectingLineWin_forced numbersA world0 SYMBOL_TEXTURES_LIST
              numbersA_unitInterval textures_nonempty textures_two)
    as (res & w' & Hrun & _ & Hres).
  assert (is_Some res) as [g ->].
  { assert (generateRandomStraightConnectingLineWin REEL_COUNT SYMBOLS_PER_REEL
              (Some SYMBOL_TEXTURES_LIST) engine numbersA world0
            = Done (Some [["symbol4.png"; "symbol1.png"; "symbol2.png"; "symbol4.png";
                           "symbol3.png"; "symbol5.png"];
                          ["symbol1.png"; "symbol4.png"; "symbol2.png"; "symbol1.png";
                           "symbol5.png"; "symbol3.png"];
                          ["symbol3.png"; "symbol4.png"; "symbol1.png"; "symbol2.png";
                           "symbol4.png"; "symbol3.png"];
                          ["symbol5.png"; "symbol1.png"; "symbol2.png"; "symbol4.png";
                           "symbol1.png"; "symbol5.png"]]%string) (MkWorld 29 []))
      as Heval by (vm_compute; reflexivity).
    rewrite Heval in Hrun. injection Hrun as <- _. by eexists. }
  exists g, w'. split; [exact Hrun|]. by apply Hres.
Defined.





(** X15: win detection reads the symbols only to compare them with each
    other and with the empty string: renaming the symbols of any grid, valid
    or not, by an injective function that keeps the empty string changes
    neither the paths [checkWin] and [computeWins] return, nor what they
    log, nor the fault they end with. *)
Theorem checkWin_ignores_names (f : string → string) (grid : Grid) :
  Inj (=) (=) f →
  f "" = ""%string →
  computeWins (relabel f grid) = computeWins grid
  ∧ checkWin (relabel f grid) = checkWin grid.
Proof.
  intros Hinj Hempty.
  assert (computeWins (relabel f grid) = computeWins grid) as Hwins
    by (by apply relabel_computeWins).
  split; [done|]. unfold checkWin. by rewrite Hwins.
Qed.

Lemma checkWin_ignores_names_witness :
  computeWins (relabel prefixed forkGrid) = computeWins forkGrid
  ∧ checkWin (relabel prefixed forkGrid) = checkWin forkGrid.
Proof. apply checkWin_ignores_names; [apply prefixed_inj|reflexivity]. Defined.




(** X18: [setColumns] on a reel that is not locked, with a size that is not
    negative.  Given as many names as the reel has sprites, it leaves the
    sprites on the grid and each sprite from left to right shows the name
    offered to it, or keeps its old name when that name has no texture, with
    one warning per such name; if every name has a texture the reel shows
    exactly the names given.  Given another number of names, or no array, it
    logs one warning and leaves the reel as it was. *)
Theorem setColumns_outcome (H : Reel.Host) reel (ns : list string) rnd w :
  wellFormed reel → Reel.manualLockTextures reel = false → 0 ≤ Reel.symbolSize reel →
  (Z.of_nat (length ns) = Reel.symbolCount reel →
     ∃ reel', Reel.setColumns (Some ns) reel rnd w
              = Done reel' (MkWorld (drawn w) (console w ++ textureWarnings ns))
       ∧ columnsSet reel ns reel'
       ∧ (textured ns → textureWarnings ns = [] ∧ visibleNames reel' = Some <$> ns))
  ∧ (Z.of_nat (length ns) ≠ Reel.symbolCount reel →
     ∃ line, Reel.setColumns (Some ns) reel rnd w
             = Done reel (MkWorld (drawn w) (console w ++ [line])))
  ∧ ∃ line, Reel.setColumns None reel rnd w
            = Done reel (MkWorld (drawn w) (console w ++ [line])).
Proof.
  intros Hwf Hlock Hsize. split; [|split].
  - intros Hlen.
    destruct (setColumns_run reel ns rnd w Hwf (or_introl Hlock) Hsize Hlen)
      as (reel' & Hrun & Hset).
    exists reel'. split; [exact Hrun|]. split; [exact Hset|]. intros Htex.
    split; [by apply textureWarnings_textured|].
    by apply (columnsSet_textured reel ns reel').
  - intros Hlen. unfold Reel.setColumns. rewrite bool_decide_eq_true_2 by exact Hlen.
    eexists. reflexivity.
  - eexists. reflexivity.
Qed.

Lemma setColumns_outcome_witness :
  wellFormed plainReel ∧ Reel.manualLockTextures plainReel = false
  ∧ 0 ≤ Reel.symbolSize plainReel
  ∧ (Z.of_nat (length exampleRow) = Reel.symbolCount plainReel →
     ∃ reel', Reel.setColumns (Some exampleRow) plainReel numbersA world0
              = Done reel' (MkWorld (drawn world0)
                              (console world0 ++ @textureWarnings exactHost exampleRow))
       ∧ columnsSet plainReel exampleRow reel'
       ∧ (@textured exactHost exampleRow →
          @textureWarnings exactHost exampleRow = [] ∧ visibleNames reel' = Some <$> exampleRow)).
Proof.
  split; [apply plainReel_ready|]. split; [reflexivity|]. split; [simpl; lia|].
  apply (setColumns_outcome exactHost plainReel exampleRow numbersA world0);
    [apply plainReel_ready|reflexivity|simpl; lia].
Defined.



(** X20: [buildGridFromReels] throws a [TypeError] when the machine has
    fewer than [REEL_COUNT] reels.  Otherwise it returns a grid of
    [REEL_COUNT] rows of [SYMBOLS_PER_REEL] cells whatever the reels hold, a
    cell being [undefined] where a reel has no sprite or the sprite no name:
    the grid is valid, so the check at the end of [stopSpin] never logs
    [Invalid grid provided.]. *)
Theorem buildGridFromReels_outcome (H : Reel.Host) (reels : list Reel.t)
    (manualSpinActive : bool) :
  (Z.of_nat (length reels) < REEL_COUNT →
   SlotMachine.buildGridFromReels reels = Throw TypeError
   ∧ SlotMachine.stopSpinCheck manualSpinActive reels = Throw TypeError)
  ∧ (REEL_COUNT ≤ Z.of_nat (length reels) →
     ∃ rows reels' result,
       SlotMachine.buildGridFromReels reels = Ok rows
       ∧ rows = readRow <$> take (Z.to_nat REEL_COUNT) reels
       ∧ isValidGrid (Some ((λ row, Some row) <$> rows)) = true
       ∧ SlotMachine.stopSpinCheck manualSpinActive reels = Ok (reels', ([], result))).
Proof.
  split.
  - intros Hlen. split.
    + apply buildGridFromReels_short. unfold REEL_COUNT in Hlen. lia.
    + unfold SlotMachine.stopSpinCheck. rewrite buildGridFromReels_short; [done|].
      destruct manualSpinActive; rewrite ?length_fmap; unfold REEL_COUNT in Hlen; lia.
  - intros Hlen. unfold REEL_COUNT in Hlen.
    destruct reels as [|r0 [|r1 [|r2 [|r3 rest]]]]; simpl in Hlen; try lia.
    destruct manualSpinActive; eexists _, _, _;
      (split; [apply buildGridFromReels_run|]); (split; [reflexivity|]);
      (split; [reflexivity|]); unfold SlotMachine.stopSpinCheck.
    + rewrite !fmap_cons, buildGridFromReels_run. cbn [mbind Res_bind].
      rewrite checkWin_valid by reflexivity. reflexivity.
    + rewrite buildGridFromReels_run. cbn [mbind Res_bind].
      rewrite checkWin_valid by reflexivity. reflexivity.
Qed.

Lemma buildGridFromReels_outcome_witness :
  REEL_COUNT ≤ Z.of_nat (length (replicate 4 plainReel))
  ∧ ∃ rows reels' result,
      SlotMachine.buildGridFromReels (replicate 4 plainReel) = Ok rows
      ∧ rows = readRow <$> take (Z.to_nat REEL_COUNT) (replicate 4 plainReel)
      ∧ isValidGrid (Some ((λ row, Some row) <$> rows)) = true
      ∧ SlotMachine.stopSpinCheck false (replicate 4 plainReel) = Ok (reels', ([], result)).
Proof.
  split; [done|].
  apply (buildGridFromReels_outcome exactHost (replicate 4 plainReel) false). done.
Defined.

(** X21: [applyGrid] on the reels of the machine between two spins.  A grid
    that does not have [REEL_COUNT] rows of [SYMBOLS_PER_REEL] names is
    refused with one warning and no reel is touched, not even for the rows
    that are well formed.  A grid that fits is written row by row to the
    reels; if all its names have a texture nothing is logged and
    [buildGridFromReels] reads back exactly the grid that was applied. *)
Theorem applyGrid_outcome (H : Reel.Host) (grid : list (option (list string)))
    (reels : list Reel.t) rnd w :
  Z.of_nat (length reels) = REEL_COUNT → Forall ready reels →
  (¬ gridFits grid →
   ∃ line, SlotMachine.applyGrid grid reels rnd w
           = Done reels (MkWorld (drawn w) (console w ++ [line])))
  ∧ (∀ rows, grid = Some <$> rows → rect REEL_COUNT SYMBOLS_PER_REEL rows →
     ∃ reels', SlotMachine.applyGrid grid reels rnd w
               = Done reels' (MkWorld (drawn w)
                                (console w ++ mjoin (textureWarnings <$> rows)))
       ∧ length reels' = length reels
       ∧ (∀ (r : nat) reel ns, reels !! r = Some reel → rows !! r = Some ns →
            ∃ reel', reels' !! r = Some reel' ∧ columnsSet reel ns reel')
       ∧ (Forall textured rows →
          mjoin (textureWarnings <$> rows) = []
          ∧ SlotMachine.buildGridFromReels reels' = Ok (cellsOf rows))).
Proof.
  intros Hlen Hready. split; [apply applyGrid_invalid|].
  intros rows -> Hrect.
  destruct (applyGrid_run rows reels rnd w Hrect Hlen Hready) as (reels' & Hrun & Hlen' & Hset).
  exists reels'. split; [exact Hrun|]. split; [exact Hlen'|]. split; [exact Hset|].
  intros Htex. split.
  - apply mjoin_nil_all. apply Forall_fmap. eapply Forall_impl; [exact Htex|].
    intros ns. apply textureWarnings_textured.
  - apply buildGrid_shown; [exact Hrect|]. destruct Hrect as [Hrows Hcols].
    apply Forall2_same_length_lookup. split; [lia|]. intros r ns reel' Hns Hreel'.
    assert (r < length reels)%nat as Hr by (apply lookup_lt_Some in Hreel'; lia).
    destruct (lookup_lt_is_Some_2 reels r Hr) as [reel Hreel].
    destruct (Hset r reel ns Hreel Hns) as (reel'' & Hreel'' & Hcols').
    assert (reel'' = reel') as -> by congruence.
    rewrite Forall_forall in Hready. rewrite Forall_forall in Hcols.
    rewrite Forall_forall in Htex.
    destruct (Hready reel) as (Hwf & Hcount & _); [by eapply list_elem_of_lookup_2|].
    split; [by destruct Hcols' as (Hwf' & _)|].
    apply (columnsSet_textured reel ns reel'); [exact Hwf| |apply Htex|exact Hcols'].
    + rewrite Hcount. apply Hcols. by eapply list_elem_of_lookup_2.
    + by eapply list_elem_of_lookup_2.
Qed.

Lemma applyGrid_outcome_witness :
  Z.of_nat (length (replicate 4 plainReel)) = REEL_COUNT
  ∧ Forall ready (replicate 4 plainReel)
  ∧ ∃ reels', SlotMachine.applyGrid (Some <$> exampleRows) (replicate 4 plainReel)
                numbersA world0
              = Done reels' (MkWorld (drawn world0)
                               (console world0 ++ mjoin (@textureWarnings exactHost <$> exampleRows)))
      ∧ length reels' = length (replicate 4 plainReel).
Proof.
  split; [done|]. split; [apply plainReels_ready|].
  destruct (applyGrid_outcome exactHost (Some <$> exampleRows) (replicate 4 plainReel)
              numbersA world0) as [_ Hfits];
    [done|apply plainReels_ready|].
  destruct (Hfits exampleRows eq_refl exampleRows_rect) as (reels' & Hrun & Hlen & _).
  exists reels'. split; [exact Hrun|exact Hlen].
Defined.





(** X24: the state a reel keeps.  A reel made with a count that is not
    negative and a positive size goes through any sequence of [update],
    [startSpin], [stopSpin], [enableManualLock] and [setColumns] calls, with
    any arguments and however the host rounds, without a throw; it still
    holds [symbolCount] different sprites, a spinning reel has a speed, and
    whenever the speed is 0 the sprites stand on the grid, the [i]-th from
    the left at [i * symbolSize]. *)
Theorem Reel_stays_coherent (H : Reel.Host) (symbolCount symbolSize : Z)
    (calls : list Call) rnd w :
  0 ≤ symbolCount → 0 < symbolSize →
  ∃ reel w',
    (Reel.new symbolCount symbolSize ≫= invokes calls) rnd w = Done reel w'
    ∧ wellFormed reel
    ∧ Reel.symbolCount reel = symbolCount ∧ Reel.symbolSize reel = symbolSize
    ∧ Z.of_nat (length (Reel.getVisibleSymbols reel)) = symbolCount
    ∧ NoDup (Reel.getVisibleSymbols reel)
    ∧ (Reel.isSpinning reel = true → ¬ (Reel.speed reel == 0)%Q)
    ∧ ((Reel.speed reel == 0)%Q → aligned reel).
Proof.
  intros Hcount Hsize.
  destruct (new_run symbolCount symbolSize rnd w Hcount) as
    (reel0 & Hrun0 & Hwf0 & Hal0 & _ & F1 & F2 & F3 & F4 & F5 & F6); [lia|].
  assert (coherent reel0) as Hco0.
  { split; [exact Hwf0|]. split; [by rewrite F1|].
    split; [intros Hl; congruence|]. split; [intros Hs; congruence|]. intros _. exact Hal0. }
  destruct (invokes_coherent calls reel0 rnd (after (Z.to_nat symbolCount) w) Hco0)
    as (reel & w' & Hrun & Hco & G1 & G2).
  exists reel, w'. rewrite (run_bind _ _ _ _ _ _ Hrun0).
  destruct Hco as (Hwf & _ & _ & Hspin & Hrest).
  split; [exact Hrun|]. split; [exact Hwf|]. split; [congruence|]. split; [congruence|].
  pose proof Hwf as (Hnd & _ & Hlen).
  split; [unfold Reel.getVisibleSymbols; rewrite sortByX_length; congruence|].
  split; [by apply sortByX_NoDup|]. split; [exact Hspin|exact Hrest].
Qed.

Lemma Reel_stays_coherent_witness :
  0 ≤ 6 ∧ 0 < 150
  ∧ ∃ (reel : @Reel.t exactHost) w',
      (Reel.new 6 150 ≫= invokes exampleCalls) numbersA world0 = Done reel w'
      ∧ wellFormed reel
      ∧ Reel.symbolCount reel = 6 ∧ Reel.symbolSize reel = 150
      ∧ Z.of_nat (length (Reel.getVisibleSymbols reel)) = 6
      ∧ NoDup (Reel.getVisibleSymbols reel)
      ∧ (Reel.isSpinning reel = true → ¬ (Reel.speed reel == 0)%Q)
      ∧ ((Reel.speed reel == 0)%Q → aligned reel).
Proof.
  split; [lia|]. split; [lia|].
  apply (Reel_stays_coherent exactHost 6 150 exampleCalls numbersA world0); lia.
Defined.

(** X25: the lines over the wins.  For every grid, [drawWinPaths] on the
    winning paths of [checkWin] sets the line style once and then draws each
    path as one polyline, a [moveTo] followed by [lineTo]s, one call per cell
    of the path; every point it names is the centre of a cell of the path,
    [(150 c + 75, 160 r + 75)] with [r] and [c] inside the grid, so that no
    line leaves the reels. *)
Theorem drawWinPaths_on_board (grid : Grid) :
  ∃ log result,
    checkWin grid = Ok (log, result)
    ∧ (∀ d x y, d ∈ SlotMachine.drawWinPaths (winningPaths result) →
         target d = Some (x, y) →
         ∃ p pt, p ∈ winningPaths result ∧ pt ∈ p
           ∧ 0 ≤ row pt < REEL_COUNT ∧ 0 ≤ col pt < SYMBOLS_PER_REEL
           ∧ (x, y) = centre (row pt) (col pt)
           ∧ 75 ≤ x ≤ 825 ∧ 75 ≤ y ≤ 555)
    ∧ head (SlotMachine.drawWinPaths (winningPaths result)) = Some SlotMachine.LineStyle
    ∧ length (filter isMoveTo (SlotMachine.drawWinPaths (winningPaths result)))
      = length (winningPaths result)
    ∧ length (SlotMachine.drawWinPaths (winningPaths result))
      = S (sum_list (length <$> winningPaths result)).
Proof.
  destruct (winningPaths_bounds grid) as (log & result & Hrun & Hpaths).
  exists log, result. split; [exact Hrun|]. split; [|split; [reflexivity|]].
  - intros d x y Hd Ht.
    destruct (drawWinPaths_targets _ d x y Hd Ht) as (p & pt & Hp & Hpt & Hxy).
    destruct (Hpaths p Hp) as [_ Hin]. destruct (Hin pt Hpt) as [Hr Hc].
    exists p, pt. split; [exact Hp|]. split; [exact Hpt|]. split; [exact Hr|].
    split; [exact Hc|]. split; [exact Hxy|].
    unfold centre in Hxy. injection Hxy as -> ->.
    unfold REEL_COUNT, SYMBOLS_PER_REEL in *. lia.
  - apply drawWinPaths_moves. apply Forall_forall. intros p Hp.
    by destruct (Hpaths p Hp) as [Hne _].
Qed.



(** X27: the registry of [Sound] after any requests [add], [play], [stop]
    and [loop], whatever the library throws: every alias stands for a
    [Howl] that was created, two aliases never share one, and a [Howl] that
    no alias stands for any more has been unloaded.  As long as no
    constructor call has thrown, no registered [Howl] has been unloaded and
    no [Howl] is called after its [unload]; a constructor that throws in a
    second [add] for an alias breaks this: the alias keeps the unloaded
    [Howl] and [play] calls it. *)
Theorem Sound_registry_tracks_howls
    (throws : list (Sound.LibCall * bool) → Sound.LibCall → bool) (ops : list SoundOp) :
  (∀ alias h, Sound.registry (performAll throws ops Sound.initial) !! alias = Some h →
     (h < Sound.howls (Sound.made (performAll throws ops Sound.initial)))%nat)
  ∧ (∀ a a' h, Sound.registry (performAll throws ops Sound.initial) !! a = Some h →
       Sound.registry (performAll throws ops Sound.initial) !! a' = Some h → a = a')
  ∧ (∀ h, (h < Sound.howls (Sound.made (performAll throws ops Sound.initial)))%nat →
       registered (performAll throws ops Sound.initial) h
       ∨ unloaded (Sound.made (performAll throws ops Sound.initial)) h)
  ∧ (¬ constructorThrew (Sound.made (performAll throws ops Sound.initial)) →
     (∀ h, registered (performAll throws ops Sound.initial) h →
        ¬ unloaded (Sound.made (performAll throws ops Sound.initial)) h)
     ∧ ¬ usedAfterUnload (Sound.made (performAll throws ops Sound.initial)))
  ∧ usedAfterUnload
      (Sound.made (performAll secondConstructorThrows
                     [DoAdd "win" "a.webm"; DoAdd "win" "b.webm"; DoPlay "win"]
                     Sound.initial)).
Proof.
  destruct (performAll_tracked throws ops Sound.initial tracked_initial)
    as (I1 & I2 & I3 & _ & J).
  split; [exact I1|]. split; [exact I2|]. split; [exact I3|].
  split; [|exact secondConstructorThrows_used].
  intros Hctor. destruct (J Hctor) as [J1 J2]. split; [|exact J2].
  intros h (alias & Halias). by eapply J1.
Qed.

(** X28: one request to [Sound].  [play] for an alias that is not registered
    logs [Sound alias not found] and calls nothing; [stop] and [loop] for
    such an alias do nothing at all.  [add] whose library calls return
    registers for the alias the [Howl] it has just created, leaves the other
    aliases and the console as they were, and a [play] that follows calls
    [play] on that new [Howl]; [add] one of whose library calls throws logs
    one line and leaves the registry as it was. *)
Theorem Sound_request_outcome
    (throws : list (Sound.LibCall * bool) → Sound.LibCall → bool)
    (alias url : string) (s : Sound.State) :
  (Sound.registry s !! alias = None →
   Sound.play throws alias s
   = Sound.Mk (Sound.registry s) (Sound.made s)
       (Sound.console s ++ ["Sound alias not found: " +:+ alias])
   ∧ Sound.stop throws alias s = s
   ∧ ∀ value, Sound.loop throws alias value s = s)
  ∧ (addThrows throws alias url s = false →
     Sound.registry (Sound.add throws alias url s)
     = <[alias := Sound.howls (Sound.made s)]> (Sound.registry s)
     ∧ Sound.console (Sound.add throws alias url s) = Sound.console s
     ∧ ∃ threw,
         Sound.made (Sound.play throws alias (Sound.add throws alias url s))
         = Sound.made (Sound.add throws alias url s)
           ++ [(Sound.Play (Sound.howls (Sound.made s)), threw)])
  ∧ (addThrows throws alias url s = true →
     Sound.registry (Sound.add throws alias url s) = Sound.registry s
     ∧ Sound.console (Sound.add throws alias url s)
       = Sound.console s
         ++ ["Failed to add sound '" +:+ alias +:+ "' from " +:+ url +:+ ":"]).
Proof.
  split; [|split].
  - intros Hnone. unfold Sound.play, Sound.stop, Sound.loop. rewrite Hnone.
    split; [reflexivity|]. split; [by destruct s|]. intros value. by destruct s.
  - unfold addThrows, Sound.add. destruct (Sound.registry s !! alias) as [existing|] eqn:Hreg.
    + intros [Hu Hc]%orb_false_iff. unfold Sound.lib. rewrite Hu.
      unfold Sound.construct, Sound.lib. cbn [Sound.made Sound.registry Sound.console].
      rewrite Hc. cbn [Sound.made Sound.registry Sound.console].
      assert (Sound.howls (Sound.made s ++ [(Sound.Unload existing, false)])
              = Sound.howls (Sound.made s)) as Hh by (rewrite howls_snoc; simpl; lia).
      rewrite Hh. split; [reflexivity|]. split; [reflexivity|].
      eexists. apply play_made. cbn [Sound.registry]. apply lookup_insert_eq.
    + intros Hc. unfold Sound.construct, Sound.lib. rewrite Hc.
      cbn [Sound.made Sound.registry Sound.console].
      split; [reflexivity|]. split; [reflexivity|].
      eexists. apply play_made. cbn [Sound.registry]. apply lookup_insert_eq.
  - unfold addThrows, Sound.add. destruct (Sound.registry s !! alias) as [existing|] eqn:Hreg.
    + unfold Sound.lib. destruct (throws (Sound.made s) (Sound.Unload existing)) eqn:Hu.
      * intros _. by split.
      * cbn [orb]. intros Hc. unfold Sound.construct, Sound.lib.
        cbn [Sound.made Sound.registry Sound.console]. rewrite Hc. by split.
    + intros Hc. unfold Sound.construct, Sound.lib. rewrite Hc. by split.
Qed.

Lemma Sound_request_outcome_witness :
  addThrows neverThrows "win" "win.webm" Sound.initial = false
  ∧ Sound.registry (Sound.add neverThrows "win" "win.webm" Sound.initial)
    = <["win"%string := Sound.howls (Sound.made Sound.initial)]> (Sound.registry Sound.initial)
  ∧ Sound.console (Sound.add neverThrows "win" "win.webm" Sound.initial)
    = Sound.console Sound.initial.
Proof.
  split; [reflexivity|].
  destruct (Sound_request_outcome neverThrows "win" "win.webm" Sound.initial)
    as (_ & Hadd & _).
  destruct (Hadd eq_refl) as (Hreg & Hcon & _). split; [exact Hreg|exact Hcon].
Defined.
